(** * Image composition engine: resize, grid layout, labels, session handling

    A shallow embedding of [image_process.py] (class [ImageProcessor]),
    of the two callers in [gui.py] that substitute the processor's image
    list ([update_preview], [output_image]), of [config.py] (class
    [ConfigManager]) and of [batch_process.py] (class [BatchProcessor]),
    followed by the properties of the composition engine, of the
    configuration and of the batch run.

    Python integers are [Z].  Python floats are IEEE-754 binary64 values,
    taken from the Standard Library's executable specification
    [SpecFloat] at precision 53 and maximal exponent 1024.  Python
    exceptions are an explicit error monad, [try]/[except] is a handler
    on it. *)

From Stdlib Require Import ZArith List String Ascii Bool Lia.
From Stdlib Require Import SpecFloat.
From Stdlib Require Import Reals Lra Psatz.
From Stdlib Require Import Permutation.
Import ListNotations.

Local Open Scope string_scope.
Local Open Scope list_scope.
Local Open Scope Z_scope.

(** ** Exceptions *)

Inductive exn : Type :=
| ZeroDivisionError
| OverflowError
| ValueError
| IndexError
| AttributeError
| OSError.

Inductive result (A : Type) : Type :=
| Ok (a : A)
| Raise (e : exn).

Arguments Ok {A} a.
Arguments Raise {A} e.

Definition bind {A B : Type} (c : result A) (k : A -> result B) : result B :=
  match c with
  | Ok a => k a
  | Raise e => Raise e
  end.

Declare Scope py_scope.
Delimit Scope py_scope with py.

Notation "x <- c ;; k" := (bind c (fun x => k))
  (at level 61, c at next level, right associativity) : py_scope.
Notation "' pat <- c ;; k" := (bind c (fun x => match x with pat => k end))
  (at level 61, pat pattern, c at next level, right associativity) : py_scope.

Local Open Scope py_scope.

(** [try: body except Exception: handler] *)
Definition try_except {A : Type} (body : result A) (handler : exn -> A) : A :=
  match body with
  | Ok a => a
  | Raise e => handler e
  end.

(** Monadic left fold: a [for] loop whose body may raise. *)
Fixpoint foldM {A B : Type} (f : A -> B -> result A) (l : list B) (a : A)
  : result A :=
  match l with
  | [] => Ok a
  | b :: l' => a' <- f a b ;; foldM f l' a'
  end.

(** [range(n)]: empty when [n <= 0]. *)
Definition range (n : Z) : list Z := map Z.of_nat (seq 0 (Z.to_nat n)).

(** [l[i]] for a non-negative index; [IndexError] out of range. *)
Definition getitem {A : Type} (l : list A) (i : Z) : result A :=
  if i <? 0 then
    match nth_error (rev l) (Z.to_nat (- i - 1)) with
    | Some a => Ok a
    | None => Raise IndexError
    end
  else
    match nth_error l (Z.to_nat i) with
    | Some a => Ok a
    | None => Raise IndexError
    end.

Definition len {A : Type} (l : list A) : Z := Z.of_nat (List.length l).

Definition sum (l : list Z) : Z := fold_left Z.add l 0.

(** Code that updates an object in place and may raise: the object is
    still there, as updated so far, when the exception is caught. *)
Definition stateful (S A : Type) : Type := S -> result A * S.

Definition sbind {S A B : Type} (c : stateful S A) (k : A -> stateful S B)
  : stateful S B :=
  fun s =>
    match c s with
    | (Ok a, s') => k a s'
    | (Raise e, s') => (Raise e, s')
    end.

Definition sret {S A : Type} (a : A) : stateful S A := fun s => (Ok a, s).

Definition lift {S A : Type} (c : result A) : stateful S A := fun s => (c, s).

Definition gets {S A : Type} (f : S -> A) : stateful S A :=
  fun s => (Ok (f s), s).

Definition modify {S : Type} (f : S -> S) : stateful S unit :=
  fun s => (Ok tt, f s).

(** When the state is a local variable: an expression that reads it,
    and the assignment [s = f(s)], which leaves it as it was when [f]
    raises. *)
Definition reads {S A : Type} (f : S -> result A) : stateful S A :=
  fun s => (f s, s).

Definition assign {S : Type} (f : S -> result S) : stateful S unit :=
  fun s =>
    match f s with
    | Ok s' => (Ok tt, s')
    | Raise e => (Raise e, s)
    end.

Notation "x <~ c ;; k" := (sbind c (fun x => k))
  (at level 61, c at next level, right associativity) : py_scope.
Notation "c ;;; k" := (sbind c (fun _ => k))
  (at level 61, right associativity) : py_scope.

Fixpoint sfoldM {S A B : Type} (f : A -> B -> stateful S A) (l : list B)
    (a : A) : stateful S A :=
  match l with
  | [] => sret a
  | b :: l' => a' <~ f a b ;; sfoldM f l' a'
  end.

(** ** Python floats *)

Module PyFloat.

Definition prec : Z := 53.
Definition emax : Z := 1024.

Definition float : Type := spec_float.

Definition is_infinity (x : float) : bool :=
  match x with S754_infinity _ => true | _ => false end.

Definition is_zero (x : float) : bool :=
  match x with S754_zero _ => true | _ => false end.

(** An integer as an exact (not yet rounded) dyadic value. *)
Definition exact (a : Z) : spec_float :=
  match a with
  | Z0 => S754_zero false
  | Zpos p => S754_finite false p 0
  | Zneg p => S754_finite true p 0
  end.

(** [float(a)]: the nearest double, ties to even; [OverflowError]
    when [a] is too large. *)
Definition of_int (a : Z) : result float :=
  let r := binary_normalize prec emax a 0 false in
  if is_infinity r then Raise OverflowError else Ok r.

(** [a / b] on two ints: the correctly rounded quotient. *)
Definition int_truediv (a b : Z) : result float :=
  if b =? 0 then Raise ZeroDivisionError
  else
    let r := SFdiv prec emax (exact a) (exact b) in
    if is_infinity r then Raise OverflowError else Ok r.

Definition mul (x y : float) : float := SFmul prec emax x y.

Definition div (x y : float) : result float :=
  if is_zero y then Raise ZeroDivisionError else Ok (SFdiv prec emax x y).

(** [a * y] and [a / y] with an int on the left: the int is converted
    first. *)
Definition int_mul (a : Z) (y : float) : result float :=
  x <- of_int a ;; Ok (mul x y).

Definition int_div (a : Z) (y : float) : result float :=
  x <- of_int a ;; div x y.

(** [int(x)]: truncation toward zero. *)
Definition to_int (x : float) : result Z :=
  match x with
  | S754_zero _ => Ok 0
  | S754_infinity _ => Raise OverflowError
  | S754_nan => Raise ValueError
  | S754_finite s m e =>
      let a := match e with
               | Z0 => Zpos m
               | Zpos _ => Z.shiftl (Zpos m) e
               | Zneg _ => Z.shiftr (Zpos m) (- e)
               end in
      Ok (if s then - a else a)
  end.

Definition gt (x y : float) : bool := SFltb y x.

(** [min(x, y)]: [y] when [y < x], else [x]. *)
Definition min (x y : float) : float := if SFltb y x then y else x.
Definition ne (x y : float) : bool := negb (SFeqb x y).

End PyFloat.

(** ** Pillow images

    An image is its size, its colour mode and a description of how its
    pixel buffer was obtained.  The description is what distinguishes
    two images of the same size: the resampling filter of a resize, the
    images pasted on a canvas and where, the labels drawn. *)

Inductive color_mode : Type :=
| RGB
| RGBA
| other_mode (name : string).

Inductive resampling : Type :=
| NEAREST
| LANCZOS.

Inductive bg_color : Type :=
| white
| black
| transparent.

(** A Python string as its code points. *)
Definition text : Type := list Z.

Definition text_of_string (s : string) : text :=
  map (fun a => Z.of_nat (nat_of_ascii a)) (list_ascii_of_string s).

Inductive pixels : Type :=
| Decoded (path : string)
| Converted (m : color_mode) (p : pixels)
| Resized (f : resampling) (w h : Z) (p : pixels)
| Cropped (x0 y0 x1 y1 : Z) (p : pixels)
| Filled (c : bg_color)
| Pasted (src : pixels) (w h : Z) (x y : Z) (mask : bool) (dst : pixels)
| Labelled (x y : Z) (label : text) (fill : string) (dst : pixels).

Record image : Type := mk_image {
  width : Z;
  height : Z;
  mode : color_mode;
  content : pixels
}.

Definition size_of (img : image) : Z * Z := (width img, height img).

Definition color_mode_eqb (a b : color_mode) : bool :=
  match a, b with
  | RGB, RGB => true
  | RGBA, RGBA => true
  | other_mode x, other_mode y => String.eqb x y
  | _, _ => false
  end.

Module Image.

(** [Image.resize(size, resample)]: an image of the requested size.
    A request for the image's own size is a copy; otherwise a width or
    height below one pixel is refused with [ValueError] ("height and
    width must be > 0").  The filter changes the pixels only. *)
Definition resize (img : image) (size : Z * Z) (f : resampling)
  : result image :=
  let '(w, h) := size in
  if (w =? width img) && (h =? height img) then Ok img
  else if (w <? 1) || (h <? 1) then Raise ValueError
  else Ok (mk_image w h (mode img) (Resized f w h (content img))).

(** [Image.crop(box)]: the box's size; a box whose right edge is left
    of its left edge (or lower above upper) is refused. *)
Definition crop (img : image) (box : Z * Z * Z * Z) : result image :=
  let '(x0, y0, x1, y1) := box in
  if (x1 <? x0) || (y1 <? y0) then Raise ValueError
  else Ok (mk_image (x1 - x0) (y1 - y0) (mode img)
             (Cropped x0 y0 x1 y1 (content img))).

(** [Image.new(mode, size, color)]: a negative size is refused. *)
Definition new (m : color_mode) (size : Z * Z) (c : bg_color)
  : result image :=
  let '(w, h) := size in
  if (w <? 0) || (h <? 0) then Raise ValueError
  else Ok (mk_image w h m (Filled c)).

(** [canvas.paste(img, (x, y))], with [img] as its own mask when it
    has an alpha channel.  The canvas keeps its size. *)
Definition paste (canvas img : image) (x y : Z) (mask : bool) : image :=
  mk_image (width canvas) (height canvas) (mode canvas)
    (Pasted (content img) (width img) (height img) x y mask
       (content canvas)).

Definition convert (img : image) (m : color_mode) : image :=
  mk_image (width img) (height img) m (Converted m (content img)).

(** [ImageDraw.Draw(canvas).text((x, y), label, fill=...)] *)
Definition draw_text (canvas : image) (x y : Z) (label : text)
    (fill : string) : image :=
  mk_image (width canvas) (height canvas) (mode canvas)
    (Labelled x y label fill (content canvas)).

End Image.

(** The images pasted on a canvas and their positions, first paste
    first. *)
Fixpoint pasted_on (p : pixels) : list (pixels * (Z * Z) * (Z * Z)) :=
  match p with
  | Pasted src w h x y _ dst => pasted_on dst ++ [(src, (w, h), (x, y))]
  | Labelled _ _ _ _ dst => pasted_on dst
  | Converted _ q => pasted_on q
  | _ => []
  end.


(** ** ImageProcessor *)

Inductive resize_mode : Type :=
| original
| longest_edge
| shortest_edge
| custom
| crop
| unknown_mode (name : string).

Inductive alignment : Type :=
| align_center
| align_left
| align_right.

Inductive label_format : Type :=
| parenthesized (* '(a)' *)
| letter_slash  (* 'a/' *)
| Fig1a.

Inductive label_position : Type :=
| top_left
| top_right
| bottom_left
| bottom_right.

Definition is_original (m : resize_mode) : bool :=
  match m with original => true | _ => false end.

(** The body of [resize_image], inside its [try].  The state is the
    local variable [img], which the body rebinds ([img = img.resize(...)],
    [img = img.crop(...)]). *)
Definition resize_image_body (m : resize_mode) (size : Z)
    (aspect_ratio : option (Z * Z)) (fast : bool) : stateful image image :=
  if is_original m then gets (fun img => img)
  else
    let resize_algorithm := if fast then NEAREST else LANCZOS in
    match aspect_ratio with
    | Some (ratio_w, ratio_h) =>
        target_ratio <~ lift (PyFloat.int_truediv ratio_w ratio_h) ;;
        current_ratio <~ reads (fun img =>
          PyFloat.int_truediv (width img) (height img)) ;;
        new_size <~ lift
          (if PyFloat.gt current_ratio target_ratio then
             q <- PyFloat.int_div size target_ratio ;;
             new_height <- PyFloat.to_int q ;;
             Ok (size, new_height)
           else
             q <- PyFloat.int_mul size target_ratio ;;
             new_width <- PyFloat.to_int q ;;
             Ok (new_width, size)) ;;
        assign (fun img => Image.resize img new_size resize_algorithm) ;;;
        (if PyFloat.ne current_ratio target_ratio then
           if PyFloat.gt current_ratio target_ratio then
             assign (fun img =>
               q <- PyFloat.int_mul (height img) target_ratio ;;
               crop_w <- PyFloat.to_int q ;;
               let left := (width img - crop_w) / 2 in
               Image.crop img (left, 0, left + crop_w, height img))
           else
             assign (fun img =>
               q <- PyFloat.int_div (width img) target_ratio ;;
               crop_h <- PyFloat.to_int q ;;
               let top := (height img - crop_h) / 2 in
               Image.crop img (0, top, width img, top + crop_h))
         else sret tt) ;;;
        gets (fun img => img)
    | None =>
        match m with
        | longest_edge =>
            reads (fun img =>
              ratio <- PyFloat.int_truediv size
                         (Z.max (width img) (height img)) ;;
              qw <- PyFloat.int_mul (width img) ratio ;;
              new_w <- PyFloat.to_int qw ;;
              qh <- PyFloat.int_mul (height img) ratio ;;
              new_h <- PyFloat.to_int qh ;;
              Image.resize img (new_w, new_h) resize_algorithm)
        | shortest_edge | custom =>
            reads (fun img =>
              ratio <- PyFloat.int_truediv size
                         (Z.min (width img) (height img)) ;;
              qw <- PyFloat.int_mul (width img) ratio ;;
              new_w <- PyFloat.to_int qw ;;
              qh <- PyFloat.int_mul (height img) ratio ;;
              new_h <- PyFloat.to_int qh ;;
              Image.resize img (new_w, new_h) resize_algorithm)
        | crop =>
            assign (fun img =>
              let min_side := Z.min (width img) (height img) in
              let left := (width img - min_side) / 2 in
              let top := (height img - min_side) / 2 in
              Image.crop img (left, top, left + min_side, top + min_side)) ;;;
            reads (fun img => Image.resize img (size, size) resize_algorithm)
        | _ => gets (fun img => img)
        end
    end.

(** [resize_image]: any exception is printed and [img] is returned, as
    it is bound at that point. *)
Definition resize_image (img : image) (m : resize_mode) (size : Z)
    (aspect_ratio : option (Z * Z)) (fast : bool) : image :=
  match resize_image_body m size aspect_ratio fast img with
  | (Ok resized, _) => resized
  | (Raise _, img) => img
  end.

(** The session: the loaded images and the paths they came from. *)
Record processor : Type := mk_processor {
  images : list image;
  image_paths : list string
}.

Definition is_empty {A : Type} (l : list A) : bool :=
  match l with [] => true | _ => false end.

(** The first loop of [create_combined_image] and [add_labels]: the
    tallest image of every row. *)
Definition row_heights_loop (imgs : list image) (rows cols : Z)
  : result (list Z) :=
  foldM (fun row_heights r =>
    max_height <-
      foldM (fun max_height c =>
        let idx := r * cols + c in
        if idx <? len imgs then
          img <- getitem imgs idx ;;
          Ok (Z.max max_height (height img))
        else Ok max_height) (range cols) 0 ;;
    Ok (row_heights ++ [max_height])) (range rows) [].

(** The second loop: the widest image of every column. *)
Definition col_widths_loop (imgs : list image) (rows cols : Z)
  : result (list Z) :=
  foldM (fun col_widths c =>
    max_width <-
      foldM (fun max_width r =>
        let idx := r * cols + c in
        if idx <? len imgs then
          img <- getitem imgs idx ;;
          Ok (Z.max max_width (width img))
        else Ok max_width) (range rows) 0 ;;
    Ok (col_widths ++ [max_width])) (range cols) [].

Definition max_canvas_size : Z := 16384.

(** The safety ceiling: both totals scaled by one factor. *)
Definition limit_canvas (total_width total_height : Z) : result (Z * Z) :=
  if (total_width >? max_canvas_size) || (total_height >? max_canvas_size)
  then
    scale <- PyFloat.int_truediv max_canvas_size
               (Z.max total_width total_height) ;;
    qw <- PyFloat.int_mul total_width scale ;;
    total_width <- PyFloat.to_int qw ;;
    qh <- PyFloat.int_mul total_height scale ;;
    total_height <- PyFloat.to_int qh ;;
    Ok (total_width, total_height)
  else Ok (total_width, total_height).

(** Where an image goes in its cell ("[# 计算对齐位置]"). *)
Definition aligned_position (align : alignment) (img : image)
    (col_widths row_heights : list Z) (r c x_offset y_offset : Z)
  : result (Z * Z) :=
  match align with
  | align_center =>
      cw <- getitem col_widths c ;;
      rh <- getitem row_heights r ;;
      Ok (x_offset + (cw - width img) / 2, y_offset + (rh - height img) / 2)
  | align_left =>
      rh <- getitem row_heights r ;;
      Ok (x_offset, y_offset + (rh - height img) / 2)
  | align_right =>
      cw <- getitem col_widths c ;;
      rh <- getitem row_heights r ;;
      Ok (x_offset + cw - width img, y_offset + (rh - height img) / 2)
  end.

(** The paste loop: rows outside, columns inside, the two offsets
    advancing by the cell size plus the spacing; [paste] updates the
    canvas in place. *)
Definition paste_loop (imgs : list image) (rows cols h_spacing v_spacing
    margin : Z) (align : alignment) (col_widths row_heights : list Z)
  : stateful image Z :=
  sfoldM (fun y_offset r =>
    _ <~ sfoldM (fun x_offset c =>
           let idx := r * cols + c in
           (if idx <? len imgs then
              img <~ lift (getitem imgs idx) ;;
              xy <~ lift (aligned_position align img col_widths row_heights
                            r c x_offset y_offset) ;;
              modify (fun combined =>
                Image.paste combined img (fst xy) (snd xy)
                  (color_mode_eqb (mode img) RGBA))
            else sret tt) ;;;
           cw <~ lift (getitem col_widths c) ;;
           sret (x_offset + cw + h_spacing))
         (range cols) margin ;;
    rh <~ lift (getitem row_heights r) ;;
    sret (y_offset + rh + v_spacing))
    (range rows) margin.

Definition create_combined_image_body (self : processor) (rows cols
    h_spacing v_spacing : Z) (bg : bg_color) (margin : Z)
    (align : alignment) : result (option image) :=
  if is_empty (images self) then Ok None
  else
    row_heights <- row_heights_loop (images self) rows cols ;;
    col_widths <- col_widths_loop (images self) rows cols ;;
    let total_width := sum col_widths + (cols - 1) * h_spacing + 2 * margin in
    let total_height := sum row_heights + (rows - 1) * v_spacing + 2 * margin in
    size <- limit_canvas total_width total_height ;;
    combined <-
      match bg with
      | transparent => Image.new RGBA size transparent
      | _ => Image.new RGB size bg
      end ;;
    match paste_loop (images self) rows cols h_spacing v_spacing margin
            align col_widths row_heights combined with
    | (Ok _, combined) => Ok (Some combined)
    | (Raise e, _) => Raise e
    end.

(** [create_combined_image]: [None] without images and on any
    exception. *)
Definition create_combined_image (self : processor) (rows cols h_spacing
    v_spacing : Z) (bg : bg_color) (margin : Z) (align : alignment)
  : option image :=
  try_except
    (create_combined_image_body self rows cols h_spacing v_spacing bg margin
       align)
    (fun _ => None).

(** *** Labels *)

(** [chr(n)] *)
Definition chr (n : Z) : result Z :=
  if (0 <=? n) && (n <=? 1114111) then Ok n else Raise ValueError.

(** The label of the cell with linear index [label_idx]. *)
Definition label_text (fmt : label_format) (label_idx : Z) : result text :=
  letter <- chr (97 + label_idx) ;;
  match fmt with
  | parenthesized =>
      Ok (text_of_string "(" ++ [letter] ++ text_of_string ")")
  | letter_slash => Ok ([letter] ++ text_of_string "/")
  | Fig1a => Ok (text_of_string "Fig1" ++ [letter])
  end.

(** A font is what [textbbox] measures with it. *)
Record font : Type := mk_font {
  font_file : string;
  font_size_px : Z;
  textbbox : text -> Z * Z * Z * Z
}.

Record font_library : Type := mk_font_library {
  truetype : string -> Z -> result font;
  load_default : font
}.

(** The [for path in font_paths: ... else: load_default()] loop. *)
Fixpoint first_font (fonts : font_library) (paths : list string)
    (font_size : Z) : font :=
  match paths with
  | [] => load_default fonts
  | path :: rest =>
      match truetype fonts path font_size with
      | Ok f => f
      | Raise _ => first_font fonts rest font_size
      end
  end.

Definition resolve_font (fonts : font_library) (font_name : string)
    (font_size : Z) : font :=
  try_except (truetype fonts font_name font_size) (fun _ =>
    try_except
      (if String.eqb font_name "宋体" then
         truetype fonts "simsun.ttc" font_size
       else if String.eqb font_name "黑体" then
         truetype fonts "simhei.ttf" font_size
       else if String.eqb font_name "Times New Roman" then
         truetype fonts "times.ttf" font_size
       else
         Ok (first_font fonts
               ["arial.ttf"; "ARIAL.TTF"; "C:/Windows/Fonts/arial.ttf";
                "/usr/share/fonts/truetype/msttcorefonts/Arial.ttf"]
               font_size))
      (fun _ => load_default fonts)).

(** The anchor of a label ("[# 标签位置]"). *)
Definition label_anchor (pos : label_position) (f : font) (label : text)
    (img : image) (img_x img_y label_margin : Z) : Z * Z :=
  match pos with
  | top_left => (img_x + label_margin, img_y + label_margin)
  | top_right =>
      let '(b0, b1, b2, b3) := textbbox f label in
      let text_width := b2 - b0 in
      (img_x + width img - text_width - label_margin, img_y + label_margin)
  | bottom_left =>
      let '(b0, b1, b2, b3) := textbbox f label in
      let text_height := b3 - b1 in
      (img_x + label_margin, img_y + height img - text_height - label_margin)
  | bottom_right =>
      let '(b0, b1, b2, b3) := textbbox f label in
      let text_width := b2 - b0 in
      let text_height := b3 - b1 in
      (img_x + width img - text_width - label_margin,
       img_y + height img - text_height - label_margin)
  end.

(** The label loop, drawing on the canvas in place. *)
Definition label_loop (imgs : list image) (rows cols : Z)
    (fmt : label_format) (pos : label_position) (f : font)
    (label_color : string) (label_margin h_spacing v_spacing margin : Z)
    (align : alignment) (col_widths row_heights : list Z)
  : stateful image Z :=
  sfoldM (fun y_offset r =>
    _ <~ sfoldM (fun x_offset c =>
           let idx := r * cols + c in
           (if idx <? len imgs then
              label <~ lift (label_text fmt idx) ;;
              img <~ lift (getitem imgs idx) ;;
              xy <~ lift (aligned_position align img col_widths row_heights
                            r c x_offset y_offset) ;;
              let text_xy :=
                label_anchor pos f label img (fst xy) (snd xy) label_margin in
              modify (fun combined =>
                Image.draw_text combined (fst text_xy) (snd text_xy) label
                  label_color)
            else sret tt) ;;;
           cw <~ lift (getitem col_widths c) ;;
           sret (x_offset + cw + h_spacing))
         (range cols) margin ;;
    rh <~ lift (getitem row_heights r) ;;
    sret (y_offset + rh + v_spacing))
    (range rows) margin.

(** [add_labels]: on any exception the canvas is returned as it is at
    that point; a missing canvas ([None]) is returned as it came. *)
Definition add_labels (fonts : font_library) (self : processor)
    (combined : option image) (rows cols : Z) (fmt : label_format)
    (pos : label_position) (font_name : string) (font_size : Z)
    (label_color : string) (label_margin h_spacing v_spacing margin : Z)
    (align : alignment) : option image :=
  match combined with
  | None => None
  | Some combined =>
      let combined :=
        if negb (color_mode_eqb (mode combined) RGBA)
        then Image.convert combined RGBA else combined in
      let f := resolve_font fonts font_name font_size in
      Some (snd ((row_heights <~ lift (row_heights_loop (images self) rows cols) ;;
                  col_widths <~ lift (col_widths_loop (images self) rows cols) ;;
                  label_loop (images self) rows cols fmt pos f label_color
                    label_margin h_spacing v_spacing margin align
                    col_widths row_heights) combined))
  end.

(** *** Loading *)

(** What lies outside the program: the files, the decoders, the
    installed fonts, and Pillow's [thumbnail], known by its contract
    (the image becomes "a thumbnail version of itself, no larger than
    the given size"). *)
Record world : Type := mk_world {
  path_exists : string -> bool;
  open_image : string -> result image;
  read_eps : string -> result image;
  exif_transpose : image -> result image;
  thumbnail_size : Z * Z -> Z * Z -> result (Z * Z);
  thumbnail_fits : forall size box size',
    thumbnail_size size box = Ok size' ->
    fst size' <= fst box /\ snd size' <= snd box;
  fonts : font_library;
  writable : string -> bool
}.

Definition is_letter (c lower upper : ascii) : bool :=
  Ascii.eqb c lower || Ascii.eqb c upper.

(** Whether the part of a reversed path before the extension names a
    file: a base name made of dots only has no extension. *)
Fixpoint has_stem (rev_stem : list ascii) : bool :=
  match rev_stem with
  | [] => false
  | c :: rest =>
      if Ascii.eqb c "/" then false
      else if Ascii.eqb c "." then has_stem rest
      else true
  end.

(** [os.path.splitext(path)[1].lower() == '.eps'] *)
Definition ext_is_eps (path : string) : bool :=
  match rev (list_ascii_of_string path) with
  | c3 :: c2 :: c1 :: dot :: stem =>
      Ascii.eqb dot "." && is_letter c1 "e" "E" && is_letter c2 "p" "P"
      && is_letter c3 "s" "S" && has_stem stem
  | _ => false
  end.

(** [_load_eps]: matplotlib first, Pillow when that fails. *)
Definition _load_eps (w : world) (path : string) : result image :=
  match read_eps w path with
  | Ok img => Ok img
  | Raise _ => open_image w path
  end.

Definition is_RGB_or_RGBA (m : color_mode) : bool :=
  match m with RGB | RGBA => true | _ => false end.

(** [Image.thumbnail(size, resample)], in place. *)
Definition thumbnail (w : world) (img : image) (box : Z * Z)
    (f : resampling) : result image :=
  ' (tw, th) <- thumbnail_size w (size_of img) box ;;
  Ok (mk_image tw th (mode img) (Resized f tw th (content img))).

Definition max_size : Z := 1024.

(** What [load_images] does with a path that is new and exists, inside
    the inner [try]: decode, then store a thumbnail when the image is
    large. *)
Definition load_one (w : world) (path : string) : result image :=
  img <- (if ext_is_eps path then _load_eps w path
          else
            img <- open_image w path ;;
            let img := try_except (exif_transpose w img) (fun _ => img) in
            Ok (if is_RGB_or_RGBA (mode img) then img
                else Image.convert img RGB)) ;;
  let thumbnail_img := img in
  if Z.max (width thumbnail_img) (height thumbnail_img) >? max_size then
    thumbnail w thumbnail_img (max_size, max_size) LANCZOS
  else Ok thumbnail_img.

Definition mem (path : string) (paths : list string) : bool :=
  existsb (String.eqb path) paths.

(** [load_images]: the session after the call and whether the call
    reports success (no path produced an error). *)
Fixpoint load_images (w : world) (self : processor) (paths : list string)
  : bool * processor :=
  match paths with
  | [] => (true, self)
  | path :: rest =>
      if mem path (image_paths self) then load_images w self rest
      else if negb (path_exists w path) then
        (false, snd (load_images w self rest))
      else
        match load_one w path with
        | Ok thumbnail_img =>
            load_images w
              (mk_processor (images self ++ [thumbnail_img])
                 (image_paths self ++ [path])) rest
        | Raise _ => (false, snd (load_images w self rest))
        end
  end.

(** [ImageProcessor()] and [clear] *)
Definition new_processor : processor := mk_processor [] [].

Definition clear (self : processor) : processor := mk_processor [] [].

Fixpoint mapM {A B : Type} (f : A -> result B) (l : list A)
  : result (list B) :=
  match l with
  | [] => Ok []
  | a :: l' => b <- f a ;; bs <- mapM f l' ;; Ok (b :: bs)
  end.

(** [reorder_images]: the two lists are rebuilt and assigned one after
    the other; an index may be negative, one out of range raises
    [IndexError] (nothing catches it). *)
Definition reorder_images (new_order : list Z) : stateful processor unit :=
  same_length <~ gets (fun self => len new_order =? len (images self)) ;;
  if same_length : bool then
    assign (fun self =>
      reordered <- mapM (getitem (images self)) new_order ;;
      Ok (mk_processor reordered (image_paths self))) ;;;
    assign (fun self =>
      reordered <- mapM (getitem (image_paths self)) new_order ;;
      Ok (mk_processor (images self) reordered))
  else sret tt.

Inductive output_format : Type := PNG | TIFF | PDF | EPS.

(** [save_image]: whether the file was written. *)
Definition save_image (w : world) (img : option image) (output_path : string)
    (dpi : Z) (fmt : output_format) : bool :=
  match img with
  | None => false
  | Some img =>
      writable w output_path &&
      match fmt with
      | PDF | EPS => negb (dpi =? 0)
      | _ => true
      end
  end.

(** ** ConfigManager *)

(** The float literal [37.8] *)
Definition f37_8 : PyFloat.float :=
  Eval vm_compute in
    SFdiv PyFloat.prec PyFloat.emax (PyFloat.exact 378) (PyFloat.exact 10).

Definition get_spacing_in_pixels (spacing : Z) (unit : string) : result Z :=
  if String.eqb unit "cm" then
    q <- PyFloat.int_mul spacing f37_8 ;; PyFloat.to_int q
  else Ok spacing.

(** *** The configuration dict *)

(** The Python values a configuration can hold: what the defaults use
    and what [json.load] can produce. *)
#[warnings="-register-all"]
Inductive value : Type :=
| VNone
| VBool (b : bool)
| VInt (n : Z)
| VFloat (x : PyFloat.float)
| VStr (s : string)
| VTuple (items : list value)
| VList (items : list value)
| VDict (entries : list (string * value)).

(** A dict with string keys, in insertion order. *)
Definition dict : Type := list (string * value).

(** [d.get(key)] *)
Fixpoint dict_get (d : dict) (key : string) : option value :=
  match d with
  | [] => None
  | (k, v) :: rest => if String.eqb k key then Some v else dict_get rest key
  end.

(** [key in d] *)
Definition dict_contains (d : dict) (key : string) : bool :=
  match dict_get d key with
  | Some _ => true
  | None => false
  end.

(** [d[key] = v]: a known key keeps its place, a new one goes last. *)
Fixpoint dict_set (d : dict) (key : string) (v : value) : dict :=
  match d with
  | [] => [(key, v)]
  | (k, x) :: rest =>
      if String.eqb k key then (k, v) :: rest
      else (k, x) :: dict_set rest key v
  end.

Definition _get_default_config : dict :=
  [("rows", VInt 2); ("cols", VInt 2);
   ("resize_mode", VStr "longest_edge"); ("image_size", VInt 800);
   ("aspect_ratio", VNone);
   ("h_spacing", VInt 20); ("v_spacing", VInt 20);
   ("spacing_unit", VStr "px");
   ("label_format", VStr "(a)"); ("label_position", VStr "top_left");
   ("label_font", VStr "Arial"); ("label_font_size", VInt 12);
   ("label_color", VStr "black"); ("label_margin", VInt 10);
   ("bg_color", VStr "white"); ("canvas_margin", VInt 10);
   ("align", VStr "center");
   ("output_format", VStr "PNG"); ("dpi", VInt 300);
   ("output_path", VStr EmptyString)].

(** [update_config] on its keyword arguments, and the loop of
    [load_config]: only keys the configuration has are taken. *)
Definition update_config (kwargs : dict) (config : dict) : dict :=
  fold_left (fun config kv =>
               if dict_contains config (fst kv)
               then dict_set config (fst kv) (snd kv)
               else config)
    kwargs config.

(** [get_config]: a copy. *)
Definition get_config (config : dict) : dict := config.

Definition reset_config (config : dict) : dict := _get_default_config.

(** What [json.load] gives back of a value written by [json.dump]:
    tuples come back as lists. *)
Fixpoint jsonify (v : value) : value :=
  match v with
  | VTuple items => VList (map jsonify items)
  | VList items => VList (map jsonify items)
  | VDict entries =>
      VDict (map (fun kv => match kv with (k, x) => (k, jsonify x) end)
               entries)
  | _ => v
  end.

(** The JSON files: which exist, what parsing one gives (an [OSError]
    or a [ValueError] when it cannot be read or parsed), which can be
    written. *)
Record json_files : Type := mk_json_files {
  json_exists : string -> bool;
  json_load : string -> result value;
  json_writable : string -> bool
}.

(** [save_config]: whether it succeeded, and the files afterwards. *)
Definition save_config (file_path : string) (config : dict)
    (fs : json_files) : bool * json_files :=
  if json_writable fs file_path then
    (true,
     mk_json_files
       (fun path => String.eqb path file_path || json_exists fs path)
       (fun path =>
          if String.eqb path file_path then Ok (jsonify (VDict config))
          else json_load fs path)
       (json_writable fs))
  else (false, fs).

(** [loaded_config.items()] *)
Definition items (v : value) : result dict :=
  match v with
  | VDict entries => Ok entries
  | _ => Raise AttributeError
  end.

(** [load_config]: whether it succeeded, and the configuration
    afterwards. *)
Definition load_config (fs : json_files) (file_path : string) (config : dict)
  : bool * dict :=
  try_except
    (if negb (json_exists fs file_path) then Ok (false, config)
     else
       loaded_config <- json_load fs file_path ;;
       entries <- items loaded_config ;;
       Ok (true, update_config entries config))
    (fun _ => (false, config)).

(** [validate_config] catches nothing: a missing key and a comparison
    Python refuses come out of it. *)
Inductive config_exn : Type :=
| KeyError (key : string)
| TypeError.

Definition attempt (A : Type) : Type := (config_exn + A)%type.

Definition abind {A B : Type} (c : attempt A) (k : A -> attempt B)
  : attempt B :=
  match c with
  | inl e => inl e
  | inr a => k a
  end.

Notation "x <-! c ;; k" := (abind c (fun x => k))
  (at level 61, c at next level, right associativity) : py_scope.

(** [config[key]] *)
Definition subscript (config : dict) (key : string) : attempt value :=
  match dict_get config key with
  | Some v => inr v
  | None => inl (KeyError key)
  end.

(** The double of a small integer. *)
Definition float_of (n : Z) : PyFloat.float :=
  binary_normalize PyFloat.prec PyFloat.emax n 0 false.

(** [v < n] and [v > n] against an int: numbers compare ([True] and
    [False] as 1 and 0, a NaN with nothing); anything else is a
    [TypeError]. *)
Definition lt (v : value) (n : Z) : attempt bool :=
  match v with
  | VBool b => inr (Z.b2z b <? n)
  | VInt z => inr (z <? n)
  | VFloat x => inr (SFltb x (float_of n))
  | _ => inl TypeError
  end.

Definition gt (v : value) (n : Z) : attempt bool :=
  match v with
  | VBool b => inr (Z.b2z b >? n)
  | VInt z => inr (z >? n)
  | VFloat x => inr (SFltb (float_of n) x)
  | _ => inl TypeError
  end.

(** [a or b]: [b] is not evaluated when [a] holds. *)
Definition or_else (a b : attempt bool) : attempt bool :=
  x <-! a ;; if x : bool then inr true else b.

(** [validate_config]: whether the configuration is valid, and the
    errors found. *)
Definition validate_config (config : dict) : attempt (bool * list string) :=
  c <-! or_else (v <-! subscript config "rows" ;; lt v 1)
                (v <-! subscript config "cols" ;; lt v 1) ;;
  let errors := if c : bool then ["行数和列数必须大于0"] else [] in
  c <-! (v <-! subscript config "image_size" ;; lt v 100) ;;
  let errors := errors ++ (if c : bool then ["图片尺寸不能小于100像素"] else []) in
  c <-! or_else (v <-! subscript config "h_spacing" ;; lt v 0)
                (v <-! subscript config "v_spacing" ;; lt v 0) ;;
  let errors := errors ++ (if c : bool then ["间距不能为负数"] else []) in
  c <-! or_else (v <-! subscript config "label_font_size" ;; lt v 8)
                (v <-! subscript config "label_font_size" ;; gt v 72) ;;
  let errors := errors ++ (if c : bool then ["字体大小应在8-72之间"] else []) in
  c <-! or_else (v <-! subscript config "dpi" ;; lt v 72)
                (v <-! subscript config "dpi" ;; gt v 1200) ;;
  let errors := errors ++ (if c : bool then ["DPI应在72-1200之间"] else []) in
  inr (is_empty errors, errors).

(** ** The main window: preview and export *)

(** The values read from the widgets. *)
Record settings : Type := mk_settings {
  spin_rows : Z;
  spin_cols : Z;
  combo_resize : resize_mode;
  spin_size : Z;
  combo_aspect : option (Z * Z);
  spin_h_spacing : Z;
  spin_v_spacing : Z;
  combo_spacing_unit_cm : bool;
  combo_bg_color : bg_color;
  radio_align : alignment;
  spin_canvas_margin : Z;
  combo_label_format : label_format;
  combo_label_pos : label_position;
  combo_label_color : string;
  combo_font : string;
  spin_font_size : Z;
  spin_label_margin : Z;
  combo_output_format : output_format;
  spin_dpi : Z;
  preview_label_size : Z * Z
}.

Definition between (lo x hi : Z) : bool := (lo <=? x) && (x <=? hi).

(** The [setRange] calls of the window's spin boxes. *)
Definition in_widget_ranges (g : settings) : bool :=
  between 1 (spin_rows g) 10 && between 1 (spin_cols g) 10
  && between 100 (spin_size g) 20000
  && between 0 (spin_h_spacing g) 200 && between 0 (spin_v_spacing g) 200
  && between 1 (spin_font_size g) 1000
  && between 0 (spin_label_margin g) 1000
  && between 0 (spin_canvas_margin g) 100
  && between 72 (spin_dpi g) 1200.

Record main_window : Type := mk_main_window {
  image_processor : processor;
  current_preview : option image;
  preview_pixmap : option image;
  written : list (string * image)
}.

Definition set_images (imgs : list image) (self : main_window)
  : main_window :=
  mk_main_window
    (mk_processor imgs (image_paths (image_processor self)))
    (current_preview self) (preview_pixmap self) (written self).

Definition set_current_preview (p : option image) (self : main_window)
  : main_window :=
  mk_main_window (image_processor self) p (preview_pixmap self)
    (written self).

Definition set_preview_pixmap (p : option image) (self : main_window)
  : main_window :=
  mk_main_window (image_processor self) (current_preview self) p
    (written self).

Definition add_written (path : string) (img : image) (self : main_window)
  : main_window :=
  mk_main_window (image_processor self) (current_preview self)
    (preview_pixmap self) (written self ++ [(path, img)]).

(** The text shared by [update_preview] and [output_image], from
    "[# 临时替换图片]" to "[# 恢复原始图片]": put the resized images in the
    processor, compose, label, put the original list back. *)
Definition compose_substituted (w : world) (g : settings)
    (resized_images : list image) : stateful main_window (option image) :=
  original_images <~ gets (fun self => images (image_processor self)) ;;
  modify (set_images resized_images) ;;;
  sp <~ lift (if combo_spacing_unit_cm g then
                h <- get_spacing_in_pixels (spin_h_spacing g) "cm" ;;
                v <- get_spacing_in_pixels (spin_v_spacing g) "cm" ;;
                Ok (h, v)
              else Ok (spin_h_spacing g, spin_v_spacing g)) ;;
  let '(h_spacing, v_spacing) := sp in
  combined <~ gets (fun self =>
    create_combined_image (image_processor self) (spin_rows g) (spin_cols g)
      h_spacing v_spacing (combo_bg_color g) (spin_canvas_margin g)
      (radio_align g)) ;;
  combined <~ gets (fun self =>
    add_labels (fonts w) (image_processor self) combined (spin_rows g)
      (spin_cols g) (combo_label_format g) (combo_label_pos g)
      (combo_font g) (spin_font_size g) (combo_label_color g)
      (spin_label_margin g) h_spacing v_spacing (spin_canvas_margin g)
      (radio_align g)) ;;
  modify (set_images original_images) ;;;
  sret combined.

(** The end of [update_preview]: fit the canvas to the preview label. *)
Definition show_preview (g : settings) (combined : option image)
  : result image :=
  match combined with
  | None => Raise AttributeError
  | Some combined =>
      let '(pw, ph) := preview_label_size g in
      combined <-
        (if (width combined >? pw) || (height combined >? ph) then
           rw <- PyFloat.int_truediv pw (width combined) ;;
           rh <- PyFloat.int_truediv ph (height combined) ;;
           let ratio := PyFloat.min rw rh in
           qw <- PyFloat.int_mul (width combined) ratio ;;
           new_width <- PyFloat.to_int qw ;;
           qh <- PyFloat.int_mul (height combined) ratio ;;
           new_height <- PyFloat.to_int qh ;;
           Image.resize combined (new_width, new_height) LANCZOS
         else Ok combined) ;;
      Ok (if color_mode_eqb (mode combined) RGBA
          then Image.convert combined RGB else combined)
  end.

(** [update_preview]: the window after the call.  An exception ends in
    the message box of the [except] clause. *)
Definition update_preview (w : world) (g : settings) (self : main_window)
  : main_window :=
  if is_empty (images (image_processor self)) then
    set_preview_pixmap None self
  else
    snd ((resized_images <~ gets (fun self =>
            map (fun img =>
                   resize_image img (combo_resize g) (spin_size g)
                     (combo_aspect g) true)
              (images (image_processor self))) ;;
          combined <~ compose_substituted w g resized_images ;;
          modify (set_current_preview combined) ;;;
          shown <~ lift (show_preview g combined) ;;
          modify (set_preview_pixmap (Some shown))) self).

(** [output_image], [file_path] being the answer of the file dialog
    (empty when it was cancelled). *)
Definition output_image (w : world) (g : settings) (file_path : string)
    (self : main_window) : main_window :=
  match current_preview self with
  | None => self
  | Some _ =>
      if String.eqb file_path EmptyString then self
      else
        snd ((resized_images <~ (fun self =>
                (mapM (fun img_path =>
                         original_img <- open_image w img_path ;;
                         let original_img :=
                           try_except (exif_transpose w original_img)
                             (fun _ => original_img) in
                         Ok (resize_image original_img (combo_resize g)
                               (spin_size g) (combo_aspect g) false))
                   (image_paths (image_processor self)), self)) ;;
              combined <~ compose_substituted w g resized_images ;;
              if save_image w combined file_path (spin_dpi g)
                   (combo_output_format g)
              then
                match combined with
                | Some img => modify (add_written file_path img)
                | None => sret tt
                end
              else sret tt) self)
  end.

(** ** BatchProcessor *)

(** The folders and the path functions of [os]. *)
Record os_world : Type := mk_os_world {
  files : world;
  listdir : string -> result (list string);
  path_join : string -> string -> string;
  basename : string -> string
}.

(** [self.config], read at the keys [process_folder] uses and at the
    types of the default configuration. *)
Record batch_config : Type := mk_batch_config {
  config_rows : Z;
  config_cols : Z;
  config_resize_mode : resize_mode;
  config_image_size : Z;
  config_aspect_ratio : option (Z * Z);
  config_h_spacing : Z;
  config_v_spacing : Z;
  config_spacing_unit : string;
  config_bg_color : bg_color;
  config_canvas_margin : Z;
  config_align : alignment;
  config_label_format : label_format;
  config_label_position : label_position;
  config_label_font : string;
  config_label_font_size : Z;
  config_label_color : string;
  config_label_margin : Z;
  config_output_format : output_format;
  config_dpi : Z
}.

(** [str.lower()], on the ASCII letters. *)
Definition lower_ascii (c : ascii) : ascii :=
  let n := nat_of_ascii c in
  if (65 <=? n)%nat && (n <=? 90)%nat then ascii_of_nat (n + 32) else c.

Definition lower (s : string) : string :=
  string_of_list_ascii (map lower_ascii (list_ascii_of_string s)).

(** [s.endswith(suffix)] *)
Definition endswith (s suffix : string) : bool :=
  let n := String.length s in
  let k := String.length suffix in
  (k <=? n)%nat && String.eqb (substring (n - k) k s) suffix.

(** [file.lower().endswith(('.png', '.jpg', '.jpeg', '.tiff', '.tif',
    '.eps'))] *)
Definition is_image_file (file : string) : bool :=
  existsb (endswith (lower file))
    [".png"; ".jpg"; ".jpeg"; ".tiff"; ".tif"; ".eps"].

(** [config['output_format'].lower()] *)
Definition format_lower (fmt : output_format) : string :=
  match fmt with
  | PNG => "png"
  | TIFF => "tiff"
  | PDF => "pdf"
  | EPS => "eps"
  end.

(** [process_folder]: whether it succeeded, and the file it wrote. *)
Definition process_folder (w : os_world) (config : batch_config)
    (output_dir folder folder_name : string)
  : bool * list (string * image) :=
  try_except
    (names <- listdir w folder ;;
     let image_files :=
       map (path_join w folder) (filter is_image_file names) in
     if is_empty image_files then Ok (false, [])
     else
       let '(success, processor) :=
         load_images (files w) new_processor image_files in
       if negb success then Ok (false, [])
       else
         let rows := config_rows config in
         let cols := config_cols config in
         let resized_images :=
           map (fun img =>
                  resize_image img (config_resize_mode config)
                    (config_image_size config) (config_aspect_ratio config)
                    false)
             (images processor) in
         let processor := mk_processor resized_images (image_paths processor) in
         sp <- (if String.eqb (config_spacing_unit config) "cm" then
                  h <- get_spacing_in_pixels (config_h_spacing config) "cm" ;;
                  v <- get_spacing_in_pixels (config_v_spacing config) "cm" ;;
                  Ok (h, v)
                else Ok (config_h_spacing config, config_v_spacing config)) ;;
         let '(h_spacing, v_spacing) := sp in
         let combined :=
           create_combined_image processor rows cols h_spacing v_spacing
             (config_bg_color config) (config_canvas_margin config)
             (config_align config) in
         let combined :=
           add_labels (fonts (files w)) processor combined rows cols
             (config_label_format config) (config_label_position config)
             (config_label_font config) (config_label_font_size config)
             (config_label_color config) (config_label_margin config)
             h_spacing v_spacing (config_canvas_margin config)
             (config_align config) in
         let output_filename :=
           String.append folder_name
             (String.append "_combined."
                (format_lower (config_output_format config))) in
         let output_path := path_join w output_dir output_filename in
         if save_image (files w) combined output_path (config_dpi config)
              (config_output_format config)
         then Ok (true, match combined with
                        | Some img => [(output_path, img)]
                        | None => []
                        end)
         else Ok (false, []))
    (fun _ => (false, [])).

(** What [run] leaves behind: the progress signals, the [finished]
    signal and the files written. *)
Record batch_run : Type := mk_batch_run {
  progress_updated : list (Z * Z * string);
  finished : bool;
  folders_processed : Z;
  files_written : list (string * image)
}.

(** The loop of [run], from folder number [processed] on. *)
Fixpoint run_from (w : os_world) (config : batch_config) (output_dir : string)
    (total_folders : Z) (folders : list string) (processed : Z) : batch_run :=
  match folders with
  | [] => mk_batch_run [] true processed []
  | folder :: rest =>
      let folder_name := basename w folder in
      let '(success, written) :=
        process_folder w config output_dir folder folder_name in
      if negb success then
        mk_batch_run [(processed, total_folders, folder_name)] false processed
          written
      else
        let later :=
          run_from w config output_dir total_folders rest (processed + 1) in
        mk_batch_run
          ((processed, total_folders, folder_name) :: progress_updated later)
          (finished later) (folders_processed later)
          (written ++ files_written later)
  end.

Definition run (w : os_world) (config : batch_config) (output_dir : string)
    (folders : list string) : batch_run :=
  run_from w config output_dir (len folders) folders 0.

(** ** The layout in the specification's words *)

(** The largest element of a list, 0 for an empty one. *)
Definition max0 (l : list Z) : Z := fold_right Z.max 0 l.

(** Row-major assignment: image [i] gets cell [i], for the first
    [rows * cols] images. *)
Definition assigned (imgs : list image) (rows cols : Z) : list (Z * image) :=
  combine (range (rows * cols)) imgs.

(** Column [c] holds the assigned images with [i mod cols = c], row [r]
    those with [i / cols = r]. *)
Definition col_width (imgs : list image) (rows cols c : Z) : Z :=
  max0 (map (fun p => width (snd p))
          (filter (fun p => fst p mod cols =? c) (assigned imgs rows cols))).

Definition row_height (imgs : list image) (rows cols r : Z) : Z :=
  max0 (map (fun p => height (snd p))
          (filter (fun p => fst p / cols =? r) (assigned imgs rows cols))).

(** The corner of a cell: the margin, then the cells and spacings
    before it. *)
Definition cell_x (imgs : list image) (rows cols h_spacing margin c : Z) : Z :=
  margin + sum (map (fun j => col_width imgs rows cols j + h_spacing) (range c)).

Definition cell_y (imgs : list image) (rows cols v_spacing margin r : Z) : Z :=
  margin + sum (map (fun j => row_height imgs rows cols j + v_spacing) (range r)).

(** Where image [i] is placed: cell [(i / cols, i mod cols)], shifted
    by the alignment. *)
Definition placement (align : alignment) (imgs : list image) (rows cols
    h_spacing v_spacing margin i : Z) (img : image) : Z * Z :=
  let r := i / cols in
  let c := i mod cols in
  let x_offset := cell_x imgs rows cols h_spacing margin c in
  let y_offset := cell_y imgs rows cols v_spacing margin r in
  let y := y_offset + (row_height imgs rows cols r - height img) / 2 in
  match align with
  | align_center =>
      (x_offset + (col_width imgs rows cols c - width img) / 2, y)
  | align_left => (x_offset, y)
  | align_right => (x_offset + col_width imgs rows cols c - width img, y)
  end.

(** ** Auxiliary definitions

    The loop shape, the totals, the relations and the real-valued
    reading of doubles that the statements below are written with. *)

(** *** The cells visited by the two nested loops *)

(** The shape shared by the paste loop and the label loop. *)
Definition grid_loop {S : Type} (n rows cols h_spacing v_spacing margin : Z)
    (col_widths row_heights : list Z)
    (cell : Z -> Z -> Z -> Z -> Z -> stateful S unit) : stateful S Z :=
  sfoldM (fun y_offset r =>
    _ <~ sfoldM (fun x_offset c =>
           let idx := r * cols + c in
           (if idx <? n then cell idx r c x_offset y_offset else sret tt) ;;;
           cw <~ lift (getitem col_widths c) ;;
           sret (x_offset + cw + h_spacing))
         (range cols) margin ;;
    rh <~ lift (getitem row_heights r) ;;
    sret (y_offset + rh + v_spacing))
    (range rows) margin.

Definition offset_after (sizes : Z -> Z) (spacing margin k : Z) : Z :=
  margin + sum (map (fun j => sizes j + spacing) (range k)).

(** *** Composition *)

(** Pasting image [i] at its place, as one step. *)
Definition paste_at (align : alignment) (imgs : list image) (rows cols
    h_spacing v_spacing margin : Z) (canvas : image) (i : Z) : image :=
  match nth_error imgs (Z.to_nat i) with
  | Some img =>
      let xy := placement align imgs rows cols h_spacing v_spacing margin i img in
      Image.paste canvas img (fst xy) (snd xy) (color_mode_eqb (mode img) RGBA)
  | None => canvas
  end.

Definition total_width (imgs : list image) (rows cols h_spacing margin : Z) : Z :=
  sum (map (col_width imgs rows cols) (range cols))
  + (cols - 1) * h_spacing + 2 * margin.

Definition total_height (imgs : list image) (rows cols v_spacing margin : Z) : Z :=
  sum (map (row_height imgs rows cols) (range rows))
  + (rows - 1) * v_spacing + 2 * margin.

Definition new_canvas (bg : bg_color) (size : Z * Z) : result image :=
  match bg with
  | transparent => Image.new RGBA size transparent
  | _ => Image.new RGB size bg
  end.

(** *** Labels *)





(** *** Resampling quality *)

(** The pixel history with every resampling filter forgotten. *)
Fixpoint forget_filter (p : pixels) : pixels :=
  match p with
  | Decoded path => Decoded path
  | Converted m q => Converted m (forget_filter q)
  | Resized _ w h q => Resized NEAREST w h (forget_filter q)
  | Cropped x0 y0 x1 y1 q => Cropped x0 y0 x1 y1 (forget_filter q)
  | Filled c => Filled c
  | Pasted src w h x y mask dst =>
      Pasted (forget_filter src) w h x y mask (forget_filter dst)
  | Labelled x y label fill dst => Labelled x y label fill (forget_filter dst)
  end.

Definition same_but_filter (a b : image) : Prop :=
  width a = width b /\ height a = height b /\ mode a = mode b
  /\ forget_filter (content a) = forget_filter (content b).

Definition same_outcome (a b : result image) : Prop :=
  match a, b with
  | Ok x, Ok y => same_but_filter x y
  | Raise e, Raise e' => e = e'
  | _, _ => False
  end.

(** Two runs of code on the local variable [img] that went the same
    way: the same exception or results related by [R], and the variable
    left the same but for the filter. *)
Definition same_run {A : Type} (R : A -> A -> Prop)
    (a b : result A * image) : Prop :=
  same_but_filter (snd a) (snd b)
  /\ match fst a, fst b with
     | Ok x, Ok y => R x y
     | Raise e, Raise e' => e = e'
     | _, _ => False
     end.

(** *** The substituted image list *)

Definition converts (spacing : Z) : bool :=
  match get_spacing_in_pixels spacing "cm" with
  | Ok _ => true
  | Raise _ => false
  end.

(** The spacings in pixels, for values that convert. *)
Definition spacing_in_pixels (g : settings) : Z * Z :=
  if combo_spacing_unit_cm g then
    (try_except (get_spacing_in_pixels (spin_h_spacing g) "cm") (fun _ => 0),
     try_except (get_spacing_in_pixels (spin_v_spacing g) "cm") (fun _ => 0))
  else (spin_h_spacing g, spin_v_spacing g).

(** Composition and labelling of a processor's images under the
    window's settings. *)
Definition render (w : world) (g : settings) (proc : processor)
  : option image :=
  let '(h_spacing, v_spacing) := spacing_in_pixels g in
  add_labels (fonts w) proc
    (create_combined_image proc (spin_rows g) (spin_cols g) h_spacing
       v_spacing (combo_bg_color g) (spin_canvas_margin g) (radio_align g))
    (spin_rows g) (spin_cols g) (combo_label_format g) (combo_label_pos g)
    (combo_font g) (spin_font_size g) (combo_label_color g)
    (spin_label_margin g) h_spacing v_spacing (spin_canvas_margin g)
    (radio_align g).

(** *** Stored thumbnails *)

Definition bounded (img : image) : Prop :=
  Z.max (width img) (height img) <= max_size.

(** *** Rounding to double precision *)

Definition pow2 (e : Z) : R := powerRZ 2 e.

Definition F2R (m e : Z) : R := (IZR m * pow2 e)%R.

Definition B2R (x : spec_float) : R :=
  match x with
  | S754_finite s m e => F2R (cond_Zopp s (Zpos m)) e
  | _ => 0%R
  end.

(** A positive normal double. *)
Definition normal (x : spec_float) : Prop :=
  exists (p : positive) (e : Z),
    x = S754_finite false p e
    /\ 2 ^ 52 <= Zpos p < 2 ^ 53 /\ -1074 <= e <= 971.

Definition rel_err : R := (/ IZR (2 ^ 52))%R.

(** [ratio] is the double of [ratio_w / ratio_h]. *)
Definition double_of_ratio (ratio_w ratio_h : Z) (ratio : spec_float) : Prop :=
  normal ratio
  /\ (IZR ratio_w / IZR ratio_h * (1 - rel_err) <= B2R ratio
      <= IZR ratio_w / IZR ratio_h * (1 + rel_err))%R.

(** *** Loading *)

(** A path that [load_images] cannot store: no such file, or a file
    that does not decode. *)
Definition fails_to_load (w : world) (path : string) : Prop :=
  path_exists w path = false \/ exists e, load_one w path = Raise e.

(** *** Where the images are pasted *)

(** An image pasted on the canvas, as [pasted_on] lists it: its pixels,
    its size, its corner. *)
Definition pasted : Type := pixels * (Z * Z) * (Z * Z).

(** The image lies on the canvas, the margin left free on every side. *)
Definition inside_margins (canvas_size : Z * Z) (margin : Z) (p : pasted)
  : Prop :=
  let '(_, (w, h), (x, y)) := p in
  margin <= x /\ x + w <= fst canvas_size - margin
  /\ margin <= y /\ y + h <= snd canvas_size - margin.

(** Two images a spacing apart, side by side or one above the other. *)
Definition apart (h_spacing v_spacing : Z) (p q : pasted) : Prop :=
  let '(_, (w, h), (x, y)) := p in
  let '(_, (w', h'), (x', y')) := q in
  x + w + h_spacing <= x' \/ x' + w' + h_spacing <= x
  \/ y + h + v_spacing <= y' \/ y' + h' + v_spacing <= y.

(** *** What labelling leaves alone *)

(** A property of the object that code working in place never breaks,
    whether it ends normally or raises. *)
Definition preserves {S A : Type} (P : S -> Prop) (c : stateful S A) : Prop :=
  forall s, P s -> P (snd (c s)).


(** *** The configurations a manager can hold *)

(** The configurations a [ConfigManager] can hold: the default one and
    what the methods make of it. *)
Inductive reachable : dict -> Prop :=
| reach_default : reachable _get_default_config
| reach_update (kwargs config : dict) :
    reachable config -> reachable (update_config kwargs config)
| reach_load (fs : json_files) (file_path : string) (config : dict) :
    reachable config -> reachable (snd (load_config fs file_path config))
| reach_reset (config : dict) :
    reachable config -> reachable (reset_config config).

Definition no_KeyError {A : Type} (c : attempt A) : Prop :=
  forall key, c <> inl (KeyError key).

(** *** Images of the same size *)

Definition same_size (a b : image) : Prop := size_of a = size_of b.

Definition same_size_outcome (a b : result image) : Prop :=
  match a, b with
  | Ok x, Ok y => same_size x y
  | Raise _, Raise _ => True
  | _, _ => False
  end.

(** Two runs on images of the same size that went the same way. *)
Definition same_size_run {A : Type} (R : A -> A -> Prop)
    (a b : result A * image) : Prop :=
  same_size (snd a) (snd b)
  /\ match fst a, fst b with
     | Ok x, Ok y => R x y
     | Raise _, Raise _ => True
     | _, _ => False
     end.

(** A stored image has the size of the file it came from, as the export
    opens it. *)
Definition sized_as_source (w : world) (img : image) (path : string) : Prop :=
  exists opened,
    open_image w path = Ok opened
    /\ same_size img
         (try_except (exif_transpose w opened) (fun _ => opened)).

(** ** Sample data *)

Definition picture (name : string) (w h : Z) : image :=
  mk_image w h RGB (Decoded name).

Definition four_panels : processor :=
  mk_processor
    [picture "a.png" 400 266; picture "b.png" 400 300;
     picture "c.png" 400 400; picture "d.png" 400 171]
    ["a.png"; "b.png"; "c.png"; "d.png"].

Definition five_panels : processor :=
  mk_processor (images four_panels ++ [picture "e.png" 9000 9000])
    (image_paths four_panels ++ ["e.png"]).


(** A fixed-pitch font of the sample font library: 6 by 11 px a
    character. *)
Definition fixed_font : font :=
  mk_font "default" 11 (fun label => (0, 0, 6 * len label, 11)).

Definition no_truetype : font_library :=
  mk_font_library (fun _ _ => Raise OSError) fixed_font.

(** A thumbnail size in exact integer arithmetic: the box when the image
    fits, else the largest size of the image's proportions inside the
    box, at least one pixel each way. *)
Definition fit_in_box (size box : Z * Z) : result (Z * Z) :=
  let '(w, h) := size in
  let '(bw, bh) := box in
  if (w <? 1) || (h <? 1) || (bw <? 1) || (bh <? 1) then Raise ValueError
  else if (w <=? bw) && (h <=? bh) then Ok (w, h)
  else if h * bw <=? w * bh then Ok (Z.min w bw, Z.max 1 (h * Z.min w bw / w))
  else Ok (Z.max 1 (w * Z.min h bh / h), Z.min h bh).

Definition sample_world : world.
Proof.
  refine (mk_world
            (fun path => String.eqb path "big.png")
            (fun path =>
               if String.eqb path "big.png"
               then Ok (picture "big.png" 4000 3000)
               else Raise OSError)
            (fun _ => Raise OSError)
            (fun img => Ok img)
            fit_in_box _ no_truetype (fun _ => true)).
  intros size box size'.
  destruct size as [w h], box as [bw bh]. unfold fit_in_box.
  destruct (Z.ltb_spec w 1); [discriminate|].
  destruct (Z.ltb_spec h 1); [discriminate|].
  destruct (Z.ltb_spec bw 1); [discriminate|].
  destruct (Z.ltb_spec bh 1); [discriminate|].
  cbn [orb].
  destruct (Z.leb_spec w bw); destruct (Z.leb_spec h bh); cbn [andb];
    try (intros [= <-]; simpl; lia);
    destruct (Z.leb_spec (h * bw) (w * bh)); intros [= <-]; simpl;
    (split; [|]); try lia;
    try (apply Z.max_lub; [lia|]; apply Z.div_le_upper_bound; nia).
Defined.

Definition sample_settings : settings :=
  mk_settings 1 1 original 800 None 20 20 true white align_center 10
    parenthesized top_left "black" "Arial" 12 10 PNG 300 (400, 400).

Definition empty_window (proc : processor) : main_window :=
  mk_main_window proc None None [].

Definition loaded_window : main_window :=
  empty_window (snd (load_images sample_world new_processor ["big.png"])).

Definition two_panels : processor :=
  mk_processor [picture "a.png" 400 266; picture "b.png" 400 300]
    ["a.png"; "b.png"].

(** A disk with one folder of photographs and one without any. *)
Definition photo_files : world :=
  mk_world
    (fun path => String.eqb path "photos/big.png")
    (fun path =>
       if String.eqb path "photos/big.png"
       then Ok (picture "photos/big.png" 4000 3000)
       else Raise OSError)
    (fun _ => Raise OSError)
    (fun img => Ok img)
    fit_in_box (thumbnail_fits sample_world) no_truetype (fun _ => true).

Definition photo_disk : os_world :=
  mk_os_world photo_files
    (fun folder =>
       if String.eqb folder "photos" then Ok ["big.png"; "notes.txt"]
       else if String.eqb folder "scans" then Ok ["lost.PNG"]
       else Raise OSError)
    (fun folder file => String.append folder (String.append "/" file))
    (fun folder => folder).

Definition sample_batch_config : batch_config :=
  mk_batch_config 1 1 original 800 None 20 20 "px" white 10 align_center
    parenthesized top_left "Arial" 12 "black" 10 PNG 300.

Definition no_json_files : json_files :=
  mk_json_files (fun _ => false) (fun _ => Raise OSError) (fun _ => true).

Definition rows_as_text : json_files :=
  mk_json_files (fun _ => true)
    (fun _ => Ok (VDict [("rows", VStr "2")])) (fun _ => true).

(** A disk with one drawing small enough to be stored as it is. *)
Definition sketch_files : world :=
  mk_world
    (fun path => String.eqb path "sketch.png")
    (fun path =>
       if String.eqb path "sketch.png"
       then Ok (picture "sketch.png" 640 480)
       else Raise OSError)
    (fun _ => Raise OSError)
    (fun img => Ok img)
    fit_in_box (thumbnail_fits sample_world) no_truetype (fun _ => true).

Definition sketch_settings : settings :=
  mk_settings 1 1 longest_edge 300 None 20 20 true white align_center 10
    parenthesized top_left "black" "Arial" 12 10 PNG 300 (400, 400).

Definition sketch_window : main_window :=
  update_preview sketch_files sketch_settings
    (empty_window (snd (load_images sketch_files new_processor
                          ["sketch.png"]))).

(** * Properties *)

(** ** Ranges, lookups and loops *)

Lemma range_nonpos (n : Z) : n <= 0 -> range n = [].
Proof.
  intros H. unfold range.
  replace (Z.to_nat n) with 0%nat by lia. reflexivity.
Qed.

Lemma range_succ (n : Z) : 0 <= n -> range (n + 1) = range n ++ [n].
Proof.
  intros H. unfold range.
  replace (Z.to_nat (n + 1)) with (S (Z.to_nat n)) by lia.
  rewrite seq_S, map_app. simpl. now rewrite Z2Nat.id.
Qed.

Lemma In_range (n i : Z) : In i (range n) <-> 0 <= i < n.
Proof.
  unfold range. rewrite in_map_iff. split.
  - intros (k & <- & Hk). apply in_seq in Hk. lia.
  - intros H. exists (Z.to_nat i). split; [lia|]. apply in_seq. lia.
Qed.

Lemma range_length (n : Z) : List.length (range n) = Z.to_nat n.
Proof. unfold range. now rewrite length_map, length_seq. Qed.

Lemma nth_error_range (n : Z) (k : nat) :
  (k < Z.to_nat n)%nat -> nth_error (range n) k = Some (Z.of_nat k).
Proof.
  intros H. unfold range. rewrite nth_error_map.
  rewrite nth_error_seq.
  destruct (Nat.ltb_spec k (Z.to_nat n)); [reflexivity | lia].
Qed.

Lemma getitem_nth_error {A : Type} (l : list A) (i : Z) (a : A) :
  0 <= i -> nth_error l (Z.to_nat i) = Some a -> getitem l i = Ok a.
Proof.
  intros Hi H. unfold getitem.
  destruct (Z.ltb_spec i 0); [lia|]. now rewrite H.
Qed.

Lemma getitem_map_range {A : Type} (f : Z -> A) (n i : Z) :
  0 <= i < n -> getitem (map f (range n)) i = Ok (f i).
Proof.
  intros H. apply getitem_nth_error; [lia|].
  rewrite nth_error_map, nth_error_range by lia.
  simpl. now rewrite Z2Nat.id by lia.
Qed.

Lemma getitem_in_range {A : Type} (l : list A) (i : Z) :
  0 <= i < len l -> exists a, getitem l i = Ok a /\ nth_error l (Z.to_nat i) = Some a.
Proof.
  intros H. unfold len in H.
  destruct (nth_error l (Z.to_nat i)) as [a|] eqn:E.
  - exists a. split; [now apply getitem_nth_error|reflexivity].
  - apply nth_error_None in E. lia.
Qed.

Lemma foldM_pure {A B : Type} (f : A -> B -> result A) (g : A -> B -> A)
    (l : list B) :
  (forall a b, In b l -> f a b = Ok (g a b)) ->
  forall a, foldM f l a = Ok (fold_left g l a).
Proof.
  induction l as [|b l IH]; intros Hf a; simpl; [reflexivity|].
  rewrite Hf by (now left). simpl. apply IH.
  intros a' b' Hb. apply Hf. now right.
Qed.

Lemma fold_left_snoc_map {A B : Type} (h : B -> A) (l : list B) (acc : list A) :
  fold_left (fun acc b => acc ++ [h b]) l acc = acc ++ map h l.
Proof.
  revert acc. induction l as [|b l IH]; intros acc; simpl.
  - now rewrite app_nil_r.
  - rewrite IH, <- app_assoc. reflexivity.
Qed.

(** ** Maxima *)

Lemma max0_nonneg (l : list Z) : 0 <= max0 l.
Proof. induction l; simpl; lia. Qed.

Lemma max0_upper (l : list Z) (x : Z) : In x l -> x <= max0 l.
Proof.
  induction l as [|y l IH]; simpl; [tauto|].
  intros [->|H]; [lia|]. specialize (IH H). lia.
Qed.

Lemma max0_attained (l : list Z) : max0 l = 0 \/ In (max0 l) l.
Proof.
  induction l as [|y l IH]; simpl; [now left|].
  destruct (Z.max_spec y (max0 l)) as [[_ ->]|[_ ->]]; [|now right; left].
  destruct IH as [IH|IH]; [now left | now right; right].
Qed.

Lemma max0_incl (l1 l2 : list Z) : incl l1 l2 -> max0 l1 <= max0 l2.
Proof.
  intros H. destruct (max0_attained l1) as [E|E].
  - rewrite E. apply max0_nonneg.
  - apply max0_upper, H, E.
Qed.

Lemma max0_ext (l1 l2 : list Z) :
  (forall x, In x l1 <-> In x l2) -> max0 l1 = max0 l2.
Proof.
  intros H. apply Z.le_antisymm; apply max0_incl; intros x Hx; now apply H.
Qed.

(** A running maximum started at [a]. *)
Lemma fold_left_max (g : Z -> option Z) (l : list Z) (a : Z) :
  0 <= a ->
  fold_left (fun m i => match g i with Some x => Z.max m x | None => m end) l a
  = Z.max a (max0 (flat_map (fun i => match g i with Some x => [x] | None => [] end) l)).
Proof.
  revert a. induction l as [|i l IH]; intros a Ha; simpl.
  - lia.
  - destruct (g i) as [x|]; simpl; rewrite IH by lia; [|reflexivity].
    fold (max0 (flat_map (fun i => match g i with Some x => [x] | None => [] end) l)).
    lia.
Qed.

(** ** The measured rows and columns are those of the specification *)

Lemma nth_error_combine {A B : Type} (l1 : list A) (l2 : list B) (k : nat)
    (a : A) (b : B) :
  nth_error (combine l1 l2) k = Some (a, b) <->
  nth_error l1 k = Some a /\ nth_error l2 k = Some b.
Proof.
  revert l2 k. induction l1 as [|x l1 IH]; intros [|y l2] [|k]; simpl;
    try (split; [discriminate | intros [? ?]; discriminate]).
  - split; [intros [= -> ->]; now split | intros [[= ->] [= ->]]; reflexivity].
  - apply IH.
Qed.

Lemma In_assigned (imgs : list image) (rows cols i : Z) (img : image) :
  In (i, img) (assigned imgs rows cols) <->
  0 <= i < rows * cols /\ nth_error imgs (Z.to_nat i) = Some img.
Proof.
  unfold assigned. split.
  - intros H. apply In_nth_error in H. destruct H as [k Hk].
    apply nth_error_combine in Hk. destruct Hk as [Hr Hi].
    assert (Hlt : (k < Z.to_nat (rows * cols))%nat).
    { rewrite <- range_length. apply nth_error_Some. congruence. }
    rewrite nth_error_range in Hr by assumption. injection Hr as <-.
    rewrite Nat2Z.id. split; [lia|assumption].
  - intros [Hi Hn]. apply nth_error_In with (n := Z.to_nat i).
    apply nth_error_combine. split; [|assumption].
    rewrite nth_error_range by lia. now rewrite Z2Nat.id by lia.
Qed.

Lemma col_widths_loop_spec (imgs : list image) (rows cols : Z) :
  0 <= rows -> 0 <= cols ->
  col_widths_loop imgs rows cols
  = Ok (map (col_width imgs rows cols) (range cols)).
Proof.
  intros Hrows Hcols. unfold col_widths_loop.
  rewrite foldM_pure with (g := fun acc c => acc ++ [col_width imgs rows cols c]).
  - now rewrite fold_left_snoc_map.
  - intros acc c Hc. apply In_range in Hc.
    rewrite foldM_pure with
      (g := fun m r =>
              match (if r * cols + c <? len imgs
                     then option_map width (nth_error imgs (Z.to_nat (r * cols + c)))
                     else None) with
              | Some x => Z.max m x
              | None => m
              end).
    2:{ intros m r Hr. apply In_range in Hr.
        destruct (Z.ltb_spec (r * cols + c) (len imgs)) as [Hlt|Hge]; [|reflexivity].
        destruct (getitem_in_range imgs (r * cols + c)) as (img & -> & ->); [nia|].
        reflexivity. }
    simpl. rewrite fold_left_max by lia.
    rewrite Z.max_r by apply max0_nonneg.
    do 3 f_equal.
    unfold col_width. apply max0_ext. intros x.
    rewrite in_flat_map, in_map_iff. split.
    + intros (r & Hr & Hx). apply In_range in Hr.
      destruct (Z.ltb_spec (r * cols + c) (len imgs)) as [Hlt|Hge]; [|destruct Hx].
      destruct (nth_error imgs (Z.to_nat (r * cols + c))) as [img|] eqn:E;
        simpl in Hx; [|destruct Hx].
      destruct Hx as [<-|[]].
      exists (r * cols + c, img). split; [reflexivity|].
      apply filter_In. split.
      * apply In_assigned. split; [nia|assumption].
      * simpl. apply Z.eqb_eq.
        rewrite Z.add_comm, Z.mod_add by lia. apply Z.mod_small. lia.
    + intros ([i img] & <- & Hin). apply filter_In in Hin.
      destruct Hin as [Hin Hmod]. simpl in Hmod. apply Z.eqb_eq in Hmod.
      apply In_assigned in Hin. destruct Hin as [Hi Hn].
      exists (i / cols). 
      assert (Hpos : 0 < cols) by lia.
      assert (Hdm : i = cols * (i / cols) + i mod cols) by (apply Z.div_mod; lia).
      assert (Hq : 0 <= i / cols < rows).
      { split; [apply Z.div_pos; lia|].
        apply Z.div_lt_upper_bound; lia. }
      split; [now apply In_range|].
      replace (i / cols * cols + c) with i by lia.
      assert (Hlen : i < len imgs).
      { unfold len. assert (Z.to_nat i < List.length imgs)%nat
          by (apply nth_error_Some; congruence). lia. }
      destruct (Z.ltb_spec i (len imgs)); [|lia].
      rewrite Hn. simpl. now left.
Qed.

Lemma row_heights_loop_spec (imgs : list image) (rows cols : Z) :
  0 <= rows -> 0 <= cols ->
  row_heights_loop imgs rows cols
  = Ok (map (row_height imgs rows cols) (range rows)).
Proof.
  intros Hrows Hcols. unfold row_heights_loop.
  rewrite foldM_pure with (g := fun acc r => acc ++ [row_height imgs rows cols r]).
  - now rewrite fold_left_snoc_map.
  - intros acc r Hr. apply In_range in Hr.
    rewrite foldM_pure with
      (g := fun m c =>
              match (if r * cols + c <? len imgs
                     then option_map height (nth_error imgs (Z.to_nat (r * cols + c)))
                     else None) with
              | Some x => Z.max m x
              | None => m
              end).
    2:{ intros m c Hc. apply In_range in Hc.
        destruct (Z.ltb_spec (r * cols + c) (len imgs)) as [Hlt|Hge]; [|reflexivity].
        destruct (getitem_in_range imgs (r * cols + c)) as (img & -> & ->); [nia|].
        reflexivity. }
    simpl. rewrite fold_left_max by lia.
    rewrite Z.max_r by apply max0_nonneg.
    do 3 f_equal.
    unfold row_height. apply max0_ext. intros x.
    rewrite in_flat_map, in_map_iff. split.
    + intros (c & Hc & Hx). apply In_range in Hc.
      destruct (Z.ltb_spec (r * cols + c) (len imgs)) as [Hlt|Hge]; [|destruct Hx].
      destruct (nth_error imgs (Z.to_nat (r * cols + c))) as [img|] eqn:E;
        simpl in Hx; [|destruct Hx].
      destruct Hx as [<-|[]].
      exists (r * cols + c, img). split; [reflexivity|].
      apply filter_In. split.
      * apply In_assigned. split; [nia|assumption].
      * simpl. apply Z.eqb_eq.
        rewrite Z.div_add_l by lia. rewrite Z.div_small by lia. lia.
    + intros ([i img] & <- & Hin). apply filter_In in Hin.
      destruct Hin as [Hin Hdiv]. simpl in Hdiv. apply Z.eqb_eq in Hdiv.
      apply In_assigned in Hin. destruct Hin as [Hi Hn].
      exists (i mod cols).
      assert (Hpos : 0 < cols) by nia.
      assert (Hdm : i = cols * (i / cols) + i mod cols) by (apply Z.div_mod; lia).
      assert (Hm : 0 <= i mod cols < cols) by (apply Z.mod_pos_bound; lia).
      split; [now apply In_range|].
      replace (r * cols + i mod cols) with i by lia.
      assert (Hlen : i < len imgs).
      { unfold len. assert (Z.to_nat i < List.length imgs)%nat
          by (apply nth_error_Some; congruence). lia. }
      destruct (Z.ltb_spec i (len imgs)); [|lia].
      rewrite Hn. simpl. now left.
Qed.

(** ** The cells visited by the two nested loops *)

Lemma fold_left_add_acc (l : list Z) (a : Z) :
  fold_left Z.add l a = a + sum l.
Proof.
  unfold sum. revert a. induction l as [|x l IH]; intros a; simpl; [lia|].
  rewrite (IH (a + x)), (IH x). lia.
Qed.

Lemma sum_app (l1 l2 : list Z) : sum (l1 ++ l2) = sum l1 + sum l2.
Proof.
  unfold sum at 1. rewrite fold_left_app, fold_left_add_acc. reflexivity.
Qed.

Lemma sum_range_succ (f : Z -> Z) (n : Z) :
  0 <= n -> sum (map f (range (n + 1))) = sum (map f (range n)) + f n.
Proof.
  intros H. rewrite range_succ, map_app, sum_app by assumption.
  unfold sum. simpl. lia.
Qed.

Lemma seq_add_map (a b : nat) :
  seq a b = map (fun i => (a + i)%nat) (seq 0 b).
Proof.
  induction a as [|a IH]; simpl.
  - now rewrite map_id.
  - rewrite <- seq_shift, IH, map_map. reflexivity.
Qed.

Lemma range_add (a b : Z) :
  0 <= a -> 0 <= b -> range (a + b) = range a ++ map (Z.add a) (range b).
Proof.
  intros Ha Hb. unfold range.
  rewrite Z2Nat.inj_add, seq_app, map_app by assumption. f_equal.
  simpl. rewrite seq_add_map, !map_map.
  apply map_ext. intros i. lia.
Qed.

Lemma filter_all {A : Type} (p : A -> bool) (l : list A) :
  (forall x, In x l -> p x = true) -> filter p l = l.
Proof.
  induction l as [|x l IH]; intros H; simpl; [reflexivity|].
  rewrite H by (now left). f_equal. apply IH. intros y Hy. apply H. now right.
Qed.

Lemma filter_none {A : Type} (p : A -> bool) (l : list A) :
  (forall x, In x l -> p x = false) -> filter p l = [].
Proof.
  induction l as [|x l IH]; intros H; simpl; [reflexivity|].
  rewrite H by (now left). apply IH. intros y Hy. apply H. now right.
Qed.

Lemma filter_range (n m : Z) :
  0 <= n -> filter (fun i => i <? n) (range m) = range (Z.min n m).
Proof.
  intros Hn. destruct (Z.le_gt_cases m n) as [Hle|Hgt].
  - rewrite Z.min_r by assumption. apply filter_all.
    intros i Hi. apply In_range in Hi. apply Z.ltb_lt. lia.
  - rewrite Z.min_l by lia.
    replace m with (n + (m - n)) by lia.
    rewrite range_add, filter_app by lia.
    rewrite filter_all, filter_none.
    + apply app_nil_r.
    + intros i Hi. apply in_map_iff in Hi. destruct Hi as (j & <- & Hj).
      apply In_range in Hj. apply Z.ltb_ge. lia.
    + intros i Hi. apply In_range in Hi. apply Z.ltb_lt. lia.
Qed.

Lemma filter_flat_map {A B : Type} (p : B -> bool) (f : A -> list B)
    (l : list A) :
  filter p (flat_map f l) = flat_map (fun a => filter p (f a)) l.
Proof.
  induction l as [|a l IH]; simpl; [reflexivity|].
  now rewrite filter_app, IH.
Qed.

(** Row by row, column by column: the linear indices in order. *)
Lemma row_major_range (rows cols : Z) :
  0 <= rows -> 0 <= cols ->
  flat_map (fun r => map (fun c => r * cols + c) (range cols)) (range rows)
  = range (rows * cols).
Proof.
  intros Hrows Hcols. rewrite <- (Z2Nat.id rows) by assumption.
  induction (Z.to_nat rows) as [|k IH]; [reflexivity|].
  rewrite Nat2Z.inj_succ. unfold Z.succ.
  rewrite range_succ, flat_map_app, IH by lia. simpl.
  rewrite app_nil_r.
  replace ((Z.of_nat k + 1) * cols) with (Z.of_nat k * cols + cols) by lia.
  rewrite range_add by nia. reflexivity.
Qed.

Lemma row_major_cells (n rows cols : Z) :
  0 <= n -> 0 <= rows -> 0 <= cols ->
  flat_map (fun r => filter (fun i => i <? n)
                       (map (fun c => r * cols + c) (range cols)))
    (range rows)
  = range (Z.min n (rows * cols)).
Proof.
  intros Hn Hrows Hcols.
  rewrite <- filter_flat_map with (f := fun r => map (fun c => r * cols + c) (range cols)).
  rewrite row_major_range by assumption. now apply filter_range.
Qed.

Lemma offset_after_succ (sizes : Z -> Z) (spacing margin k : Z) :
  0 <= k ->
  offset_after sizes spacing margin (k + 1)
  = offset_after sizes spacing margin k + sizes k + spacing.
Proof.
  intros H. unfold offset_after. rewrite sum_range_succ by assumption. lia.
Qed.

Section GridLoop.

Context {S : Type}.
Variables (n rows cols h_spacing v_spacing margin : Z).
Variables (CW RH : Z -> Z).
Variable cell : Z -> Z -> Z -> Z -> Z -> stateful S unit.
Variable upd : Z -> Z -> Z -> Z -> Z -> S -> S.

Hypothesis rows_nonneg : 0 <= rows.
Hypothesis cols_nonneg : 0 <= cols.
Hypothesis n_nonneg : 0 <= n.
Hypothesis cell_updates : forall r c x y s,
  0 <= r < rows -> 0 <= c < cols -> r * cols + c < n ->
  cell (r * cols + c) r c x y s = (Ok tt, upd (r * cols + c) r c x y s).

Let X := offset_after CW h_spacing margin.
Let Y := offset_after RH v_spacing margin.

(** What the loops do to the object for the cell of index [i]. *)
Let visit (i : Z) (s : S) : S :=
  upd i (i / cols) (i mod cols) (X (i mod cols)) (Y (i / cols)) s.

Lemma grid_row (r : Z) (k : nat) :
  0 <= r < rows ->
  forall (a : nat) (s : S),
    Z.of_nat (a + k) <= cols ->
    sfoldM (fun x_offset c =>
              let idx := r * cols + c in
              (if idx <? n then cell idx r c x_offset (Y r) else sret tt) ;;;
              cw <~ lift (getitem (map CW (range cols)) c) ;;
              sret (x_offset + cw + h_spacing))
      (map Z.of_nat (seq a k)) (X (Z.of_nat a)) s
    = (Ok (X (Z.of_nat (a + k))),
       fold_left (fun s i => visit i s)
         (filter (fun i => i <? n)
            (map (fun c => r * cols + c) (map Z.of_nat (seq a k)))) s).
Proof.
  intros Hr. induction k as [|k IH]; intros a s Hk.
  - simpl. now rewrite Nat.add_0_r.
  - simpl. unfold sbind at 1. unfold sbind at 1.
    assert (Hc : 0 <= Z.of_nat a < cols) by lia.
    assert (Hdiv : (r * cols + Z.of_nat a) / cols = r).
    { rewrite Z.div_add_l by lia. rewrite Z.div_small by lia. lia. }
    assert (Hmod : (r * cols + Z.of_nat a) mod cols = Z.of_nat a).
    { rewrite Z.add_comm, Z.mod_add by lia. apply Z.mod_small. lia. }
    destruct (Z.ltb_spec (r * cols + Z.of_nat a) n) as [Hlt|Hge].
    + rewrite cell_updates by lia.
      unfold lift, sbind at 1. rewrite getitem_map_range by lia.
      unfold sret at 1.
      replace (X (Z.of_nat a) + CW (Z.of_nat a) + h_spacing)
        with (X (Z.of_nat (Datatypes.S a))).
      2:{ rewrite Nat2Z.inj_succ. unfold Z.succ, X.
          now rewrite offset_after_succ by lia. }
      rewrite IH by lia. cbn [fold_left]. unfold visit.
      rewrite Hdiv, Hmod.
      replace (a + Datatypes.S k)%nat with (Datatypes.S a + k)%nat by lia.
      reflexivity.
    + unfold sret at 1, lift, sbind at 1. rewrite getitem_map_range by lia.
      unfold sret at 1.
      replace (X (Z.of_nat a) + CW (Z.of_nat a) + h_spacing)
        with (X (Z.of_nat (Datatypes.S a))).
      2:{ rewrite Nat2Z.inj_succ. unfold Z.succ, X.
          now rewrite offset_after_succ by lia. }
      rewrite IH by lia.
      replace (a + Datatypes.S k)%nat with (Datatypes.S a + k)%nat by lia.
      reflexivity.
Qed.

Lemma grid_rows (k : nat) :
  forall (a : nat) (s : S),
    Z.of_nat (a + k) <= rows ->
    sfoldM (fun y_offset r =>
              _ <~ sfoldM (fun x_offset c =>
                     let idx := r * cols + c in
                     (if idx <? n then cell idx r c x_offset y_offset
                      else sret tt) ;;;
                     cw <~ lift (getitem (map CW (range cols)) c) ;;
                     sret (x_offset + cw + h_spacing))
                   (range cols) margin ;;
              rh <~ lift (getitem (map RH (range rows)) r) ;;
              sret (y_offset + rh + v_spacing))
      (map Z.of_nat (seq a k)) (Y (Z.of_nat a)) s
    = (Ok (Y (Z.of_nat (a + k))),
       fold_left (fun s i => visit i s)
         (flat_map (fun r => filter (fun i => i <? n)
                               (map (fun c => r * cols + c) (range cols)))
            (map Z.of_nat (seq a k))) s).
Proof.
  induction k as [|k IH]; intros a s Hk.
  - simpl. now rewrite Nat.add_0_r.
  - simpl. unfold sbind at 1. unfold sbind at 1.
    assert (Hr : 0 <= Z.of_nat a < rows) by lia.
    pose proof (grid_row (Z.of_nat a) (Z.to_nat cols) Hr 0 s) as Hrow.
    simpl in Hrow. fold (range cols) in Hrow.
    replace (X 0) with margin in Hrow by (unfold X, offset_after, sum; simpl; lia).
    rewrite Hrow by lia.
    unfold lift, sbind at 1. rewrite getitem_map_range by lia.
    unfold sret at 1.
    replace (Y (Z.of_nat a) + RH (Z.of_nat a) + v_spacing)
      with (Y (Z.of_nat (Datatypes.S a))).
    2:{ rewrite Nat2Z.inj_succ. unfold Z.succ, Y.
        now rewrite offset_after_succ by lia. }
    rewrite IH by lia. rewrite fold_left_app.
    replace (a + Datatypes.S k)%nat with (Datatypes.S a + k)%nat by lia.
    reflexivity.
Qed.

Lemma grid_loop_run (s : S) :
  grid_loop n rows cols h_spacing v_spacing margin
    (map CW (range cols)) (map RH (range rows)) cell s
  = (Ok (Y rows),
     fold_left (fun s i => visit i s) (range (Z.min n (rows * cols))) s).
Proof.
  unfold grid_loop.
  pose proof (grid_rows (Z.to_nat rows) 0 s) as H.
  simpl in H. fold (range rows) in H.
  replace (Y 0) with margin in H by (unfold Y, offset_after, sum; simpl; lia).
  rewrite H by lia.
  rewrite Z2Nat.id by assumption.
  now rewrite row_major_cells.
Qed.

End GridLoop.

(** ** Composition *)

Lemma aligned_position_in_grid (align : alignment) (img : image)
    (CW RH : Z -> Z) (rows cols r c x y : Z) :
  0 <= r < rows -> 0 <= c < cols ->
  aligned_position align img (map CW (range cols)) (map RH (range rows)) r c x y
  = Ok (match align with
        | align_center => (x + (CW c - width img) / 2, y + (RH r - height img) / 2)
        | align_left => (x, y + (RH r - height img) / 2)
        | align_right => (x + CW c - width img, y + (RH r - height img) / 2)
        end).
Proof.
  intros Hr Hc. unfold aligned_position.
  destruct align; rewrite ?getitem_map_range by assumption; reflexivity.
Qed.

Lemma paste_loop_run (imgs : list image) (rows cols h_spacing v_spacing
    margin : Z) (align : alignment) (canvas : image) :
  0 <= rows -> 0 <= cols ->
  paste_loop imgs rows cols h_spacing v_spacing margin align
    (map (col_width imgs rows cols) (range cols))
    (map (row_height imgs rows cols) (range rows)) canvas
  = (Ok (cell_y imgs rows cols v_spacing margin rows),
     fold_left (paste_at align imgs rows cols h_spacing v_spacing margin)
       (range (Z.min (len imgs) (rows * cols))) canvas).
Proof.
  intros Hrows Hcols.
  pose (upd := fun (idx r c x y : Z) (s : image) =>
    match nth_error imgs (Z.to_nat idx) with
    | Some img =>
        let xy := match align with
                  | align_center =>
                      (x + (col_width imgs rows cols c - width img) / 2,
                       y + (row_height imgs rows cols r - height img) / 2)
                  | align_left =>
                      (x, y + (row_height imgs rows cols r - height img) / 2)
                  | align_right =>
                      (x + col_width imgs rows cols c - width img,
                       y + (row_height imgs rows cols r - height img) / 2)
                  end in
        Image.paste s img (fst xy) (snd xy) (color_mode_eqb (mode img) RGBA)
    | None => s
    end).
  change (paste_loop imgs rows cols h_spacing v_spacing margin align
            (map (col_width imgs rows cols) (range cols))
            (map (row_height imgs rows cols) (range rows)))
    with (grid_loop (len imgs) rows cols h_spacing v_spacing margin
            (map (col_width imgs rows cols) (range cols))
            (map (row_height imgs rows cols) (range rows))
            (fun idx r c x_offset y_offset =>
               img <~ lift (getitem imgs idx) ;;
               xy <~ lift (aligned_position align img
                             (map (col_width imgs rows cols) (range cols))
                             (map (row_height imgs rows cols) (range rows))
                             r c x_offset y_offset) ;;
               modify (fun combined =>
                 Image.paste combined img (fst xy) (snd xy)
                   (color_mode_eqb (mode img) RGBA)))).
  rewrite grid_loop_run with (upd := upd); try assumption.
  - reflexivity.
  - unfold len. lia.
  - intros r c x y s Hr Hc Hlt.
    destruct (getitem_in_range imgs (r * cols + c)) as (img & Hg & Hn); [nia|].
    unfold sbind, lift, modify, upd. rewrite Hg, Hn.
    rewrite aligned_position_in_grid by assumption.
    destruct align; reflexivity.
Qed.

(** The body of [create_combined_image] with its loops resolved. *)
Lemma create_combined_image_body_run (self : processor) (rows cols h_spacing
    v_spacing : Z) (bg : bg_color) (margin : Z) (align : alignment) :
  0 <= rows -> 0 <= cols ->
  create_combined_image_body self rows cols h_spacing v_spacing bg margin align
  = if is_empty (images self) then Ok None
    else
      size <- limit_canvas (total_width (images self) rows cols h_spacing margin)
                (total_height (images self) rows cols v_spacing margin) ;;
      combined <- new_canvas bg size ;;
      Ok (Some (fold_left
                  (paste_at align (images self) rows cols h_spacing v_spacing
                     margin)
                  (range (Z.min (len (images self)) (rows * cols))) combined)).
Proof.
  intros Hrows Hcols. unfold create_combined_image_body.
  destruct (is_empty (images self)); [reflexivity|].
  rewrite row_heights_loop_spec, col_widths_loop_spec by assumption.
  cbn [bind]. fold (total_width (images self) rows cols h_spacing margin).
  fold (total_height (images self) rows cols v_spacing margin).
  destruct (limit_canvas _ _) as [size|e]; [|reflexivity].
  cbn [bind]. fold (new_canvas bg size).
  destruct (new_canvas bg size) as [combined|e]; [|reflexivity].
  cbn [bind]. now rewrite paste_loop_run by assumption.
Qed.

Lemma sum_nonneg (l : list Z) : (forall x, In x l -> 0 <= x) -> 0 <= sum l.
Proof.
  induction l as [|x l IH]; intros H.
  - unfold sum. simpl. lia.
  - change (x :: l) with ([x] ++ l). rewrite sum_app.
    assert (0 <= x) by (apply H; now left).
    assert (0 <= sum l) by (apply IH; intros y Hy; apply H; now right).
    unfold sum at 1. simpl. lia.
Qed.

Lemma sum_col_widths_nonneg (imgs : list image) (rows cols : Z) :
  0 <= sum (map (col_width imgs rows cols) (range cols)).
Proof.
  apply sum_nonneg. intros x Hx. apply in_map_iff in Hx.
  destruct Hx as (c & <- & _). apply max0_nonneg.
Qed.

Lemma sum_row_heights_nonneg (imgs : list image) (rows cols : Z) :
  0 <= sum (map (row_height imgs rows cols) (range rows)).
Proof.
  apply sum_nonneg. intros x Hx. apply in_map_iff in Hx.
  destruct Hx as (c & <- & _). apply max0_nonneg.
Qed.

Lemma paste_all_size (align : alignment) (imgs : list image) (rows cols
    h_spacing v_spacing margin : Z) (l : list Z) (canvas : image) :
  size_of (fold_left (paste_at align imgs rows cols h_spacing v_spacing margin)
             l canvas) = size_of canvas.
Proof.
  revert canvas. induction l as [|i l IH]; intros canvas; simpl; [reflexivity|].
  rewrite IH. unfold paste_at. now destruct (nth_error imgs (Z.to_nat i)).
Qed.

Lemma new_canvas_size (bg : bg_color) (w h : Z) :
  0 <= w -> 0 <= h ->
  exists canvas, new_canvas bg (w, h) = Ok canvas /\ size_of canvas = (w, h).
Proof.
  intros Hw Hh. unfold new_canvas, Image.new.
  destruct (Z.ltb_spec w 0); [lia|]. destruct (Z.ltb_spec h 0); [lia|].
  destruct bg; simpl; eexists; split; reflexivity.
Qed.

Lemma limit_canvas_within (w h : Z) :
  w <= max_canvas_size -> h <= max_canvas_size -> limit_canvas w h = Ok (w, h).
Proof.
  intros Hw Hh. unfold limit_canvas.
  destruct (Z.gtb_spec w max_canvas_size); [lia|].
  destruct (Z.gtb_spec h max_canvas_size); [lia|]. reflexivity.
Qed.

(** Within the ceiling nothing can fail: a canvas of the planned size
    comes back. *)
Lemma create_combined_image_within (self : processor) (rows cols h_spacing
    v_spacing : Z) (bg : bg_color) (margin : Z) (align : alignment) :
  images self <> [] ->
  1 <= rows -> 1 <= cols ->
  0 <= h_spacing -> 0 <= v_spacing -> 0 <= margin ->
  total_width (images self) rows cols h_spacing margin <= max_canvas_size ->
  total_height (images self) rows cols v_spacing margin <= max_canvas_size ->
  exists canvas,
    create_combined_image self rows cols h_spacing v_spacing bg margin align
    = Some canvas
    /\ size_of canvas
       = (total_width (images self) rows cols h_spacing margin,
          total_height (images self) rows cols v_spacing margin).
Proof.
  intros Hne Hrows Hcols Hh Hv Hm HW HH.
  unfold create_combined_image.
  rewrite create_combined_image_body_run by lia.
  destruct (images self) as [|img0 imgs] eqn:Eimgs; [congruence|].
  cbn [is_empty].
  rewrite limit_canvas_within by assumption.
  cbn [bind].
  pose proof (sum_col_widths_nonneg (img0 :: imgs) rows cols) as HsW.
  pose proof (sum_row_heights_nonneg (img0 :: imgs) rows cols) as HsH.
  destruct (new_canvas_size bg
              (total_width (img0 :: imgs) rows cols h_spacing margin)
              (total_height (img0 :: imgs) rows cols v_spacing margin))
    as (canvas & -> & Hsize);
    [unfold total_width; nia | unfold total_height; nia |].
  cbn [bind try_except]. eexists. split; [reflexivity|].
  now rewrite paste_all_size.
Qed.

(** ** Excess images *)

Lemma assigned_firstn (imgs : list image) (rows cols : Z) :
  assigned (firstn (Z.to_nat (rows * cols)) imgs) rows cols
  = assigned imgs rows cols.
Proof.
  unfold assigned.
  rewrite (combine_firstn_l (range (rows * cols)) imgs), range_length.
  reflexivity.
Qed.

Lemma assigned_nth_error (imgs : list image) (rows cols : Z) (k : nat) :
  nth_error (assigned imgs rows cols) k
  = if (Z.of_nat k <? Z.min (len imgs) (rows * cols))
    then option_map (fun img => (Z.of_nat k, img)) (nth_error imgs k)
    else None.
Proof.
  unfold assigned.
  destruct (Z.ltb_spec (Z.of_nat k) (Z.min (len imgs) (rows * cols))) as [Hlt|Hge].
  - unfold len in Hlt.
    destruct (nth_error imgs k) as [img|] eqn:E;
      [|apply nth_error_None in E; lia].
    simpl. apply nth_error_combine. split; [|assumption].
    apply nth_error_range. lia.
  - apply nth_error_None. rewrite length_combine, range_length.
    unfold len in Hge. lia.
Qed.

Lemma flat_map_lookup {B : Type} (g : Z -> image -> B) (imgs : list image)
    (d : image) (l : list Z) :
  (forall i, In i l -> 0 <= i < len imgs) ->
  flat_map (fun i => match nth_error imgs (Z.to_nat i) with
                     | Some img => [g i img]
                     | None => []
                     end) l
  = map (fun i => g i (nth (Z.to_nat i) imgs d)) l.
Proof.
  induction l as [|i l IH]; intros H; simpl; [reflexivity|].
  rewrite IH by (intros j Hj; apply H; now right).
  assert (Hi : 0 <= i < len imgs) by (apply H; now left).
  unfold len in Hi. rewrite (nth_error_nth' imgs d) by lia. reflexivity.
Qed.

Lemma assigned_as_range {B : Type} (g : Z -> image -> B) (imgs : list image)
    (rows cols : Z) :
  map (fun p => g (fst p) (snd p)) (assigned imgs rows cols)
  = flat_map (fun i => match nth_error imgs (Z.to_nat i) with
                       | Some img => [g i img]
                       | None => []
                       end)
      (range (Z.min (len imgs) (rows * cols))).
Proof.
  destruct imgs as [|d imgs'] eqn:Eimgs.
  { unfold assigned. rewrite combine_nil.
    rewrite range_nonpos by (unfold len; simpl; lia). reflexivity. }
  rewrite <- Eimgs. clear Eimgs imgs'.
  rewrite flat_map_lookup with (d := d)
    by (intros i Hi; apply In_range in Hi; lia).
  apply nth_error_ext. intros k.
  rewrite !nth_error_map, assigned_nth_error.
  destruct (Z.ltb_spec (Z.of_nat k) (Z.min (len imgs) (rows * cols))) as [Hlt|Hge].
  - rewrite nth_error_range by lia.
    unfold len in Hlt.
    rewrite (nth_error_nth' imgs d) by lia.
    simpl. now rewrite Nat2Z.id.
  - simpl. symmetry.
    assert (H : nth_error (range (Z.min (len imgs) (rows * cols))) k = None)
      by (apply nth_error_None; rewrite range_length; lia).
    now rewrite H.
Qed.

Lemma pasted_on_paste_all (align : alignment) (imgs : list image) (rows cols
    h_spacing v_spacing margin : Z) (l : list Z) (canvas : image) :
  pasted_on (content (fold_left
                        (paste_at align imgs rows cols h_spacing v_spacing margin)
                        l canvas))
  = pasted_on (content canvas)
    ++ flat_map (fun i => match nth_error imgs (Z.to_nat i) with
                          | Some img =>
                              [(content img, size_of img,
                                placement align imgs rows cols h_spacing
                                  v_spacing margin i img)]
                          | None => []
                          end) l.
Proof.
  revert canvas. induction l as [|i l IH]; intros canvas; simpl.
  - now rewrite app_nil_r.
  - rewrite IH. unfold paste_at at 1.
    destruct (nth_error imgs (Z.to_nat i)) as [img|]; [|reflexivity].
    simpl. rewrite <- app_assoc. simpl.
    now destruct (placement align imgs rows cols h_spacing v_spacing margin i img).
Qed.

Lemma new_canvas_blank (bg : bg_color) (size : Z * Z) (canvas : image) :
  new_canvas bg size = Ok canvas -> pasted_on (content canvas) = [].
Proof.
  unfold new_canvas, Image.new. destruct size as [w h].
  destruct bg; destruct ((w <? 0) || (h <? 0)); try discriminate;
    intros [= <-]; reflexivity.
Qed.

Lemma fold_left_ext_in {A B : Type} (f g : A -> B -> A) (l : list B) :
  (forall a b, In b l -> f a b = g a b) ->
  forall a, fold_left f l a = fold_left g l a.
Proof.
  induction l as [|b l IH]; intros H a; simpl; [reflexivity|].
  rewrite H by (now left). apply IH. intros a' b' Hb. apply H. now right.
Qed.

Lemma map_fst_assigned (imgs : list image) (rows cols : Z) :
  map fst (assigned imgs rows cols) = range (Z.min (len imgs) (rows * cols)).
Proof.
  apply nth_error_ext. intros k.
  rewrite nth_error_map, assigned_nth_error.
  destruct (Z.ltb_spec (Z.of_nat k) (Z.min (len imgs) (rows * cols))) as [Hlt|Hge].
  - rewrite nth_error_range by lia. unfold len in Hlt.
    destruct (nth_error imgs k) eqn:E; [reflexivity|].
    apply nth_error_None in E. lia.
  - symmetry. apply nth_error_None. rewrite range_length. lia.
Qed.

Lemma map_snd_assigned (imgs : list image) (rows cols : Z) :
  map snd (assigned imgs rows cols) = firstn (Z.to_nat (rows * cols)) imgs.
Proof.
  apply nth_error_ext. intros k.
  rewrite nth_error_map, assigned_nth_error, nth_error_firstn.
  destruct (Z.ltb_spec (Z.of_nat k) (Z.min (len imgs) (rows * cols))) as [Hlt|Hge].
  - destruct (Nat.ltb_spec k (Z.to_nat (rows * cols))); [|lia].
    now destruct (nth_error imgs k).
  - destruct (Nat.ltb_spec k (Z.to_nat (rows * cols))); [|reflexivity].
    symmetry. apply nth_error_None. unfold len in Hge. lia.
Qed.

(** The outcome of [create_combined_image] is the outcome on the first
    [rows * cols] images. *)
Lemma create_combined_image_firstn (self : processor) (rows cols h_spacing
    v_spacing : Z) (bg : bg_color) (margin : Z) (align : alignment) :
  1 <= rows -> 1 <= cols ->
  create_combined_image self rows cols h_spacing v_spacing bg margin align
  = create_combined_image
      (mk_processor (firstn (Z.to_nat (rows * cols)) (images self))
         (image_paths self))
      rows cols h_spacing v_spacing bg margin align.
Proof.
  intros Hrows Hcols. unfold create_combined_image.
  rewrite !create_combined_image_body_run by lia.
  cbn [images].
  set (imgs := images self).
  set (kept := firstn (Z.to_nat (rows * cols)) imgs).
  assert (HN : (0 < Z.to_nat (rows * cols))%nat) by nia.
  assert (Hempty : is_empty kept = is_empty imgs).
  { unfold kept. destruct imgs; [now rewrite firstn_nil|].
    destruct (Z.to_nat (rows * cols)); [lia|reflexivity]. }
  rewrite Hempty. destruct (is_empty imgs); [reflexivity|].
  assert (Ha : assigned kept rows cols = assigned imgs rows cols)
    by apply assigned_firstn.
  unfold total_width, total_height, col_width, row_height. rewrite Ha.
  destruct (limit_canvas _ _) as [size|e]; [|reflexivity].
  cbn [bind]. destruct (new_canvas bg size) as [combined|e]; [|reflexivity].
  cbn [bind try_except].
  replace (Z.min (len kept) (rows * cols)) with (Z.min (len imgs) (rows * cols)).
  2:{ unfold kept, len. rewrite length_firstn. lia. }
  apply f_equal.
  apply fold_left_ext_in. intros canvas i Hi. apply In_range in Hi.
  unfold paste_at, placement, cell_x, cell_y, col_width, row_height.
  rewrite Ha. unfold kept. rewrite nth_error_firstn.
  destruct (Nat.ltb_spec (Z.to_nat i) (Z.to_nat (rows * cols))); [|lia].
  reflexivity.
Qed.

(** What is pasted on a returned canvas. *)
Lemma create_combined_image_pasted (self : processor) (rows cols h_spacing
    v_spacing : Z) (bg : bg_color) (margin : Z) (align : alignment)
    (canvas : image) :
  0 <= rows -> 0 <= cols ->
  create_combined_image self rows cols h_spacing v_spacing bg margin align
  = Some canvas ->
  pasted_on (content canvas)
  = map (fun p => (content (snd p), size_of (snd p),
                   placement align (images self) rows cols h_spacing v_spacing
                     margin (fst p) (snd p)))
      (assigned (images self) rows cols).
Proof.
  intros Hrows Hcols. unfold create_combined_image.
  rewrite create_combined_image_body_run by lia.
  destruct (is_empty (images self)); [discriminate|].
  destruct (limit_canvas _ _) as [size|e]; [|discriminate].
  cbn [bind]. destruct (new_canvas bg size) as [combined|e] eqn:En; [|discriminate].
  cbn [bind try_except]. intros [= <-].
  rewrite pasted_on_paste_all, (new_canvas_blank _ _ _ En). simpl.
  symmetry.
  apply (assigned_as_range
           (fun i img => (content img, size_of img,
                          placement align (images self) rows cols h_spacing
                            v_spacing margin i img))).
Qed.

(** C1. For every image list, [rows >= 1], [cols >= 1], non-negative
    spacings and margin, and unscaled totals within the 16384 px
    ceiling, the canvas returned by [create_combined_image] has width
    [margin*2 + (sum of the column widths) + (cols-1)*h_spacing] and
    height [margin*2 + (sum of the row heights) + (rows-1)*v_spacing];
    the width of column [c] is the largest width among the images
    assigned row-major to that column (0 for an empty column), the
    height of row [r] the largest height among the images of that row.
    A canvas is returned whenever the list is not empty. *)
Theorem canvas_size_invariant (self : processor) (rows cols h_spacing
    v_spacing : Z) (bg : bg_color) (margin : Z) (align : alignment) :
  1 <= rows -> 1 <= cols ->
  0 <= h_spacing -> 0 <= v_spacing -> 0 <= margin ->
  let W := margin * 2 + sum (map (col_width (images self) rows cols) (range cols))
           + (cols - 1) * h_spacing in
  let H := margin * 2 + sum (map (row_height (images self) rows cols) (range rows))
           + (rows - 1) * v_spacing in
  W <= 16384 -> H <= 16384 ->
  (forall canvas,
     create_combined_image self rows cols h_spacing v_spacing bg margin align
     = Some canvas ->
     width canvas = W /\ height canvas = H)
  /\ (images self <> [] ->
      exists canvas,
        create_combined_image self rows cols h_spacing v_spacing bg margin align
        = Some canvas).
Proof.
  intros Hrows Hcols Hh Hv Hm W H HW HH.
  assert (Hwithin : images self <> [] ->
            exists canvas,
              create_combined_image self rows cols h_spacing v_spacing bg
                margin align = Some canvas
              /\ width canvas = W /\ height canvas = H).
  { intros Hne.
    destruct (create_combined_image_within self rows cols h_spacing v_spacing
                bg margin align) as (canvas & Hc & Hsize); try assumption.
    - unfold total_width, max_canvas_size. fold W. unfold W in *. lia.
    - unfold total_height, max_canvas_size. unfold H in *. lia.
    - exists canvas. split; [assumption|].
      pose proof (f_equal fst Hsize) as Hwidth.
      pose proof (f_equal snd Hsize) as Hheight.
      cbn [fst snd size_of] in Hwidth, Hheight.
      unfold total_width in Hwidth. unfold total_height in Hheight.
      unfold W, H. split; lia. }
  split.
  - intros canvas Hc.
    assert (Hne : images self <> []).
    { intros E.
      unfold create_combined_image, create_combined_image_body in Hc.
      rewrite E in Hc. discriminate. }
    destruct (Hwithin Hne) as (canvas' & Hc' & Hsize).
    rewrite Hc in Hc'. injection Hc' as <-. exact Hsize.
  - intros Hne. destruct (Hwithin Hne) as (canvas & Hc & _).
    now exists canvas.
Qed.

(** C7. With more images than cells ([rows * cols < len images],
    [rows >= 1], [cols >= 1]) [create_combined_image] behaves as on the
    first [rows * cols] images alone: same outcome, same column widths
    and row heights.  The images assigned to cells are exactly the first
    [rows * cols], image [i] in row [i / cols] and column [i mod cols];
    these, at those cells, are what a returned canvas has pasted on it;
    and within the ceiling a canvas is returned, whatever the excess. *)
Theorem excess_images_dropped (self : processor) (rows cols h_spacing
    v_spacing : Z) (bg : bg_color) (margin : Z) (align : alignment) :
  1 <= rows -> 1 <= cols -> rows * cols < len (images self) ->
  let kept := firstn (Z.to_nat (rows * cols)) (images self) in
  create_combined_image self rows cols h_spacing v_spacing bg margin align
  = create_combined_image (mk_processor kept (image_paths self))
      rows cols h_spacing v_spacing bg margin align
  /\ map snd (assigned (images self) rows cols) = kept
  /\ map fst (assigned (images self) rows cols) = range (rows * cols)
  /\ (forall c, col_width (images self) rows cols c = col_width kept rows cols c)
  /\ (forall r, row_height (images self) rows cols r = row_height kept rows cols r)
  /\ (forall canvas,
        create_combined_image self rows cols h_spacing v_spacing bg margin align
        = Some canvas ->
        pasted_on (content canvas)
        = map (fun p => (content (snd p), size_of (snd p),
                         placement align (images self) rows cols h_spacing
                           v_spacing margin (fst p) (snd p)))
            (assigned (images self) rows cols))
  /\ (0 <= h_spacing -> 0 <= v_spacing -> 0 <= margin ->
      total_width (images self) rows cols h_spacing margin <= 16384 ->
      total_height (images self) rows cols v_spacing margin <= 16384 ->
      exists canvas,
        create_combined_image self rows cols h_spacing v_spacing bg margin align
        = Some canvas).
Proof.
  intros Hrows Hcols Hlen kept.
  split; [now apply create_combined_image_firstn|].
  split; [apply map_snd_assigned|].
  split; [rewrite map_fst_assigned; f_equal; lia|].
  split; [intros c; unfold col_width, kept; now rewrite assigned_firstn|].
  split; [intros r; unfold row_height, kept; now rewrite assigned_firstn|].
  split; [intros canvas; apply create_combined_image_pasted; lia|].
  intros Hh Hv Hm HW HH.
  destruct (create_combined_image_within self rows cols h_spacing v_spacing bg
              margin align) as (canvas & Hc & _); try assumption.
  - intros E. rewrite E in Hlen. unfold len in Hlen. simpl in Hlen. nia.
  - now exists canvas.
Qed.

(** ** Labels *)







(** ** Resampling quality *)

Lemma same_but_filter_refl (a : image) : same_but_filter a a.
Proof. repeat split. Qed.

Lemma resize_same_outcome (a b : image) (size : Z * Z) (f g : resampling) :
  same_but_filter a b ->
  same_outcome (Image.resize a size f) (Image.resize b size g).
Proof.
  intros (Hw & Hh & Hm & Hc). unfold Image.resize. destruct size as [w h].
  rewrite Hw, Hh.
  destruct ((w =? width b) && (h =? height b)); [repeat split; assumption|].
  destruct ((w <? 1) || (h <? 1)); [reflexivity|].
  repeat split; simpl; congruence.
Qed.

Lemma crop_same_outcome (a b : image) (box : Z * Z * Z * Z) :
  same_but_filter a b ->
  same_outcome (Image.crop a box) (Image.crop b box).
Proof.
  intros (Hw & Hh & Hm & Hc). unfold Image.crop.
  destruct box as [[[x0 y0] x1] y1].
  destruct ((x1 <? x0) || (y1 <? y0)); [reflexivity|].
  repeat split; simpl; congruence.
Qed.

Lemma sbind_same_run {A B : Type} (R : A -> A -> Prop) (R' : B -> B -> Prop)
    (c c' : stateful image A) (k k' : A -> stateful image B) (s s' : image) :
  same_run R (c s) (c' s') ->
  (forall x y t t', R x y -> same_but_filter t t' ->
     same_run R' (k x t) (k' y t')) ->
  same_run R' (sbind c k s) (sbind c' k' s').
Proof.
  unfold same_run, sbind. intros [Hs Hr] Hk.
  destruct (c s) as [[x|e] t], (c' s') as [[y|e'] t']; cbn [fst snd] in *;
    try contradiction.
  - now apply Hk.
  - now split.
Qed.

Lemma lift_same_run {A : Type} (c : result A) (s s' : image) :
  same_but_filter s s' -> same_run eq (lift c s) (lift c s').
Proof.
  intros H. split; [exact H|]. unfold lift. cbn [fst]. now destruct c.
Qed.

Lemma assign_same_run (f g : image -> result image) (s s' : image) :
  same_but_filter s s' -> same_outcome (f s) (g s') ->
  same_run (fun _ _ => True) (assign f s) (assign g s').
Proof.
  intros Hs H. unfold assign, same_run.
  destruct (f s), (g s'); cbn in *; try contradiction; auto.
Qed.

Lemma reads_same_run (f g : image -> result image) (s s' : image) :
  same_but_filter s s' -> same_outcome (f s) (g s') ->
  same_run same_but_filter (reads f s) (reads g s').
Proof.
  intros Hs H. unfold reads, same_run. cbn [fst snd]. split; [exact Hs|].
  destruct (f s), (g s'); cbn in *; try contradiction; auto.
Qed.

Lemma gets_same_run (s s' : image) :
  same_but_filter s s' ->
  same_run same_but_filter (gets (fun img => img) s) (gets (fun img => img) s').
Proof. intros H. now split. Qed.

Lemma resize_image_body_same_run (m : resize_mode) (size : Z)
    (aspect_ratio : option (Z * Z)) (fast fast' : bool) (img img' : image) :
  same_but_filter img img' ->
  same_run same_but_filter
    (resize_image_body m size aspect_ratio fast img)
    (resize_image_body m size aspect_ratio fast' img').
Proof.
  intros Himg. unfold resize_image_body.
  destruct (is_original m); [now apply gets_same_run|].
  destruct aspect_ratio as [[ratio_w ratio_h]|].
  - eapply sbind_same_run; [apply lift_same_run; exact Himg|].
    intros target_ratio ? t t' <- Ht.
    apply sbind_same_run with (R := eq).
    { pose proof Ht as (Hw & Hh & _). unfold reads, same_run. cbn [fst snd].
      rewrite Hw, Hh. split; [exact Ht|].
      now destruct (PyFloat.int_truediv (width t') (height t')). }
    intros current_ratio ? u u' <- Hu.
    eapply sbind_same_run; [apply lift_same_run; exact Hu|].
    intros new_size ? v v' <- Hv.
    eapply sbind_same_run;
      [apply assign_same_run; [exact Hv | now apply resize_same_outcome]|].
    intros _ _ x y _ Hxy.
    apply sbind_same_run with (R := fun _ _ => True);
      [|intros; now apply gets_same_run].
    destruct (PyFloat.ne current_ratio target_ratio);
      [|split; [exact Hxy | exact I]].
    pose proof Hxy as (Hw & Hh & _).
    destruct (PyFloat.gt current_ratio target_ratio).
    + apply assign_same_run; [exact Hxy|]. rewrite Hw, Hh.
      destruct (PyFloat.int_mul (height y) target_ratio) as [q|e];
        [|reflexivity].
      cbn [bind]. destruct (PyFloat.to_int q) as [crop_w|e]; [|reflexivity].
      cbn [bind]. now apply crop_same_outcome.
    + apply assign_same_run; [exact Hxy|]. rewrite Hw, Hh.
      destruct (PyFloat.int_div (width y) target_ratio) as [q|e];
        [|reflexivity].
      cbn [bind]. destruct (PyFloat.to_int q) as [crop_h|e]; [|reflexivity].
      cbn [bind]. now apply crop_same_outcome.
  - pose proof Himg as (Hw & Hh & _).
    destruct m; try (now apply gets_same_run).
    + apply reads_same_run; [exact Himg|]. rewrite Hw, Hh.
      repeat match goal with
             | |- same_outcome (bind ?c _) (bind ?c _) =>
                 destruct c; [cbn [bind]|reflexivity]
             end.
      now apply resize_same_outcome.
    + apply reads_same_run; [exact Himg|]. rewrite Hw, Hh.
      repeat match goal with
             | |- same_outcome (bind ?c _) (bind ?c _) =>
                 destruct c; [cbn [bind]|reflexivity]
             end.
      now apply resize_same_outcome.
    + apply reads_same_run; [exact Himg|]. rewrite Hw, Hh.
      repeat match goal with
             | |- same_outcome (bind ?c _) (bind ?c _) =>
                 destruct c; [cbn [bind]|reflexivity]
             end.
      now apply resize_same_outcome.
    + eapply sbind_same_run.
      * apply assign_same_run; [exact Himg|]. rewrite Hw, Hh.
        now apply crop_same_outcome.
      * intros _ _ x y _ Hxy.
        apply reads_same_run; [exact Hxy | now apply resize_same_outcome].
Qed.

(** C8. For every image, resize mode, target size and aspect-ratio
    setting, [resize_image] with [fast=True] and with [fast=False]
    return images of the same width and height (and mode); they differ
    at most in the resampling filter their pixels went through. *)
Theorem fast_resize_same_dimensions (img : image) (m : resize_mode)
    (size : Z) (aspect_ratio : option (Z * Z)) :
  let quick := resize_image img m size aspect_ratio true in
  let fine := resize_image img m size aspect_ratio false in
  width quick = width fine /\ height quick = height fine
  /\ mode quick = mode fine
  /\ forget_filter (content quick) = forget_filter (content fine).
Proof.
  intros quick fine. unfold quick, fine, resize_image.
  destruct (resize_image_body_same_run m size aspect_ratio true false img img
              (same_but_filter_refl img)) as [Hs Hr].
  destruct (resize_image_body m size aspect_ratio true img) as [[x|e] t],
           (resize_image_body m size aspect_ratio false img) as [[y|e'] t'];
    cbn [fst snd] in *; try contradiction; assumption.
Qed.

(** ** The substituted image list *)

Lemma spin_spacing_converts (spacing : Z) :
  0 <= spacing <= 200 ->
  exists pixels, get_spacing_in_pixels spacing "cm" = Ok pixels.
Proof.
  intros H.
  assert (Hall : forallb converts (range 201) = true) by (vm_compute; reflexivity).
  rewrite forallb_forall in Hall.
  specialize (Hall spacing). unfold converts in Hall.
  destruct (get_spacing_in_pixels spacing "cm") as [pixels|e].
  - now exists pixels.
  - discriminate Hall. apply In_range. lia.
Qed.

Lemma set_images_restore (self : main_window) (imgs : list image) :
  set_images (images (image_processor self)) (set_images imgs self) = self.
Proof. destruct self as [[imgs0 paths] preview pixmap files]. reflexivity. Qed.

(** Between the substitution and the restoration nothing raises: the
    spacings convert, composition and labelling catch their own
    exceptions. *)
Lemma compose_substituted_restores (w : world) (g : settings)
    (resized_images : list image) (self : main_window) :
  in_widget_ranges g = true ->
  compose_substituted w g resized_images self
  = (Ok (render w g (mk_processor resized_images
                       (image_paths (image_processor self)))),
     self).
Proof.
  intros Hg. unfold in_widget_ranges, between in Hg.
  repeat (apply andb_prop in Hg; destruct Hg as [Hg ?]).
  assert (Hh : 0 <= spin_h_spacing g <= 200) by lia.
  assert (Hv : 0 <= spin_v_spacing g <= 200) by lia.
  unfold compose_substituted, render, spacing_in_pixels.
  unfold sbind at 1, gets at 1. unfold sbind at 1, modify at 1.
  unfold sbind at 1, lift at 1.
  destruct (combo_spacing_unit_cm g).
  - destruct (spin_spacing_converts _ Hh) as (h & ->).
    destruct (spin_spacing_converts _ Hv) as (v & ->).
    cbn [bind try_except]. unfold sbind, gets, modify, sret.
    now rewrite set_images_restore.
  - unfold sbind, gets, modify, sret.
    now rewrite set_images_restore.
Qed.

Lemma set_current_preview_processor (p : option image) (self : main_window) :
  image_processor (set_current_preview p self) = image_processor self.
Proof. reflexivity. Qed.


(** ** Stored thumbnails *)

Lemma load_one_bounded (w : world) (path : string) (img : image) :
  load_one w path = Ok img -> bounded img.
Proof.
  unfold load_one. intros H.
  destruct (if ext_is_eps path then _ else _) as [decoded|e];
    [|discriminate].
  cbn [bind] in H.
  destruct (Z.gtb_spec (Z.max (width decoded) (height decoded)) max_size)
    as [Hbig|Hsmall].
  - unfold thumbnail in H.
    destruct (thumbnail_size w (size_of decoded) (max_size, max_size))
      as [[tw th]|e] eqn:Et; [|discriminate].
    cbn [bind] in H. injection H as <-.
    apply thumbnail_fits in Et. unfold bounded. simpl in *. lia.
  - injection H as <-. exact Hsmall.
Qed.

Lemma load_images_bounded (w : world) (paths : list string) :
  forall self,
    Forall bounded (images self) ->
    Forall bounded (images (snd (load_images w self paths))).
Proof.
  induction paths as [|path rest IH]; intros self H; simpl; [assumption|].
  destruct (mem path (image_paths self)); [now apply IH|].
  destruct (negb (path_exists w path)); [now apply IH|].
  destruct (load_one w path) as [img|e] eqn:E; [|now apply IH].
  apply IH. simpl. apply Forall_app. split; [assumption|].
  constructor; [|constructor]. now apply load_one_bounded in E.
Qed.

Lemma update_preview_current (w : world) (g : settings) (win : main_window) :
  in_widget_ranges g = true ->
  images (image_processor win) <> [] ->
  current_preview (update_preview w g win)
  = render w g
      (mk_processor
         (map (fun img => resize_image img (combo_resize g) (spin_size g)
                            (combo_aspect g) true)
            (images (image_processor win)))
         (image_paths (image_processor win))).
Proof.
  intros Hg Hne. unfold update_preview.
  destruct (images (image_processor win)) as [|img0 imgs] eqn:E; [congruence|].
  cbn [is_empty]. unfold sbind at 1, gets at 1. unfold sbind at 1.
  rewrite compose_substituted_restores by assumption.
  unfold sbind, modify, lift. rewrite E.
  destruct (show_preview g _); reflexivity.
Qed.


(** ** Degenerate sources *)







(** ** Rounding to double precision *)

Example truediv_4_3 :
  PyFloat.int_truediv 4 3 = Ok (S754_finite false 6004799503160661 (-52)).
Proof. vm_compute. reflexivity. Qed.

Lemma Zdigits2_bounds (p : positive) :
  2 ^ (Zdigits2 (Zpos p) - 1) <= Zpos p < 2 ^ Zdigits2 (Zpos p).
Proof.
  unfold Zdigits2. induction p as [p IH|p IH|]; cbn [digits2_pos].
  - rewrite Pos2Z.inj_succ. unfold Z.succ.
    replace (Z.pos (digits2_pos p) + 1 - 1) with (Z.pos (digits2_pos p) - 1 + 1) by lia.
    rewrite !Z.pow_add_r by lia. change (2 ^ 1) with 2. rewrite (Pos2Z.inj_xI p).
    revert IH. generalize (2 ^ (Z.pos (digits2_pos p) - 1)), (2 ^ Z.pos (digits2_pos p)). lia.
  - rewrite Pos2Z.inj_succ. unfold Z.succ.
    replace (Z.pos (digits2_pos p) + 1 - 1) with (Z.pos (digits2_pos p) - 1 + 1) by lia.
    rewrite !Z.pow_add_r by lia. change (2 ^ 1) with 2. rewrite (Pos2Z.inj_xO p).
    revert IH. generalize (2 ^ (Z.pos (digits2_pos p) - 1)), (2 ^ Z.pos (digits2_pos p)). lia.
  - simpl. lia.
Qed.

Lemma Zdigits2_unique (m k : Z) :
  0 < m -> 2 ^ (k - 1) <= m < 2 ^ k -> Zdigits2 m = k.
Proof.
  intros Hm Hk. destruct m as [|p|p]; try lia.
  pose proof (Zdigits2_bounds p) as Hd.
  set (d := Zdigits2 (Z.pos p)) in *.
  assert (Hdpos : 0 < d) by (unfold d; simpl; lia).
  assert (Hkpos : 0 < k).
  { destruct (Z.le_gt_cases k 0) as [H|H]; [|assumption].
    assert (2 ^ k <= 1).
    { destruct (Z.eq_dec k 0) as [->|]; [simpl; lia|].
      rewrite Z.pow_neg_r by lia. lia. }
    lia. }
  destruct (Z.lt_trichotomy d k) as [H|[H|H]]; [|assumption|].
  - assert (2 ^ d <= 2 ^ (k - 1)) by (apply Z.pow_le_mono_r; lia). lia.
  - assert (2 ^ k <= 2 ^ (d - 1)) by (apply Z.pow_le_mono_r; lia). lia.
Qed.

Lemma shr_1_m (mrs : shr_record) :
  0 <= shr_m mrs -> shr_m (shr_1 mrs) = shr_m mrs / 2.
Proof.
  destruct mrs as [m r s]. simpl. intros Hm.
  destruct m as [|[p|p|]|p]; simpl; try lia; try reflexivity.
  - rewrite (Pos2Z.inj_xI p). apply Z.div_unique with (r := 1); lia.
  - rewrite (Pos2Z.inj_xO p). apply Z.div_unique with (r := 0); lia.
Qed.

Lemma iter_pos_shr_m (p : positive) :
  forall mrs, 0 <= shr_m mrs ->
    shr_m (SpecFloat.iter_pos shr_1 p mrs) = shr_m mrs / 2 ^ Zpos p.
Proof.
  induction p as [p IH|p IH|]; intros mrs Hm; cbn [SpecFloat.iter_pos].
  - assert (H1 : 0 <= shr_m (shr_1 mrs))
      by (rewrite shr_1_m by assumption; apply Z.div_pos; lia).
    assert (H2 : 0 <= shr_m (SpecFloat.iter_pos shr_1 p (shr_1 mrs)))
      by (rewrite IH by assumption; apply Z.div_pos; lia).
    rewrite IH, IH, shr_1_m by assumption.
    rewrite !Z.div_div by lia. f_equal.
    rewrite (Pos2Z.inj_xI p). rewrite Z.pow_add_r, Z.pow_mul_r by lia.
    change (2 ^ 2) with 4. change (2 ^ 1) with 2.
    replace (4 ^ Z.pos p) with (2 ^ Z.pos p * 2 ^ Z.pos p).
    2:{ rewrite <- Z.pow_mul_l. reflexivity. }
    lia.
  - assert (H2 : 0 <= shr_m (SpecFloat.iter_pos shr_1 p mrs))
      by (rewrite IH by assumption; apply Z.div_pos; lia).
    rewrite IH, IH by assumption.
    rewrite !Z.div_div by lia. f_equal.
    rewrite (Pos2Z.inj_xO p). rewrite Z.pow_mul_r by lia.
    change (2 ^ 2) with 4.
    rewrite <- Z.pow_mul_l. reflexivity.
  - rewrite shr_1_m by assumption. reflexivity.
Qed.

Lemma shr_spec (mrs : shr_record) (e n : Z) :
  0 <= shr_m mrs -> 0 <= n ->
  shr_m (fst (shr mrs e n)) = shr_m mrs / 2 ^ n /\ snd (shr mrs e n) = e + n.
Proof.
  intros Hm Hn. unfold shr. destruct n as [|p|p]; try lia; simpl.
  - rewrite Z.div_1_r. split; [reflexivity|lia].
  - split; [now apply iter_pos_shr_m|reflexivity].
Qed.

Lemma shr_record_of_loc_m (m : Z) (l : location) :
  shr_m (shr_record_of_loc m l) = m.
Proof. destruct l as [|[| |]]; reflexivity. Qed.

Lemma round_nearest_even_bounds (m : Z) (l : location) :
  m <= round_nearest_even m l <= m + 1.
Proof.
  unfold round_nearest_even. destruct l as [|[| |]]; try lia.
  destruct (Z.even m); lia.
Qed.

Lemma fexp_normal (e : Z) : -1074 <= e - 53 -> fexp 53 1024 e = e - 53.
Proof. intros H. unfold fexp, emin. lia. Qed.

Lemma normal_mantissa_digits (m : Z) :
  2 ^ 52 <= m < 2 ^ 53 -> Zdigits2 m = 53.
Proof. intros H. apply Zdigits2_unique; [lia|]. exact H. Qed.

Lemma shifted_mantissa (mx : Z) :
  0 < mx -> 53 <= Zdigits2 mx ->
  2 ^ 52 <= mx / 2 ^ (Zdigits2 mx - 53) < 2 ^ 53.
Proof.
  intros Hm Hd. destruct mx as [|p|p]; try lia.
  pose proof (Zdigits2_bounds p) as Hb.
  set (d := Zdigits2 (Z.pos p)) in *.
  assert (Hp : 0 < 2 ^ (d - 53)) by (apply Z.pow_pos_nonneg; lia).
  assert (E1 : 2 ^ (d - 1) = 2 ^ (d - 53) * 2 ^ 52).
  { rewrite <- Z.pow_add_r by lia. f_equal. lia. }
  assert (E2 : 2 ^ d = 2 ^ (d - 53) * 2 ^ 53).
  { rewrite <- Z.pow_add_r by lia. f_equal. lia. }
  split.
  - apply Z.div_le_lower_bound; lia.
  - apply Z.div_lt_upper_bound; lia.
Qed.

Lemma binary_round_aux_normal (mx ex : Z) (lx : location) :
  0 < mx -> 53 <= Zdigits2 mx ->
  -1074 <= Zdigits2 mx + ex - 53 -> Zdigits2 mx + ex <= 1023 ->
  exists (p : positive) (e m1 : Z),
    binary_round_aux 53 1024 false mx ex lx = S754_finite false p e
    /\ 2 ^ 52 <= Zpos p < 2 ^ 53
    /\ -1074 <= e <= 971
    /\ ex + (Zdigits2 mx - 53) <= e
    /\ Zpos p * 2 ^ (e - (ex + (Zdigits2 mx - 53))) = m1
    /\ mx / 2 ^ (Zdigits2 mx - 53) <= m1 <= mx / 2 ^ (Zdigits2 mx - 53) + 1.
Proof.
  intros Hm Hd Hlo Hhi.
  pose proof (shifted_mantissa mx Hm Hd) as Hm'.
  set (d := Zdigits2 mx) in *. set (n := d - 53) in *.
  set (m' := mx / 2 ^ n) in *.
  unfold binary_round_aux, shr_fexp. fold d.
  rewrite fexp_normal by lia.
  replace (d + ex - 53 - ex) with n by (unfold n; lia).
  destruct (shr_spec (shr_record_of_loc mx lx) ex n) as [Hs1 Hs2];
    [rewrite shr_record_of_loc_m; lia | unfold n; lia |].
  rewrite shr_record_of_loc_m in Hs1. fold m' in Hs1.
  destruct (shr (shr_record_of_loc mx lx) ex n) as [mrs' e'].
  cbn [fst snd] in Hs1, Hs2. subst e'.
  pose proof (round_nearest_even_bounds (shr_m mrs') (loc_of_shr_record mrs'))
    as Hr.
  set (m1 := round_nearest_even (shr_m mrs') (loc_of_shr_record mrs')) in *.
  clearbody m1. rewrite Hs1 in Hr. clearbody m'.
  assert (Hn : 0 <= n) by (unfold n; lia).
  assert (Hlo' : -1074 <= ex + n) by (unfold n; lia).
  assert (Hhi' : ex + n <= 970) by (unfold n; lia).
  clearbody n. clearbody d.
  destruct (Z.lt_ge_cases m1 (2 ^ 53)) as [Hlt|Hge].
  - rewrite (normal_mantissa_digits m1) by lia.
    rewrite fexp_normal by lia.
    replace (53 + (ex + n) - 53 - (ex + n)) with 0 by lia.
    cbn [shr shr_record_of_loc shr_m].
    destruct m1 as [|p|p] eqn:Em1; try lia.
    destruct (Z.leb_spec (ex + n) (1024 - 53)); [|lia].
    exists p, (ex + n), (Z.pos p).
    replace (ex + n - (ex + n)) with 0 by lia.
    repeat split; try lia.
  - assert (Em1 : m1 = 2 ^ 53) by lia.
    rewrite (Zdigits2_unique m1 54) by (rewrite Em1; simpl; lia).
    rewrite fexp_normal by lia.
    replace (54 + (ex + n) - 53 - (ex + n)) with 1 by lia.
    rewrite Em1. cbn [shr shr_record_of_loc SpecFloat.iter_pos].
    change (shr_m (shr_1 {| shr_m := 2 ^ 53; shr_r := false; shr_s := false |}))
      with (2 ^ 52).
    change (2 ^ 52) with (Z.pos (2 ^ 52)%positive) at 1.
    cbv iota beta.
    destruct (Z.leb_spec (ex + n + 1) (1024 - 53)); [|lia].
    exists (2 ^ 52)%positive, (ex + n + 1), m1.
    replace (ex + n + 1 - (ex + n)) with 1 by lia.
    repeat split; lia.
Qed.

Lemma pow2_pos (e : Z) : (0 < pow2 e)%R.
Proof. apply powerRZ_lt. lra. Qed.

Lemma pow2_add (a b : Z) : pow2 (a + b) = (pow2 a * pow2 b)%R.
Proof. apply powerRZ_add. lra. Qed.

Lemma pow2_IZR (n : Z) : 0 <= n -> pow2 n = IZR (2 ^ n).
Proof.
  intros H. unfold pow2. rewrite <- (Z2Nat.id n) by assumption.
  rewrite <- pow_powerRZ. apply (pow_IZR 2).
Qed.

Lemma pow2_ge_1 (n : Z) : 0 <= n -> (1 <= pow2 n)%R.
Proof.
  intros H. rewrite pow2_IZR by assumption. apply IZR_le.
  assert (0 < 2 ^ n) by (apply Z.pow_pos_nonneg; lia). lia.
Qed.

Lemma pow2_le (a b : Z) : a <= b -> (pow2 a <= pow2 b)%R.
Proof.
  intros H. replace b with (a + (b - a)) by lia. rewrite pow2_add.
  pose proof (pow2_pos a). pose proof (pow2_ge_1 (b - a) ltac:(lia)). nra.
Qed.

Lemma pow2_lt_inv (a b : Z) : (pow2 a < pow2 b)%R -> a < b.
Proof.
  intros H. destruct (Z.lt_ge_cases a b) as [|Hge]; [assumption|].
  apply pow2_le in Hge. lra.
Qed.

Lemma rel_err_pos : (0 < rel_err)%R.
Proof. unfold rel_err. apply Rinv_0_lt_compat. apply IZR_lt. reflexivity. Qed.

Lemma round_real_bounds (A N E M' M1 V w : R) :
  (0 < E -> 0 < A -> 0 < N -> 0 < w <= 1 ->
   M' * N <= A -> A + 1 <= (M' + 1) * N -> M' <= M1 <= M' + 1 ->
   N <= A * w -> A * E <= V <= (A + 1) * E ->
   V * (1 - w) <= M1 * N * E <= V * (1 + w))%R.
Proof.
  intros HE HA HN Hw H1 H2 H4 Hu HV. split.
  - apply Rle_trans with ((A + 1 - N) * E)%R.
    + assert ((A + 1) * E * (1 - w) <= (A + 1 - N) * E)%R by nra.
      assert (V * (1 - w) <= (A + 1) * E * (1 - w))%R
        by (apply Rmult_le_compat_r; lra).
      lra.
    + apply Rmult_le_compat_r; [lra|]. nra.
  - apply Rle_trans with ((A + N) * E)%R.
    + apply Rmult_le_compat_r; [lra|]. nra.
    + assert (A * E * (1 + w) <= V * (1 + w))%R
        by (apply Rmult_le_compat_r; lra).
      nra.
Qed.

Lemma rel_err_le_1 : (rel_err <= 1)%R.
Proof.
  unfold rel_err. rewrite <- Rinv_1. apply Rinv_le_contravar; [lra|].
  apply IZR_le. discriminate.
Qed.

(** Rounding a value known between [mx * 2^ex] and [(mx + 1) * 2^ex]:
    the result is normal and within a relative [2^-52] of the value. *)
Lemma round_normal (mx ex : Z) (lx : location) (V : R) :
  0 < mx -> 53 <= Zdigits2 mx ->
  -1074 <= Zdigits2 mx + ex - 53 -> Zdigits2 mx + ex <= 1023 ->
  (F2R mx ex <= V <= F2R (mx + 1) ex)%R ->
  exists x,
    binary_round_aux 53 1024 false mx ex lx = x /\ normal x
    /\ (V * (1 - rel_err) <= B2R x <= V * (1 + rel_err))%R.
Proof.
  intros Hm Hd Hlo Hhi HV.
  destruct (binary_round_aux_normal mx ex lx Hm Hd Hlo Hhi)
    as (p & e & m1 & Hx & Hp & He & Hee & Hm1 & Hb).
  pose proof (shifted_mantissa mx Hm Hd) as Hm'.
  exists (S754_finite false p e). split; [assumption|].
  split; [exists p, e; repeat split; lia|].
  set (n := Zdigits2 mx - 53) in *.
  assert (Hn : 0 <= n) by (unfold n; lia).
  set (m' := mx / 2 ^ n) in *.
  assert (Hpow : 0 < 2 ^ n) by (apply Z.pow_pos_nonneg; lia).
  assert (Hdiv : m' * 2 ^ n <= mx < (m' + 1) * 2 ^ n).
  { pose proof (Z.div_mod mx (2 ^ n) ltac:(lia)) as Hdm.
    pose proof (Z.mod_pos_bound mx (2 ^ n) Hpow) as Hmb.
    fold m' in Hdm. lia. }
  (* the value of the result *)
  assert (HX : B2R (S754_finite false p e) = (IZR m1 * IZR (2 ^ n) * pow2 ex)%R).
  { cbn [B2R cond_Zopp]. unfold F2R. rewrite <- Hm1.
    replace e with ((e - (ex + n)) + n + ex) at 1 by lia.
    rewrite !pow2_add, mult_IZR.
    rewrite (pow2_IZR (e - (ex + n))) by lia. rewrite (pow2_IZR n) by lia.
    ring. }
  rewrite HX. unfold F2R in HV. rewrite plus_IZR in HV.
  pose proof (pow2_pos ex) as HE.
  assert (H1 : (IZR m' * IZR (2 ^ n) <= IZR mx)%R)
    by (rewrite <- mult_IZR; apply IZR_le; lia).
  pose proof (IZR_le (mx + 1) ((m' + 1) * 2 ^ n) ltac:(lia)) as H2.
  rewrite mult_IZR, !plus_IZR in H2.
  assert (H3 : (IZR (2 ^ 52) * IZR (2 ^ n) <= IZR mx)%R).
  { rewrite <- mult_IZR. apply IZR_le. nia. }
  assert (H4 : (IZR m' <= IZR m1 <= IZR m' + 1)%R).
  { split; [apply IZR_le; lia|].
    pose proof (IZR_le m1 (m' + 1) ltac:(lia)) as H. now rewrite plus_IZR in H. }
  assert (HN : (0 < IZR (2 ^ n))%R) by (apply IZR_lt; lia).
  assert (HA : (0 < IZR mx)%R) by (apply IZR_lt; lia).
  assert (Hu : (IZR (2 ^ n) <= IZR mx * rel_err)%R).
  { unfold rel_err. apply Rmult_le_reg_r with (r := IZR (2 ^ 52)).
    - apply IZR_lt. reflexivity.
    - rewrite Rmult_assoc, Rinv_l by (apply not_0_IZR; discriminate). lra. }
  apply round_real_bounds with (A := IZR mx) (M' := IZR m');
    try assumption; try lra.
  split; [apply rel_err_pos | apply rel_err_le_1].
Qed.

Lemma normal_value_bounds (p : positive) (e : Z) :
  2 ^ 52 <= Zpos p < 2 ^ 53 ->
  (pow2 (e + 52) <= F2R (Zpos p) e < pow2 (e + 53))%R.
Proof.
  intros Hp. unfold F2R. rewrite !(Z.add_comm e), !pow2_add.
  rewrite (pow2_IZR 52), (pow2_IZR 53) by lia.
  pose proof (pow2_pos e) as HE.
  pose proof (IZR_le _ _ (proj1 Hp)) as H1.
  pose proof (IZR_lt _ _ (proj2 Hp)) as H2.
  split.
  - apply Rmult_le_compat_r; lra.
  - apply Rmult_lt_compat_r; lra.
Qed.

Lemma Zdigits2_mul_normal (p q : positive) :
  2 ^ 52 <= Zpos p < 2 ^ 53 -> 2 ^ 52 <= Zpos q < 2 ^ 53 ->
  105 <= Zdigits2 (Zpos (p * q)) <= 106.
Proof.
  intros Hp Hq. rewrite Pos2Z.inj_mul.
  assert (H : 2 ^ 104 <= Zpos p * Zpos q < 2 ^ 106).
  { change (2 ^ 104) with (2 ^ 52 * 2 ^ 52).
    change (2 ^ 106) with (2 ^ 53 * 2 ^ 53).
    split; [apply Z.mul_le_mono_nonneg; lia | apply Z.mul_lt_mono_nonneg; lia]. }
  destruct (Z.lt_ge_cases (Zpos p * Zpos q) (2 ^ 105)).
  - rewrite (Zdigits2_unique _ 105); [lia | lia | simpl Z.sub; lia].
  - rewrite (Zdigits2_unique _ 106); [lia | lia | simpl Z.sub; lia].
Qed.

(** The product of two normal doubles whose exponents leave room. *)
Lemma SFmul_normal (x y : spec_float) :
  normal x -> normal y ->
  (pow2 (-1020) <= B2R x * B2R y <= pow2 1020)%R ->
  normal (SFmul 53 1024 x y)
  /\ (B2R x * B2R y * (1 - rel_err) <= B2R (SFmul 53 1024 x y)
      <= B2R x * B2R y * (1 + rel_err))%R.
Proof.
  intros (p & e & -> & Hp & He) (q & f & -> & Hq & Hf) HV.
  cbn [B2R cond_Zopp] in *.
  pose proof (normal_value_bounds p e Hp) as Hx.
  pose proof (normal_value_bounds q f Hq) as Hy.
  pose proof (Zdigits2_mul_normal p q Hp Hq) as Hd.
  assert (Hef : -1126 < e + f <= 916).
  { split.
    - assert (H : (pow2 (-1020) < pow2 (e + 53 + (f + 53)))%R).
      { rewrite pow2_add. pose proof (pow2_pos (e + 52)). pose proof (pow2_pos (f + 52)).
        nra. }
      apply pow2_lt_inv in H. lia.
    - assert (H : (pow2 (e + 52 + (f + 52)) < pow2 1021)%R).
      { rewrite pow2_add. pose proof (pow2_pos (e + 52)). pose proof (pow2_pos (f + 52)).
        assert (pow2 1020 < pow2 1021)%R.
        { replace 1021 with (1020 + 1) by lia. rewrite pow2_add.
          pose proof (pow2_pos 1020). rewrite (pow2_IZR 1) by lia. simpl. lra. }
        nra. }
      apply pow2_lt_inv in H. lia. }
  cbn [SFmul xorb].
  destruct (round_normal (Zpos (p * q)) (e + f) loc_Exact
              (F2R (Zpos p) e * F2R (Zpos q) f)%R)
    as (r & -> & Hn & Hb); try lia.
  - unfold F2R. rewrite plus_IZR, Pos2Z.inj_mul, mult_IZR, pow2_add.
    pose proof (pow2_pos e). pose proof (pow2_pos f).
    split; [right; ring|].
    assert (0 <= pow2 e * pow2 f)%R by nra. nra.
  - split; assumption.
Qed.


Lemma shift_left_mantissa (m s : Z) :
  0 <= s ->
  match s with
  | Z.pos _ => Z.shiftl m s
  | 0 => m
  | Z.neg _ => 0
  end = m * 2 ^ s.
Proof.
  intros Hs. destruct s as [|ps|ps]; try lia.
  apply Z.shiftl_mul_pow2. lia.
Qed.

(** The quotient digits [SFdiv] hands to the rounding. *)
Lemma SFdiv_core_binary_spec (p q : positive) (e f : Z) :
  let D := Zdigits2 (Zpos p) + e - (Zdigits2 (Zpos q) + f) in
  -1021 <= D ->
  exists (mz ez : Z) (lz : location),
    SFdiv_core_binary 53 1024 (Zpos p) e (Zpos q) f = (mz, ez, lz)
    /\ 0 < mz /\ 53 <= Zdigits2 mz
    /\ D <= Zdigits2 mz + ez <= D + 1
    /\ (F2R mz ez <= F2R (Zpos p) e / F2R (Zpos q) f <= F2R (mz + 1) ez)%R.
Proof.
  intros D HD.
  pose proof (Zdigits2_bounds p) as Hp. pose proof (Zdigits2_bounds q) as Hq.
  unfold SFdiv_core_binary.
  set (d1 := Zdigits2 (Zpos p)) in *. set (d2 := Zdigits2 (Zpos q)) in *.
  assert (Hd1 : 1 <= d1) by (unfold d1; simpl; lia).
  assert (Hd2 : 1 <= d2) by (unfold d2; simpl; lia).
  fold D. rewrite fexp_normal by lia.
  set (e' := Z.min (D - 53) (e - f)).
  set (s := e - f - e').
  assert (Hs : 0 <= s) by (unfold s, e'; lia).
  assert (Hs' : d2 - d1 + 53 <= s) by (unfold s, e', D; lia).
  set (m' := match s with Z.pos _ => Z.shiftl (Z.pos p) s | 0 => Z.pos p | Z.neg _ => 0 end).
  assert (Hm' : m' = Zpos p * 2 ^ s) by (now apply shift_left_mantissa).
  clearbody m'.
  pose proof (Z.div_eucl_eq m' (Zpos q) ltac:(lia)) as Hdm.
  pose proof (Z.mod_pos_bound m' (Zpos q) ltac:(lia)) as Hr.
  unfold Z.modulo in Hr.
  destruct (Z.div_eucl m' (Z.pos q)) as [mz r].
  set (k := d1 + s - d2 - 1).
  assert (Hk : 52 <= k) by (unfold k; lia).
  assert (Hpow_s : 0 < 2 ^ s) by (apply Z.pow_pos_nonneg; lia).
  assert (Hlow : 2 ^ k * Zpos q <= m').
  { rewrite Hm'.
    apply Z.le_trans with (2 ^ (d1 - 1) * 2 ^ s); [|nia].
    apply Z.le_trans with (2 ^ k * 2 ^ d2).
    - assert (0 < 2 ^ k) by (apply Z.pow_pos_nonneg; lia). nia.
    - rewrite <- !Z.pow_add_r by lia. apply Z.pow_le_mono_r; unfold k; lia. }
  assert (Hupp : m' < 2 ^ (k + 2) * Zpos q).
  { rewrite Hm'.
    apply Z.lt_le_trans with (2 ^ d1 * 2 ^ s); [nia|].
    apply Z.le_trans with (2 ^ (k + 2) * 2 ^ (d2 - 1)).
    - rewrite <- !Z.pow_add_r by lia. apply Z.pow_le_mono_r; unfold k; lia.
    - assert (0 < 2 ^ (k + 2)) by (apply Z.pow_pos_nonneg; lia). nia. }
  assert (Hmz : 2 ^ k <= mz < 2 ^ (k + 2)).
  { assert (0 < 2 ^ k) by (apply Z.pow_pos_nonneg; lia).
    assert (0 < 2 ^ (k + 2)) by (apply Z.pow_pos_nonneg; lia).
    split; nia. }
  assert (Hmzpos : 0 < mz).
  { assert (0 < 2 ^ k) by (apply Z.pow_pos_nonneg; lia). lia. }
  assert (Hdz : k + 1 <= Zdigits2 mz <= k + 2).
  { destruct (Z.lt_ge_cases mz (2 ^ (k + 1))).
    - rewrite (Zdigits2_unique mz (k + 1)); [lia | lia |].
      replace (k + 1 - 1) with k by lia. lia.
    - rewrite (Zdigits2_unique mz (k + 2)); [lia | lia |].
      replace (k + 2 - 1) with (k + 1) by lia. lia. }
  exists mz, e', (new_location (Zpos q) r).
  split; [reflexivity|]. split; [assumption|]. split; [lia|].
  split; [unfold k, s in *; lia|].
  pose proof (pow2_pos e') as HE. pose proof (pow2_pos f) as HF.
  assert (HQ : (0 < IZR (Zpos q))%R) by (apply IZR_lt; lia).
  assert (Heq : (IZR (Zpos p) * IZR (2 ^ s) = IZR (Zpos q) * IZR mz + IZR r)%R).
  { rewrite <- mult_IZR, <- Hm', Hdm, plus_IZR, mult_IZR. reflexivity. }
  assert (Hr0 : (0 <= IZR r)%R) by (apply IZR_le; lia).
  assert (Hr1 : (IZR r < IZR (Zpos q))%R) by (apply IZR_lt; lia).
  assert (HV : (F2R (Zpos p) e / F2R (Zpos q) f
                = (IZR mz + IZR r / IZR (Zpos q)) * pow2 e')%R).
  { unfold F2R. replace e with (s + e' + f) at 1 by (unfold s; lia).
    rewrite !pow2_add. rewrite (pow2_IZR s) by lia.
    transitivity ((IZR (Z.pos p) * IZR (2 ^ s)) / IZR (Zpos q) * pow2 e')%R.
    - field. split; lra.
    - rewrite Heq. field. lra. }
  rewrite HV. unfold F2R. rewrite plus_IZR.
  assert (0 <= IZR r / IZR (Zpos q) < 1)%R.
  { split.
    - apply Rmult_le_pos; [lra|]. left. now apply Rinv_0_lt_compat.
    - apply Rmult_lt_reg_r with (IZR (Zpos q)); [lra|].
      unfold Rdiv. rewrite Rmult_assoc, Rinv_l by lra. lra. }
  split; apply Rmult_le_compat_r; lra.
Qed.

(** The quotient of two positive dyadic numbers whose magnitudes leave
    room. *)
Lemma SFdiv_positive (p q : positive) (e f : Z) :
  let D := Zdigits2 (Zpos p) + e - (Zdigits2 (Zpos q) + f) in
  -1021 <= D <= 1022 ->
  let z := SFdiv 53 1024 (S754_finite false p e) (S754_finite false q f) in
  normal z
  /\ (F2R (Zpos p) e / F2R (Zpos q) f * (1 - rel_err) <= B2R z
      <= F2R (Zpos p) e / F2R (Zpos q) f * (1 + rel_err))%R.
Proof.
  intros D HD z. unfold z. cbn [SFdiv xorb].
  destruct (SFdiv_core_binary_spec p q e f ltac:(fold D; lia))
    as (mz & ez & lz & -> & Hmz & Hdz & HDz & HV).
  fold D in HDz.
  destruct (round_normal mz ez lz _ Hmz Hdz ltac:(lia) ltac:(lia) HV)
    as (r & -> & Hn & Hb).
  now split.
Qed.

Lemma iter_xO_pow2 (a k : positive) :
  Zpos (Pos.iter xO a k) = Zpos a * 2 ^ Zpos k.
Proof.
  induction k as [|k IH] using Pos.peano_ind.
  - simpl. lia.
  - rewrite Pos.iter_succ, Pos2Z.inj_xO, IH, Pos2Z.inj_succ.
    unfold Z.succ. rewrite Z.pow_add_r by lia. change (2 ^ 1) with 2. lia.
Qed.

Lemma pow2_0 : pow2 0 = 1%R.
Proof. reflexivity. Qed.

(** [float(a)] for a positive int below [2^1023]. *)
Lemma of_int_positive (a : Z) :
  0 < a < 2 ^ 1023 ->
  exists x,
    PyFloat.of_int a = Ok x /\ normal x
    /\ (IZR a * (1 - rel_err) <= B2R x <= IZR a * (1 + rel_err))%R.
Proof.
  intros Ha. destruct a as [|a|a]; try lia.
  pose proof (Zdigits2_bounds a) as Hd.
  assert (Hd1 : 1 <= Zdigits2 (Zpos a)) by (simpl; lia).
  assert (Hd2 : Zdigits2 (Zpos a) <= 1023).
  { destruct (Z.le_gt_cases (Zdigits2 (Zpos a)) 1023) as [|Hgt]; [assumption|].
    assert (2 ^ 1023 <= 2 ^ (Zdigits2 (Zpos a) - 1))
      by (apply Z.pow_le_mono_r; lia).
    lia. }
  unfold PyFloat.of_int, binary_normalize, binary_round, PyFloat.prec, PyFloat.emax.
  change (Z.pos (digits2_pos a)) with (Zdigits2 (Zpos a)).
  remember (Zdigits2 (Zpos a)) as d eqn:Ed.
  rewrite fexp_normal by lia. unfold shl_align.
  assert (Hres : forall mz ez,
            0 < mz -> 53 <= Zdigits2 mz -> Zdigits2 mz + ez = d ->
            F2R mz ez = IZR (Zpos a) ->
            exists x,
              (if PyFloat.is_infinity
                    (binary_round_aux 53 1024 false mz ez loc_Exact)
               then Raise OverflowError
               else Ok (binary_round_aux 53 1024 false mz ez loc_Exact)) = Ok x
              /\ normal x
              /\ (IZR (Zpos a) * (1 - rel_err) <= B2R x
                  <= IZR (Zpos a) * (1 + rel_err))%R).
  { intros mz ez Hmz Hdz Hsum HV.
    destruct (round_normal mz ez loc_Exact (IZR (Zpos a)) Hmz Hdz)
      as (x & -> & Hn & Hb); try lia.
    - rewrite <- HV. unfold F2R. rewrite plus_IZR.
      pose proof (pow2_pos ez). split; [lra|nra].
    - exists x. destruct Hn as (p & e & -> & Hp & He).
      split; [reflexivity|]. split; [|assumption].
      exists p, e. repeat split; lia. }
  destruct (d + 0 - 53 - 0) as [|k|k] eqn:Ek.
  - apply Hres; rewrite <- ?Ed; try lia.
    unfold F2R. rewrite pow2_0. ring.
  - apply Hres; rewrite <- ?Ed; try lia.
    unfold F2R. rewrite pow2_0. ring.
  - assert (Hk : Zpos k = 53 - d) by lia.
    assert (Hmz : 2 ^ 52 <= Zpos (Pos.iter xO a k) < 2 ^ 53).
    { rewrite iter_xO_pow2, Hk.
      assert (0 < 2 ^ (53 - d)) by (apply Z.pow_pos_nonneg; lia).
      assert (E1 : 2 ^ 52 = 2 ^ (d - 1) * 2 ^ (53 - d)).
      { rewrite <- Z.pow_add_r by lia. f_equal. lia. }
      assert (E2 : 2 ^ 53 = 2 ^ d * 2 ^ (53 - d)).
      { rewrite <- Z.pow_add_r by lia. f_equal. lia. }
      rewrite E1, E2. split.
      - apply Z.mul_le_mono_nonneg_r; [apply Z.lt_le_incl, H | apply Hd].
      - apply Z.mul_lt_mono_pos_r; [apply H | apply Hd]. }
    apply Hres; try lia.
    + rewrite (normal_mantissa_digits _ Hmz). lia.
    + rewrite (normal_mantissa_digits _ Hmz). lia.
    + unfold F2R. rewrite iter_xO_pow2, mult_IZR, Hk.
      rewrite <- (pow2_IZR (53 - d)) by lia.
      rewrite Rmult_assoc, <- pow2_add.
      replace (53 - d + (d + 0 - 53)) with 0 by lia. rewrite pow2_0. ring.
Qed.

(** [int(x)] for a positive normal double: the floor. *)
Lemma to_int_normal (x : spec_float) :
  normal x ->
  exists n,
    PyFloat.to_int x = Ok n /\ 0 <= n
    /\ (IZR n <= B2R x < IZR n + 1)%R.
Proof.
  intros (p & e & -> & Hp & He). cbn [PyFloat.to_int B2R cond_Zopp].
  unfold F2R. destruct e as [|k|k].
  - exists (Zpos p). rewrite pow2_0. repeat split; try lia; lra.
  - exists (Z.shiftl (Zpos p) (Zpos k)).
    rewrite Z.shiftl_mul_pow2 by lia.
    assert (0 < 2 ^ Zpos k) by (apply Z.pow_pos_nonneg; lia).
    rewrite mult_IZR, <- pow2_IZR by lia.
    repeat split; try nia; lra.
  - exists (Z.shiftr (Zpos p) (- Zneg k)).
    rewrite Z.shiftr_div_pow2 by lia.
    change (- Z.neg k) with (Zpos k).
    assert (Hpow : 0 < 2 ^ Zpos k) by (apply Z.pow_pos_nonneg; lia).
    pose proof (Z.div_mod (Zpos p) (2 ^ Zpos k) ltac:(lia)) as Hdm.
    pose proof (Z.mod_pos_bound (Zpos p) (2 ^ Zpos k) Hpow) as Hr.
    set (n := Zpos p / 2 ^ Zpos k) in *. set (r := Zpos p mod 2 ^ Zpos k) in *.
    assert (Hn : 0 <= n) by (apply Z.div_pos; lia).
    split; [reflexivity|]. split; [assumption|].
    change (Z.neg k) with (- Zpos k).
    assert (HP : pow2 (- Zpos k) = (/ IZR (2 ^ Zpos k))%R).
    { unfold pow2. rewrite powerRZ_neg'. fold (pow2 (Zpos k)).
      now rewrite pow2_IZR by lia. }
    rewrite HP.
    assert (HN : (0 < IZR (2 ^ Zpos k))%R) by (apply IZR_lt; lia).
    assert (Heq : (IZR (Zpos p) = IZR (2 ^ Zpos k) * IZR n + IZR r)%R).
    { rewrite <- mult_IZR, <- plus_IZR. f_equal. exact Hdm. }
    assert (Hr0 : (0 <= IZR r)%R) by (apply IZR_le; lia).
    assert (Hr1 : (IZR r < IZR (2 ^ Zpos k))%R) by (apply IZR_lt; lia).
    rewrite Heq.
    replace ((IZR (2 ^ Z.pos k) * IZR n + IZR r) * / IZR (2 ^ Z.pos k))%R
      with (IZR n + IZR r * / IZR (2 ^ Z.pos k))%R by (field; lra).
    assert (0 <= IZR r * / IZR (2 ^ Z.pos k) < 1)%R.
    { split.
      - apply Rmult_le_pos; [lra|]. left. now apply Rinv_0_lt_compat.
      - apply Rmult_lt_reg_r with (IZR (2 ^ Zpos k)); [lra|].
        rewrite Rmult_assoc, Rinv_l by lra. lra. }
    lra.
Qed.

Lemma normal_positive (x : spec_float) : normal x -> (0 < B2R x)%R.
Proof.
  intros (p & e & -> & Hp & He). cbn [B2R cond_Zopp]. unfold F2R.
  apply Rmult_lt_0_compat; [apply IZR_lt; lia | apply pow2_pos].
Qed.

Lemma normal_finite (x : spec_float) :
  normal x -> PyFloat.is_infinity x = false /\ PyFloat.is_zero x = false.
Proof. intros (p & e & -> & _). split; reflexivity. Qed.

Lemma digits_below (a k : Z) : 0 < a < 2 ^ k -> 1 <= Zdigits2 a <= k.
Proof.
  intros Ha. destruct a as [|p|p]; try lia.
  pose proof (Zdigits2_bounds p) as Hd.
  remember (Zdigits2 (Zpos p)) as d eqn:Ed.
  assert (1 <= d) by (rewrite Ed; simpl; lia).
  split; [assumption|].
  destruct (Z.le_gt_cases d k) as [|Hgt]; [assumption|].
  assert (2 ^ k <= 2 ^ (d - 1)).
  { apply Z.pow_le_mono_r; [lia|].
    destruct (Z.le_gt_cases 0 k); [lia|].
    rewrite Z.pow_neg_r in Ha by lia. lia. }
  lia.
Qed.

(** [a / b] for two positive ints below [2^1000]. *)
Lemma int_truediv_positive (a b : Z) :
  0 < a < 2 ^ 1000 -> 0 < b < 2 ^ 1000 ->
  exists x,
    PyFloat.int_truediv a b = Ok x /\ normal x
    /\ (IZR a / IZR b * (1 - rel_err) <= B2R x
        <= IZR a / IZR b * (1 + rel_err))%R.
Proof.
  intros Ha Hb.
  pose proof (digits_below a 1000 Ha) as Hda.
  pose proof (digits_below b 1000 Hb) as Hdb.
  unfold PyFloat.int_truediv.
  destruct (Z.eqb_spec b 0); [lia|].
  destruct a as [|p|p]; try lia. destruct b as [|q|q]; try lia.
  cbn [PyFloat.exact]. unfold PyFloat.prec, PyFloat.emax.
  destruct (SFdiv_positive p q 0 0 ltac:(lia)) as [Hn Hbnd].
  rewrite (proj1 (normal_finite _ Hn)).
  eexists. split; [reflexivity|]. split; [assumption|].
  unfold F2R in Hbnd. rewrite pow2_0, !Rmult_1_r in Hbnd. exact Hbnd.
Qed.


Lemma pow2_succ (e : Z) : pow2 (e + 1) = (2 * pow2 e)%R.
Proof. rewrite pow2_add. change (pow2 1) with (2 * 1)%R. ring. Qed.


(** [x * y] for two normal doubles whose product leaves room. *)
Lemma mul_normal (x y : spec_float) :
  normal x -> normal y ->
  (pow2 (-1020) <= B2R x * B2R y <= pow2 1020)%R ->
  normal (PyFloat.mul x y)
  /\ (B2R x * B2R y * (1 - rel_err) <= B2R (PyFloat.mul x y)
      <= B2R x * B2R y * (1 + rel_err))%R.
Proof. apply SFmul_normal. Qed.

Lemma rel_err_value : rel_err = (/ 4503599627370496)%R.
Proof. reflexivity. Qed.

Lemma pow2_window_lo : (pow2 (-1020) <= pow2 (-1010) * / 2)%R.
Proof.
  replace (-1010) with (-1011 + 1) by lia. rewrite pow2_succ.
  pose proof (pow2_le (-1020) (-1011) ltac:(lia)). lra.
Qed.

Lemma pow2_window_hi : (pow2 1010 * 2 <= pow2 1020)%R.
Proof.
  pose proof (pow2_succ 1010) as H. change (1010 + 1) with 1011 in H.
  pose proof (pow2_le 1011 1020 ltac:(lia)). lra.
Qed.

(** [int(a * y)] for a positive int and a normal double. *)
Lemma scale_dimension (a : Z) (y : spec_float) :
  0 < a < 2 ^ 1000 -> normal y ->
  (pow2 (-1010) <= IZR a * B2R y <= pow2 1010)%R ->
  exists q n,
    PyFloat.int_mul a y = Ok q /\ PyFloat.to_int q = Ok n /\ 0 <= n
    /\ (IZR a * B2R y * ((1 - rel_err) * (1 - rel_err)) - 1 < IZR n
        <= IZR a * B2R y * ((1 + rel_err) * (1 + rel_err)))%R.
Proof.
  intros Ha Hy HV.
  destruct (of_int_positive a) as (x & Hx & Hnx & Hbx);
    [split; [lia|]; apply Z.lt_trans with (2 ^ 1000); [lia|reflexivity]|].
  pose proof (normal_positive y Hy) as Hyp.
  pose proof rel_err_value as Hu.
  assert (HA : (0 < IZR a)%R) by (apply IZR_lt; lia).
  pose proof pow2_window_lo. pose proof pow2_window_hi.
  pose proof (pow2_pos (-1010)). pose proof (pow2_pos 1010).
  destruct (mul_normal x y Hnx Hy) as [Hnq Hbq].
  { split.
    - apply Rle_trans with (IZR a * (1 - rel_err) * B2R y)%R; [nra|].
      apply Rmult_le_compat_r; lra.
    - apply Rle_trans with (IZR a * (1 + rel_err) * B2R y)%R; [|nra].
      apply Rmult_le_compat_r; lra. }
  destruct (to_int_normal _ Hnq) as (n & Hn & Hn0 & Hbn).
  exists (PyFloat.mul x y), n.
  unfold PyFloat.int_mul. rewrite Hx. cbn [bind].
  split; [reflexivity|]. split; [assumption|]. split; [assumption|].
  assert (Hlo : (IZR a * B2R y * ((1 - rel_err) * (1 - rel_err))
                 <= B2R x * B2R y * (1 - rel_err))%R).
  { replace (IZR a * B2R y * ((1 - rel_err) * (1 - rel_err)))%R
      with ((IZR a * (1 - rel_err)) * (B2R y * (1 - rel_err)))%R by ring.
    replace (B2R x * B2R y * (1 - rel_err))%R
      with (B2R x * (B2R y * (1 - rel_err)))%R by ring.
    apply Rmult_le_compat_r; [|lra]. apply Rmult_le_pos; lra. }
  assert (Hhi : (B2R x * B2R y * (1 + rel_err)
                 <= IZR a * B2R y * ((1 + rel_err) * (1 + rel_err)))%R).
  { replace (IZR a * B2R y * ((1 + rel_err) * (1 + rel_err)))%R
      with ((IZR a * (1 + rel_err)) * (B2R y * (1 + rel_err)))%R by ring.
    replace (B2R x * B2R y * (1 + rel_err))%R
      with (B2R x * (B2R y * (1 + rel_err)))%R by ring.
    apply Rmult_le_compat_r; [|lra]. apply Rmult_le_pos; lra. }
  lra.
Qed.




Lemma pow2_neg (k : Z) : pow2 (- k) = (/ pow2 k)%R.
Proof. unfold pow2. apply powerRZ_neg'. Qed.


(** ** The canvas ceiling *)




(** ** Longest-edge scaling *)



(** ** Forced aspect ratio *)

Lemma pow2_small_window (x : R) :
  (/ 4194304 <= x <= 1180591620717411303424)%R ->
  (pow2 (-1010) <= x <= pow2 1010)%R.
Proof.
  intros [H1 H2].
  assert (E1 : pow2 (-22) = (/ 4194304)%R).
  { replace (pow2 (-22)) with (/ pow2 22)%R by (symmetry; apply (pow2_neg 22)).
    rewrite pow2_IZR by lia. reflexivity. }
  assert (E2 : pow2 70 = 1180591620717411303424%R)
    by (rewrite pow2_IZR by lia; reflexivity).
  pose proof (pow2_le (-1010) (-22) ltac:(lia)).
  pose proof (pow2_le 70 1010 ltac:(lia)).
  lra.
Qed.

(** [int(n * ratio)]: [n * ratio_w / ratio_h] rounded down, or one
    less. *)
Lemma times_ratio (n ratio_w ratio_h : Z) (ratio : spec_float) :
  1 <= ratio_w < 2 ^ 20 -> 1 <= ratio_h < 2 ^ 20 ->
  1 <= n -> n * ratio_w < 2 ^ 48 ->
  double_of_ratio ratio_w ratio_h ratio ->
  exists q x,
    PyFloat.int_mul n ratio = Ok q /\ PyFloat.to_int q = Ok x /\ 0 <= x
    /\ n * ratio_w - ratio_h <= x * ratio_h <= n * ratio_w.
Proof.
  intros Hrw Hrh Hn Hprod [Hnorm Hb].
  pose proof rel_err_value as Hu.
  assert (HW : (1 <= IZR ratio_w < 1048576)%R)
    by (split; [apply IZR_le | apply IZR_lt]; lia).
  assert (HH : (1 <= IZR ratio_h < 1048576)%R)
    by (split; [apply IZR_le | apply IZR_lt]; lia).
  assert (HN : (1 <= IZR n)%R) by (apply IZR_le; lia).
  assert (HP : (IZR n * IZR ratio_w < 281474976710656)%R)
    by (rewrite <- mult_IZR; apply IZR_lt; exact Hprod).
  assert (Hinv : (/ 1048576 < / IZR ratio_h <= 1)%R).
  { split; [apply Rinv_lt_contravar; nra|].
    rewrite <- Rinv_1. apply Rinv_le_contravar; lra. }
  set (K := (IZR ratio_w / IZR ratio_h)%R) in *.
  assert (HK : (/ 1048576 < K < 1048576)%R) by (unfold K, Rdiv; nra).
  assert (HKh : (K * IZR ratio_h = IZR ratio_w)%R) by (unfold K; field; lra).
  assert (HNK : (IZR n * K < 281474976710656)%R).
  { unfold K, Rdiv.
    replace (IZR n * (IZR ratio_w * / IZR ratio_h))%R
      with ((IZR n * IZR ratio_w) * / IZR ratio_h)%R by ring.
    nra. }
  assert (HN' : n < 2 ^ 1000).
  { apply Z.le_lt_trans with (n * ratio_w); [nia|].
    apply Z.lt_trans with (2 ^ 48); [assumption|reflexivity]. }
  destruct (scale_dimension n ratio) as (q & x & Hq & Hx & Hx0 & Hbx);
    [lia | assumption | |].
  { apply pow2_small_window. split.
    - apply Rle_trans with (1 * (K * (1 - rel_err)))%R; [nra|].
      apply Rmult_le_compat; try lra. nra.
    - apply Rle_trans with (IZR n * (K * (1 + rel_err)))%R;
        [apply Rmult_le_compat_l; lra|]. nra. }
  exists q, x. split; [assumption|]. split; [assumption|].
  split; [assumption|].
  (* bounds on x * ratio_h *)
  set (T := (IZR n * IZR ratio_w)%R) in *.
  assert (HT : (IZR n * K * IZR ratio_h = T)%R)
    by (unfold T; rewrite Rmult_assoc, HKh; reflexivity).
  assert (Hhi : (IZR x * IZR ratio_h
                 <= T * ((1 + rel_err) * (1 + rel_err) * (1 + rel_err)))%R).
  { rewrite <- HT.
    apply Rle_trans with
      (IZR n * (K * (1 + rel_err)) * ((1 + rel_err) * (1 + rel_err)) * IZR ratio_h)%R;
      [|right; ring].
    apply Rmult_le_compat_r; [lra|].
    apply Rle_trans with (IZR n * B2R ratio * ((1 + rel_err) * (1 + rel_err)))%R;
      [lra|].
    apply Rmult_le_compat_r; [nra|]. apply Rmult_le_compat_l; lra. }
  assert (Hlo : (T * ((1 - rel_err) * (1 - rel_err) * (1 - rel_err))
                 - IZR ratio_h < IZR x * IZR ratio_h)%R).
  { rewrite <- HT.
    apply Rle_lt_trans with
      ((IZR n * B2R ratio * ((1 - rel_err) * (1 - rel_err)) - 1) * IZR ratio_h)%R.
    - assert (IZR n * K * ((1 - rel_err) * (1 - rel_err) * (1 - rel_err))
              <= IZR n * B2R ratio * ((1 - rel_err) * (1 - rel_err)))%R.
      { replace (IZR n * K * ((1 - rel_err) * (1 - rel_err) * (1 - rel_err)))%R
          with (IZR n * (K * (1 - rel_err)) * ((1 - rel_err) * (1 - rel_err)))%R
          by ring.
        apply Rmult_le_compat_r; [nra|]. apply Rmult_le_compat_l; lra. }
      nra.
    - apply Rmult_lt_compat_r; lra. }
  assert (HT0 : (0 <= T)%R) by (unfold T; nra).
  assert (HU : ((1 + rel_err) * (1 + rel_err) * (1 + rel_err) <= 1 + 4 * rel_err)%R)
    by (rewrite Hu; lra).
  assert (HD : (1 - 3 * rel_err <= (1 - rel_err) * (1 - rel_err) * (1 - rel_err))%R)
    by (rewrite Hu; lra).
  assert (H1 : (IZR (x * ratio_h) < IZR (n * ratio_w + 1))%R).
  { rewrite plus_IZR, !mult_IZR. fold T. nra. }
  assert (H2 : (IZR (n * ratio_w - ratio_h - 1) < IZR (x * ratio_h))%R).
  { rewrite !minus_IZR, !mult_IZR. fold T. nra. }
  apply lt_IZR in H1, H2. lia.
Qed.



(** ** Loading *)

Lemma mem_In (path : string) (paths : list string) :
  mem path paths = true <-> In path paths.
Proof.
  unfold mem. rewrite existsb_exists. split.
  - intros (p & Hp & E). apply String.eqb_eq in E. now subst.
  - intros H. exists path. split; [assumption | apply String.eqb_refl].
Qed.

Lemma mem_not_In (path : string) (paths : list string) :
  mem path paths = false <-> ~ In path paths.
Proof.
  rewrite <- mem_In. destruct (mem path paths); split; congruence.
Qed.

(** X1. What one call appends: nothing is removed or reordered, images and
    paths grow together, and only requested paths are added. *)
Theorem load_images_appends (w : world) (paths : list string) :
  forall self,
    exists new_images new_paths,
      images (snd (load_images w self paths)) = images self ++ new_images
      /\ image_paths (snd (load_images w self paths))
         = image_paths self ++ new_paths
      /\ List.length new_images = List.length new_paths
      /\ incl new_paths paths
      /\ Forall2 (fun img path =>
                    path_exists w path = true /\ load_one w path = Ok img)
           new_images new_paths.
Proof.
  induction paths as [|path rest IH]; intros self; cbn [load_images].
  - exists [], []. rewrite !app_nil_r. repeat split; auto using incl_refl.
  - assert (Hrest : forall s,
              images s = images self -> image_paths s = image_paths self ->
              exists new_images new_paths,
                images (snd (load_images w s rest)) = images self ++ new_images
                /\ image_paths (snd (load_images w s rest))
                   = image_paths self ++ new_paths
                /\ List.length new_images = List.length new_paths
                /\ incl new_paths (path :: rest)
                /\ Forall2 (fun img path =>
                              path_exists w path = true
                              /\ load_one w path = Ok img)
                     new_images new_paths).
    { intros s Ei Ep.
      destruct (IH s) as (ni & np & Hi & Hp & Hl & Hincl & Hall).
      exists ni, np. rewrite Hi, Hp, Ei, Ep.
      repeat split; auto using incl_tl. }
    destruct (mem path (image_paths self)); [now apply Hrest|].
    destruct (path_exists w path) eqn:Ex; cbn [negb]; [|now apply Hrest].
    destruct (load_one w path) as [img|e] eqn:E; [|now apply Hrest].
    destruct (IH (mk_processor (images self ++ [img])
                    (image_paths self ++ [path])))
      as (ni & np & Hi & Hp & Hl & Hincl & Hall).
    cbn [images image_paths] in Hi, Hp.
    exists (img :: ni), (path :: np).
    rewrite Hi, Hp, <- !app_assoc. cbn [app List.length].
    repeat split; auto.
    + intros p [<- | Hin]; [now left | right; now apply Hincl].
Qed.

(** X2. No path is stored twice. *)
Theorem load_images_no_duplicates (w : world) (paths : list string) :
  forall self,
    NoDup (image_paths self) ->
    NoDup (image_paths (snd (load_images w self paths))).
Proof.
  induction paths as [|path rest IH]; intros self H; cbn [load_images];
    [assumption|].
  destruct (mem path (image_paths self)) eqn:Em; [now apply IH|].
  destruct (negb (path_exists w path)); [now apply IH|].
  destruct (load_one w path) as [img|e]; [|now apply IH].
  apply IH. cbn [image_paths].
  apply mem_not_In in Em.
  apply NoDup_rev in H. rewrite <- (rev_involutive (_ ++ _)).
  apply NoDup_rev. rewrite rev_app_distr. cbn [rev app].
  constructor; [|assumption]. now rewrite <- in_rev.
Qed.

Lemma load_images_paths_grow (w : world) (paths : list string) (p : string) :
  forall self,
    In p (image_paths self) ->
    In p (image_paths (snd (load_images w self paths))).
Proof.
  induction paths as [|path rest IH]; intros self H; cbn [load_images];
    [assumption|].
  destruct (mem path (image_paths self)); [now apply IH|].
  destruct (negb (path_exists w path)); [now apply IH|].
  destruct (load_one w path) as [img|e]; [|now apply IH].
  apply IH. cbn [image_paths]. apply in_or_app. now left.
Qed.

(** Every requested path ends up stored or could not be loaded. *)
Lemma load_images_settles (w : world) (paths : list string) :
  forall self p,
    In p paths ->
    In p (image_paths (snd (load_images w self paths)))
    \/ fails_to_load w p.
Proof.
  induction paths as [|path rest IH]; intros self p Hin; [contradiction|].
  cbn [load_images].
  destruct Hin as [<- | Hin].
  - destruct (mem path (image_paths self)) eqn:Em.
    + left. apply load_images_paths_grow. now apply mem_In.
    + destruct (path_exists w path) eqn:Ex; cbn [negb].
      * destruct (load_one w path) as [img|e] eqn:E.
        -- left. apply load_images_paths_grow. cbn [image_paths].
           apply in_or_app. right. now left.
        -- right. right. now exists e.
      * right. now left.
  - destruct (mem path (image_paths self)); [now apply IH|].
    destruct (negb (path_exists w path)); [now apply IH|].
    destruct (load_one w path); now apply IH.
Qed.

(** A stored path was there before or loads. *)
Lemma load_images_only_loadable (w : world) (paths : list string) (p : string) :
  forall self,
    In p (image_paths (snd (load_images w self paths))) ->
    In p (image_paths self)
    \/ (In p paths /\ path_exists w p = true
        /\ exists img, load_one w p = Ok img).
Proof.
  induction paths as [|path rest IH]; intros self; cbn [load_images];
    [now left|].
  assert (Hrest : In p (image_paths (snd (load_images w self rest))) ->
            In p (image_paths self)
            \/ (In p (path :: rest) /\ path_exists w p = true
                /\ exists img, load_one w p = Ok img)).
  { intros H. destruct (IH self H) as [Hin | (Hin & Hex & Himg)];
      [now left | right; repeat split; auto using in_cons]. }
  destruct (mem path (image_paths self)); [exact Hrest|].
  destruct (path_exists w path) eqn:Ex; cbn [negb]; [|exact Hrest].
  destruct (load_one w path) as [img|e] eqn:E; [|exact Hrest].
  intros H. destruct (IH _ H) as [Hin | (Hin & Hex & Himg)].
  - cbn [image_paths] in Hin. apply in_app_or in Hin.
    destruct Hin as [Hin | [<- | []]]; [now left|].
    right. repeat split; [now left | assumption | now exists img].
  - right. repeat split; auto using in_cons.
Qed.

Lemma load_images_skips (w : world) (paths : list string) (self : processor) :
  (forall p, In p paths -> In p (image_paths self) \/ fails_to_load w p) ->
  snd (load_images w self paths) = self
  /\ (fst (load_images w self paths) = true
      <-> forall p, In p paths -> In p (image_paths self)).
Proof.
  induction paths as [|path rest IH]; intros H; cbn [load_images].
  - split; [reflexivity|]. split; [intros _ p []|reflexivity].
  - destruct IH as [IHs IHf]; [intros p Hp; apply H; now right|].
    destruct (mem path (image_paths self)) eqn:Em.
    + split; [assumption|]. rewrite IHf. apply mem_In in Em.
      split; [intros Hall p [<- | Hp]; auto | intros Hall p Hp; apply Hall; now right].
    + apply mem_not_In in Em.
      assert (Hfail : fails_to_load w path)
        by (destruct (H path (or_introl eq_refl)); [contradiction|assumption]).
      assert (Hno : ~ (forall p, In p (path :: rest) -> In p (image_paths self)))
        by (intros Hall; apply Em, Hall; now left).
      destruct (path_exists w path) eqn:Ex; cbn [negb].
      * destruct Hfail as [Hf | [e He]]; [congruence|]. rewrite He.
        cbn [fst snd]. split; [assumption|]. split; [discriminate|].
        intros Hall. contradiction.
      * cbn [fst snd]. split; [assumption|]. split; [discriminate|].
        intros Hall. contradiction.
Qed.

(** The flag is [True] exactly when every requested path is in the
    session afterwards. *)
Lemma load_images_flag (w : world) (paths : list string) :
  forall self,
    fst (load_images w self paths) = true
    <-> forall p, In p paths ->
          In p (image_paths (snd (load_images w self paths))).
Proof.
  induction paths as [|path rest IH]; intros self.
  - cbn [load_images fst]. split; [intros _ p [] | reflexivity].
  - cbn [load_images].
    destruct (mem path (image_paths self)) eqn:Em.
    + rewrite IH. apply mem_In in Em. split.
      * intros Hall p [<- | Hp]; [now apply load_images_paths_grow | auto].
      * intros Hall p Hp. apply Hall. now right.
    + apply mem_not_In in Em.
      assert (Hstuck : fails_to_load w path ->
                ~ In path (image_paths (snd (load_images w self rest)))).
      { intros Hf Hin. apply load_images_only_loadable in Hin.
        destruct Hin as [Hin | (_ & Hex & img & Himg)]; [contradiction|].
        destruct Hf as [Hf | [e He]]; congruence. }
      destruct (path_exists w path) eqn:Ex; cbn [negb].
      * destruct (load_one w path) as [img|e] eqn:E.
        -- rewrite IH. split.
           ++ intros Hall p [<- | Hp]; [|auto].
              apply load_images_paths_grow. cbn [image_paths].
              apply in_or_app. right. now left.
           ++ intros Hall p Hp. apply Hall. now right.
        -- cbn [fst snd]. split; [discriminate|]. intros Hall.
           exfalso. apply Hstuck; [right; now exists e|].
           apply Hall. now left.
      * cbn [fst snd]. split; [discriminate|]. intros Hall.
        exfalso. apply Hstuck; [now left|]. apply Hall. now left.
Qed.

(** X3. The call reports success exactly when every requested path was
    already in the session or names a file that exists and decodes: one
    missing or broken file makes the whole call report failure, though
    the others are stored. *)
Theorem load_images_success (w : world) (paths : list string)
    (self : processor) :
  fst (load_images w self paths) = true
  <-> forall p, In p paths ->
        In p (image_paths self)
        \/ (path_exists w p = true /\ exists img, load_one w p = Ok img).
Proof.
  rewrite load_images_flag. split; intros H p Hp.
  - destruct (load_images_only_loadable w paths p self (H p Hp))
      as [Hin | (_ & Hex & Himg)]; [now left | now right].
  - destruct (load_images_settles w paths self p Hp) as [Hin | Hfail];
      [assumption|].
    destruct (H p Hp) as [Hin | (Hex & img & Himg)];
      [now apply load_images_paths_grow|].
    destruct Hfail as [Hf | [e He]]; congruence.
Qed.

(** X4. Loading the same list again changes nothing and reports the same. *)
Theorem load_images_idempotent (w : world) (paths : list string)
    (self : processor) :
  load_images w (snd (load_images w self paths)) paths
  = load_images w self paths.
Proof.
  set (loaded := snd (load_images w self paths)).
  destruct (load_images_skips w paths loaded) as [Hs Hf].
  { intros p Hp. now apply load_images_settles. }
  rewrite (surjective_pairing (load_images w loaded paths)).
  rewrite (surjective_pairing (load_images w self paths)).
  fold loaded. rewrite Hs. f_equal.
  pose proof (load_images_flag w paths self) as Hfirst. fold loaded in Hfirst.
  destruct (fst (load_images w loaded paths)), (fst (load_images w self paths));
    try reflexivity.
  - symmetry. apply Hfirst. now apply Hf.
  - apply Hf. now apply Hfirst.
Qed.

(** X5. Outside EPS files, what is stored is an RGB or an RGBA image. *)
Theorem load_one_mode (w : world) (path : string) (img : image) :
  ext_is_eps path = false ->
  load_one w path = Ok img ->
  mode img = RGB \/ mode img = RGBA.
Proof.
  intros Heps. unfold load_one. rewrite Heps.
  destruct (open_image w path) as [opened|e]; [|discriminate].
  cbn [bind].
  set (turned := try_except (exif_transpose w opened) (fun _ => opened)).
  set (decoded := if is_RGB_or_RGBA (mode turned) then turned
                  else Image.convert turned RGB).
  assert (Hmode : mode decoded = RGB \/ mode decoded = RGBA).
  { unfold decoded. destruct (mode turned) eqn:Em; cbn [is_RGB_or_RGBA];
      try (left; reflexivity); try (now left); try (now right). }
  destruct (Z.max (width decoded) (height decoded) >? max_size).
  - unfold thumbnail.
    destruct (thumbnail_size w (size_of decoded) (max_size, max_size))
      as [[tw th]|e]; [|discriminate].
    cbn [bind]. intros [= <-]. exact Hmode.
  - intros [= <-]. exact Hmode.
Qed.

(** ** Reordering *)

Lemma getitem_cases {A : Type} (l : list A) (i : Z) :
  (- len l <= i < len l /\ exists a, getitem l i = Ok a)
  \/ ((i < - len l \/ len l <= i) /\ getitem l i = Raise IndexError).
Proof.
  unfold getitem, len. destruct (Z.ltb_spec i 0) as [Hneg|Hpos].
  - destruct (nth_error (rev l) (Z.to_nat (- i - 1))) as [a|] eqn:E.
    + left. split; [|now exists a].
      assert (H : (Z.to_nat (- i - 1) < List.length (rev l))%nat)
        by (apply nth_error_Some; congruence).
      rewrite length_rev in H. lia.
    + right. split; [|reflexivity]. apply nth_error_None in E.
      rewrite length_rev in E. lia.
  - destruct (nth_error l (Z.to_nat i)) as [a|] eqn:E.
    + left. split; [|now exists a].
      assert (H : (Z.to_nat i < List.length l)%nat)
        by (apply nth_error_Some; congruence).
      lia.
    + right. split; [|reflexivity]. apply nth_error_None in E. lia.
Qed.

Lemma combine_append {A B : Type} (l1 l1' : list A) (l2 l2' : list B) :
  List.length l1 = List.length l2 ->
  combine (l1 ++ l1') (l2 ++ l2') = combine l1 l2 ++ combine l1' l2'.
Proof.
  revert l2. induction l1 as [|a l1 IH]; intros [|b l2] H; try discriminate;
    [reflexivity|].
  cbn [app combine]. f_equal. apply IH. now injection H.
Qed.

Lemma rev_combine {A B : Type} (l1 : list A) (l2 : list B) :
  List.length l1 = List.length l2 ->
  rev (combine l1 l2) = combine (rev l1) (rev l2).
Proof.
  revert l2. induction l1 as [|a l1 IH]; intros [|b l2] H; try discriminate;
    [reflexivity|].
  cbn [combine rev]. injection H as H. rewrite IH by assumption.
  rewrite combine_append by (now rewrite !length_rev). reflexivity.
Qed.

Lemma getitem_combine {A B : Type} (l1 : list A) (l2 : list B) (i : Z)
    (a : A) (b : B) :
  List.length l1 = List.length l2 ->
  getitem l1 i = Ok a -> getitem l2 i = Ok b ->
  getitem (combine l1 l2) i = Ok (a, b).
Proof.
  intros Hlen. unfold getitem. destruct (i <? 0).
  - rewrite rev_combine by assumption.
    destruct (nth_error (rev l1) _) as [a'|] eqn:E1; [|discriminate].
    destruct (nth_error (rev l2) _) as [b'|] eqn:E2; [|discriminate].
    intros [= ->] [= ->].
    now rewrite (proj2 (nth_error_combine _ _ _ a b) (conj E1 E2)).
  - destruct (nth_error l1 _) as [a'|] eqn:E1; [|discriminate].
    destruct (nth_error l2 _) as [b'|] eqn:E2; [|discriminate].
    intros [= ->] [= ->].
    now rewrite (proj2 (nth_error_combine _ _ _ a b) (conj E1 E2)).
Qed.

Lemma mapM_length {A B : Type} (f : A -> result B) (l : list A) (r : list B) :
  mapM f l = Ok r -> List.length r = List.length l.
Proof.
  revert r. induction l as [|a l IH]; intros r; cbn [mapM].
  - now intros [= <-].
  - destruct (f a); [|discriminate]. cbn [bind].
    destruct (mapM f l) as [bs|]; [|discriminate]. cbn [bind].
    intros [= <-]. cbn [List.length]. now rewrite (IH bs).
Qed.

Lemma mapM_getitem_in_range {A : Type} (l : list A) (order : list Z) :
  Forall (fun i => - len l <= i < len l) order ->
  exists r, mapM (getitem l) order = Ok r.
Proof.
  induction 1 as [|i order Hi _ [r IH]]; [now exists []|].
  cbn [mapM].
  destruct (getitem_cases l i) as [[_ [a ->]] | [Hout _]]; [|lia].
  cbn [bind]. rewrite IH. cbn [bind]. now eexists.
Qed.

Lemma mapM_getitem_out_of_range {A : Type} (l : list A) (order : list Z) :
  Exists (fun i => i < - len l \/ len l <= i) order ->
  mapM (getitem l) order = Raise IndexError.
Proof.
  induction 1 as [i order Hi | i order _ IH]; cbn [mapM].
  - destruct (getitem_cases l i) as [[Hin _] | [_ ->]]; [lia | reflexivity].
  - destruct (getitem_cases l i) as [[_ [a ->]] | [_ ->]]; [|reflexivity].
    cbn [bind]. now rewrite IH.
Qed.

Lemma mapM_getitem_combine {A B : Type} (l1 : list A) (l2 : list B)
    (order : list Z) (r1 : list A) (r2 : list B) :
  List.length l1 = List.length l2 ->
  mapM (getitem l1) order = Ok r1 -> mapM (getitem l2) order = Ok r2 ->
  mapM (getitem (combine l1 l2)) order = Ok (combine r1 r2).
Proof.
  intros Hlen. revert r1 r2.
  induction order as [|i order IH]; intros r1 r2; cbn [mapM].
  - now intros [= <-] [= <-].
  - destruct (getitem l1 i) as [a|] eqn:E1; [|discriminate]. cbn [bind].
    destruct (mapM (getitem l1) order) as [s1|]; [|discriminate]. cbn [bind].
    intros [= <-].
    destruct (getitem l2 i) as [b|] eqn:E2; [|discriminate]. cbn [bind].
    destruct (mapM (getitem l2) order) as [s2|]; [|discriminate]. cbn [bind].
    intros [= <-].
    rewrite (getitem_combine l1 l2 i a b Hlen E1 E2). cbn [bind].
    now rewrite (IH s1 s2).
Qed.

(** With as many indices as images, all of them in range,
    [reorder_images] indexes both lists by [new_order]. *)
Lemma reorder_images_in_range (new_order : list Z) (self : processor) :
  len (images self) = len (image_paths self) ->
  len new_order = len (images self) ->
  Forall (fun i => - len (images self) <= i < len (images self)) new_order ->
  exists imgs paths,
    mapM (getitem (images self)) new_order = Ok imgs
    /\ mapM (getitem (image_paths self)) new_order = Ok paths
    /\ reorder_images new_order self = (Ok tt, mk_processor imgs paths).
Proof.
  intros Hpar Hlen Hin.
  destruct (mapM_getitem_in_range (images self) new_order Hin) as [imgs Hi].
  destruct (mapM_getitem_in_range (image_paths self) new_order) as [paths Hp];
    [now rewrite <- Hpar|].
  exists imgs, paths. split; [assumption|]. split; [assumption|].
  unfold reorder_images, sbind, gets, assign, sret.
  rewrite (proj2 (Z.eqb_eq _ _) Hlen).
  rewrite Hi. cbn [bind images image_paths]. rewrite Hp. reflexivity.
Qed.

(** X6. With parallel lists and indices that exist, [reorder_images] takes
    image and path together: the new list of (image, path) pairs is the
    old one indexed by [new_order]. *)
Theorem reorder_images_keeps_pairs (new_order : list Z) (self : processor) :
  len (images self) = len (image_paths self) ->
  len new_order = len (images self) ->
  Forall (fun i => - len (images self) <= i < len (images self)) new_order ->
  exists self',
    reorder_images new_order self = (Ok tt, self')
    /\ mapM (getitem (combine (images self) (image_paths self))) new_order
       = Ok (combine (images self') (image_paths self'))
    /\ len (images self') = len (images self)
    /\ len (image_paths self') = len (images self).
Proof.
  intros Hpar Hlen Hin.
  destruct (reorder_images_in_range new_order self Hpar Hlen Hin)
    as (imgs & paths & Hi & Hp & Hrun).
  exists (mk_processor imgs paths).
  split; [assumption|]. cbn [images image_paths].
  split; [apply mapM_getitem_combine; try assumption; unfold len in Hpar; lia|].
  apply mapM_length in Hi, Hp. unfold len in *. split; lia.
Qed.

(** X7. An index that does not exist: [IndexError], and the session is as
    it was. *)
Theorem reorder_images_out_of_range (new_order : list Z) (self : processor) :
  len new_order = len (images self) ->
  Exists (fun i => i < - len (images self) \/ len (images self) <= i)
    new_order ->
  reorder_images new_order self = (Raise IndexError, self).
Proof.
  intros Hlen Hout.
  unfold reorder_images, sbind, gets, assign, sret.
  rewrite (proj2 (Z.eqb_eq _ _) Hlen).
  now rewrite (mapM_getitem_out_of_range _ _ Hout).
Qed.

Lemma mapM_getitem_nth {A : Type} (l : list A) (d : A) (order : list Z)
    (r : list A) :
  Forall (fun i => 0 <= i) order ->
  mapM (getitem l) order = Ok r ->
  r = map (fun i => nth (Z.to_nat i) l d) order.
Proof.
  intros Hpos. revert r. induction Hpos as [|i order Hi _ IH]; intros r;
    cbn [mapM].
  - now intros [= <-].
  - destruct (getitem l i) as [a|] eqn:E; [|discriminate]. cbn [bind].
    destruct (mapM (getitem l) order) as [s|]; [|discriminate]. cbn [bind].
    intros [= <-]. cbn [map]. f_equal; [|now apply IH].
    unfold getitem in E. destruct (Z.ltb_spec i 0); [lia|].
    destruct (nth_error l (Z.to_nat i)) eqn:En; [|discriminate].
    injection E as <-. symmetry. now apply nth_error_nth.
Qed.

Lemma map_nth_range {A : Type} (l : list A) (d : A) :
  map (fun i => nth (Z.to_nat i) l d) (range (len l)) = l.
Proof.
  unfold range, len. rewrite Nat2Z.id, map_map.
  erewrite map_ext by (intros k; now rewrite Nat2Z.id).
  apply nth_ext with (d := d) (d' := d); [now rewrite length_map, length_seq|].
  intros k Hk. rewrite length_map, length_seq in Hk.
  rewrite (nth_indep _ d (nth 0 l d)) by (now rewrite length_map, length_seq).
  rewrite (map_nth (fun k => nth k l d) (seq 0 (List.length l)) 0%nat).
  now rewrite seq_nth.
Qed.

(** X8. With the indices [0 .. n-1] in any order, nothing is lost and
    nothing doubled: the (image, path) pairs are permuted. *)
Theorem reorder_images_permutes (new_order : list Z) (self : processor) :
  len (images self) = len (image_paths self) ->
  Permutation new_order (range (len (images self))) ->
  exists self',
    reorder_images new_order self = (Ok tt, self')
    /\ Permutation (combine (images self') (image_paths self'))
         (combine (images self) (image_paths self)).
Proof.
  intros Hpar Hperm.
  assert (Hlen : len new_order = len (images self)).
  { unfold len at 1. rewrite (Permutation_length Hperm), range_length.
    unfold len. lia. }
  assert (Hin : Forall (fun i => 0 <= i < len (images self)) new_order).
  { apply Forall_forall. intros i Hi. apply In_range.
    now apply (Permutation_in _ Hperm). }
  destruct (reorder_images_in_range new_order self Hpar Hlen)
    as (imgs & paths & Hi & Hp & Hrun).
  { eapply Forall_impl; [|exact Hin]. cbn. intros; lia. }
  exists (mk_processor imgs paths). split; [exact Hrun|].
  cbn [images image_paths].
  assert (Hpairs : mapM (getitem (combine (images self) (image_paths self)))
                     new_order = Ok (combine imgs paths))
    by (apply mapM_getitem_combine; try assumption; unfold len in Hpar; lia).
  clear Hi Hp Hrun.
  set (pairs := combine (images self) (image_paths self)) in *.
  assert (Hn : len pairs = len (images self)).
  { unfold pairs, len in *. rewrite length_combine. lia. }
  destruct pairs as [|d pairs'] eqn:Ep.
  - assert (E : new_order = []).
    { assert (E0 : len (images self) = 0) by (rewrite <- Hn; reflexivity).
      rewrite E0 in Hperm. change (range 0) with (@nil Z) in Hperm.
      now apply Permutation_sym, Permutation_nil in Hperm. }
    rewrite E in Hpairs. cbn [mapM] in Hpairs. injection Hpairs as <-.
    constructor.
  - rewrite <- Ep in *.
    rewrite (mapM_getitem_nth pairs d new_order _
               ltac:(eapply Forall_impl; [|exact Hin]; cbn; intros; lia)
               Hpairs).
    apply Permutation_trans
      with (map (fun i => nth (Z.to_nat i) pairs d) (range (len pairs))).
    + apply Permutation_map. now rewrite Hn.
    + now rewrite map_nth_range.
Qed.

(** ** Where the images are pasted *)

Lemma cell_x_succ (imgs : list image) (rows cols h_spacing margin c : Z) :
  0 <= c ->
  cell_x imgs rows cols h_spacing margin (c + 1)
  = cell_x imgs rows cols h_spacing margin c
    + col_width imgs rows cols c + h_spacing.
Proof.
  intros H. unfold cell_x. rewrite sum_range_succ by assumption. lia.
Qed.

Lemma cell_y_succ (imgs : list image) (rows cols v_spacing margin r : Z) :
  0 <= r ->
  cell_y imgs rows cols v_spacing margin (r + 1)
  = cell_y imgs rows cols v_spacing margin r
    + row_height imgs rows cols r + v_spacing.
Proof.
  intros H. unfold cell_y. rewrite sum_range_succ by assumption. lia.
Qed.

Lemma col_width_nonneg (imgs : list image) (rows cols c : Z) :
  0 <= col_width imgs rows cols c.
Proof. apply max0_nonneg. Qed.

Lemma row_height_nonneg (imgs : list image) (rows cols r : Z) :
  0 <= row_height imgs rows cols r.
Proof. apply max0_nonneg. Qed.

Lemma cell_x_next (imgs : list image) (rows cols h_spacing margin : Z) :
  0 <= h_spacing ->
  forall (k : nat) (c : Z),
    0 <= c ->
    cell_x imgs rows cols h_spacing margin c
    + col_width imgs rows cols c + h_spacing
    <= cell_x imgs rows cols h_spacing margin (c + 1 + Z.of_nat k).
Proof.
  intros Hh. induction k as [|k IH]; intros c Hc.
  - rewrite Z.add_0_r, cell_x_succ by assumption. lia.
  - replace (c + 1 + Z.of_nat (S k)) with (c + 1 + Z.of_nat k + 1) by lia.
    rewrite cell_x_succ by lia.
    pose proof (IH c Hc).
    pose proof (col_width_nonneg imgs rows cols (c + 1 + Z.of_nat k)). lia.
Qed.

Lemma cell_y_next (imgs : list image) (rows cols v_spacing margin : Z) :
  0 <= v_spacing ->
  forall (k : nat) (r : Z),
    0 <= r ->
    cell_y imgs rows cols v_spacing margin r
    + row_height imgs rows cols r + v_spacing
    <= cell_y imgs rows cols v_spacing margin (r + 1 + Z.of_nat k).
Proof.
  intros Hv. induction k as [|k IH]; intros r Hr.
  - rewrite Z.add_0_r, cell_y_succ by assumption. lia.
  - replace (r + 1 + Z.of_nat (S k)) with (r + 1 + Z.of_nat k + 1) by lia.
    rewrite cell_y_succ by lia.
    pose proof (IH r Hr).
    pose proof (row_height_nonneg imgs rows cols (r + 1 + Z.of_nat k)). lia.
Qed.

Lemma cell_x_before (imgs : list image) (rows cols h_spacing margin c c' : Z) :
  0 <= h_spacing -> 0 <= c < c' ->
  cell_x imgs rows cols h_spacing margin c
  + col_width imgs rows cols c + h_spacing
  <= cell_x imgs rows cols h_spacing margin c'.
Proof.
  intros Hh Hc.
  replace c' with (c + 1 + Z.of_nat (Z.to_nat (c' - c - 1))) by lia.
  apply cell_x_next; lia.
Qed.

Lemma cell_y_before (imgs : list image) (rows cols v_spacing margin r r' : Z) :
  0 <= v_spacing -> 0 <= r < r' ->
  cell_y imgs rows cols v_spacing margin r
  + row_height imgs rows cols r + v_spacing
  <= cell_y imgs rows cols v_spacing margin r'.
Proof.
  intros Hv Hr.
  replace r' with (r + 1 + Z.of_nat (Z.to_nat (r' - r - 1))) by lia.
  apply cell_y_next; lia.
Qed.

Lemma sum_map_add (f : Z -> Z) (d n : Z) :
  0 <= n ->
  sum (map (fun j => f j + d) (range n)) = sum (map f (range n)) + n * d.
Proof.
  intros Hn. rewrite <- (Z2Nat.id n) by assumption.
  induction (Z.to_nat n) as [|k IH]; [reflexivity|].
  rewrite Nat2Z.inj_succ, <- Z.add_1_r.
  rewrite !sum_range_succ by lia. lia.
Qed.

Lemma cell_x_last (imgs : list image) (rows cols h_spacing margin : Z) :
  0 <= cols ->
  cell_x imgs rows cols h_spacing margin cols
  = total_width imgs rows cols h_spacing margin - margin + h_spacing.
Proof.
  intros H. unfold cell_x, total_width. rewrite sum_map_add by assumption. lia.
Qed.

Lemma cell_y_last (imgs : list image) (rows cols v_spacing margin : Z) :
  0 <= rows ->
  cell_y imgs rows cols v_spacing margin rows
  = total_height imgs rows cols v_spacing margin - margin + v_spacing.
Proof.
  intros H. unfold cell_y, total_height. rewrite sum_map_add by assumption. lia.
Qed.

Lemma cell_x_from_margin (imgs : list image) (rows cols h_spacing margin c : Z) :
  0 <= h_spacing -> 0 <= c ->
  margin <= cell_x imgs rows cols h_spacing margin c.
Proof.
  intros Hh Hc. unfold cell_x.
  assert (0 <= sum (map (fun j => col_width imgs rows cols j + h_spacing)
                      (range c))); [|lia].
  apply sum_nonneg. intros x Hx. apply in_map_iff in Hx.
  destruct Hx as (j & <- & _).
  pose proof (col_width_nonneg imgs rows cols j). lia.
Qed.

Lemma cell_y_from_margin (imgs : list image) (rows cols v_spacing margin r : Z) :
  0 <= v_spacing -> 0 <= r ->
  margin <= cell_y imgs rows cols v_spacing margin r.
Proof.
  intros Hv Hr. unfold cell_y.
  assert (0 <= sum (map (fun j => row_height imgs rows cols j + v_spacing)
                      (range r))); [|lia].
  apply sum_nonneg. intros x Hx. apply in_map_iff in Hx.
  destruct Hx as (j & <- & _).
  pose proof (row_height_nonneg imgs rows cols j). lia.
Qed.

Lemma width_le_col_width (imgs : list image) (rows cols i : Z) (img : image) :
  In (i, img) (assigned imgs rows cols) ->
  width img <= col_width imgs rows cols (i mod cols).
Proof.
  intros H. unfold col_width. apply max0_upper.
  apply in_map_iff. exists (i, img). split; [reflexivity|].
  apply filter_In. split; [assumption|]. apply Z.eqb_refl.
Qed.

Lemma height_le_row_height (imgs : list image) (rows cols i : Z) (img : image) :
  In (i, img) (assigned imgs rows cols) ->
  height img <= row_height imgs rows cols (i / cols).
Proof.
  intros H. unfold row_height. apply max0_upper.
  apply in_map_iff. exists (i, img). split; [reflexivity|].
  apply filter_In. split; [assumption|]. apply Z.eqb_refl.
Qed.

(** An image lies within its cell, whatever the alignment. *)
Lemma placement_in_cell (align : alignment) (imgs : list image)
    (rows cols h_spacing v_spacing margin i : Z) (img : image) :
  In (i, img) (assigned imgs rows cols) ->
  let xy := placement align imgs rows cols h_spacing v_spacing margin i img in
  cell_x imgs rows cols h_spacing margin (i mod cols) <= fst xy
  /\ fst xy + width img
     <= cell_x imgs rows cols h_spacing margin (i mod cols)
        + col_width imgs rows cols (i mod cols)
  /\ cell_y imgs rows cols v_spacing margin (i / cols) <= snd xy
  /\ snd xy + height img
     <= cell_y imgs rows cols v_spacing margin (i / cols)
        + row_height imgs rows cols (i / cols).
Proof.
  intros H xy.
  pose proof (width_le_col_width imgs rows cols i img H) as Hw.
  pose proof (height_le_row_height imgs rows cols i img H) as Hh.
  set (cw := col_width imgs rows cols (i mod cols)) in *.
  set (rh := row_height imgs rows cols (i / cols)) in *.
  assert (Hdw : 0 <= (cw - width img) / 2 <= cw - width img).
  { split; [apply Z.div_pos; lia|]. apply Z.div_le_upper_bound; lia. }
  assert (Hdh : 0 <= (rh - height img) / 2 <= rh - height img).
  { split; [apply Z.div_pos; lia|]. apply Z.div_le_upper_bound; lia. }
  unfold xy, placement. fold cw rh.
  destruct align; cbn [fst snd]; repeat split; lia.
Qed.

Lemma assigned_cell (imgs : list image) (rows cols i : Z) (img : image) :
  0 <= rows -> 0 <= cols ->
  In (i, img) (assigned imgs rows cols) ->
  0 < cols /\ 0 <= i mod cols < cols /\ 0 <= i / cols < rows.
Proof.
  intros Hrows Hcols H. apply In_assigned in H. destruct H as [Hi _].
  assert (Hc : 0 < cols) by nia.
  split; [assumption|]. split; [now apply Z.mod_pos_bound|].
  split; [apply Z.div_pos; lia|].
  apply Z.div_lt_upper_bound; [assumption|]. rewrite Z.mul_comm. lia.
Qed.

(** X9. Within the ceiling every image lies on the canvas, inside the
    margins. *)
Theorem pasted_inside_margins (self : processor) (rows cols h_spacing
    v_spacing : Z) (bg : bg_color) (margin : Z) (align : alignment)
    (canvas : image) :
  1 <= rows -> 1 <= cols ->
  0 <= h_spacing -> 0 <= v_spacing -> 0 <= margin ->
  total_width (images self) rows cols h_spacing margin <= 16384 ->
  total_height (images self) rows cols v_spacing margin <= 16384 ->
  create_combined_image self rows cols h_spacing v_spacing bg margin align
  = Some canvas ->
  Forall (inside_margins (size_of canvas) margin) (pasted_on (content canvas)).
Proof.
  intros Hrows Hcols Hh Hv Hm HW HH Hc.
  assert (Hne : images self <> []).
  { intros E. unfold create_combined_image, create_combined_image_body in Hc.
    rewrite E in Hc. discriminate. }
  destruct (create_combined_image_within self rows cols h_spacing v_spacing bg
              margin align Hne Hrows Hcols Hh Hv Hm HW HH)
    as (canvas' & Hc' & Hsize).
  rewrite Hc in Hc'. injection Hc' as <-.
  rewrite (create_combined_image_pasted self rows cols h_spacing v_spacing bg
             margin align canvas ltac:(lia) ltac:(lia) Hc).
  rewrite Hsize. apply Forall_forall. intros p Hp.
  apply in_map_iff in Hp. destruct Hp as ([i img] & <- & Hin).
  cbn [fst snd].
  destruct (assigned_cell (images self) rows cols i img ltac:(lia) ltac:(lia)
              Hin) as (_ & Hcol & Hrow).
  pose proof (placement_in_cell align (images self) rows cols h_spacing
                v_spacing margin i img Hin) as Hcell.
  cbv zeta in Hcell.
  destruct (placement align (images self) rows cols h_spacing v_spacing margin
              i img) as [x y].
  unfold inside_margins, size_of. cbn [fst snd] in *.
  pose proof (cell_x_from_margin (images self) rows cols h_spacing margin
                (i mod cols) Hh ltac:(lia)).
  pose proof (cell_y_from_margin (images self) rows cols v_spacing margin
                (i / cols) Hv ltac:(lia)).
  assert (Hx : cell_x (images self) rows cols h_spacing margin (i mod cols)
               + col_width (images self) rows cols (i mod cols) + h_spacing
               <= cell_x (images self) rows cols h_spacing margin cols).
  { destruct (Z.eq_dec (i mod cols + 1) cols) as [E|E].
    - pose proof (cell_x_succ (images self) rows cols h_spacing margin
                    (i mod cols) ltac:(lia)) as Hs.
      rewrite E in Hs. lia.
    - apply cell_x_before; lia. }
  assert (Hy : cell_y (images self) rows cols v_spacing margin (i / cols)
               + row_height (images self) rows cols (i / cols) + v_spacing
               <= cell_y (images self) rows cols v_spacing margin rows).
  { destruct (Z.eq_dec (i / cols + 1) rows) as [E|E].
    - pose proof (cell_y_succ (images self) rows cols v_spacing margin
                    (i / cols) ltac:(lia)) as Hs.
      rewrite E in Hs. lia.
    - apply cell_y_before; lia. }
  rewrite cell_x_last in Hx by lia. rewrite cell_y_last in Hy by lia.
  lia.
Qed.

Lemma ForallOrdPairs_map {A B : Type} (R : B -> B -> Prop) (g : A -> B)
    (l : list A) :
  ForallOrdPairs (fun a b => R (g a) (g b)) l ->
  ForallOrdPairs R (map g l).
Proof.
  induction 1 as [|a l Ha _ IH]; cbn [map]; constructor; [|assumption].
  apply Forall_forall. intros b Hb. apply in_map_iff in Hb.
  destruct Hb as (b' & <- & Hb'). rewrite Forall_forall in Ha. now apply Ha.
Qed.

Lemma ForallOrdPairs_NoDup {A : Type} (R : A -> A -> Prop) (l : list A) :
  NoDup l ->
  (forall a b, In a l -> In b l -> a <> b -> R a b) ->
  ForallOrdPairs R l.
Proof.
  induction 1 as [|a l Hnotin Hnd IH]; intros HR; constructor.
  - apply Forall_forall. intros b Hb. apply HR; [now left | now right|].
    intros ->. contradiction.
  - apply IH. intros x y Hx Hy. apply HR; now right.
Qed.

Lemma NoDup_range (n : Z) : NoDup (range n).
Proof.
  apply (NoDup_map_inv Z.to_nat). unfold range. rewrite map_map.
  erewrite map_ext by apply Nat2Z.id. rewrite map_id. apply seq_NoDup.
Qed.

Lemma NoDup_assigned (imgs : list image) (rows cols : Z) :
  NoDup (assigned imgs rows cols).
Proof.
  apply (NoDup_map_inv fst). rewrite map_fst_assigned. apply NoDup_range.
Qed.

Lemma assigned_index_unique (imgs : list image) (rows cols i : Z)
    (img img' : image) :
  In (i, img) (assigned imgs rows cols) ->
  In (i, img') (assigned imgs rows cols) -> img = img'.
Proof.
  intros H H'. apply In_assigned in H, H'.
  destruct H as [_ H], H' as [_ H']. congruence.
Qed.

(** X10. Any two pasted images are at least a spacing apart: nothing
    overlaps, with or without the ceiling. *)
Theorem pasted_apart (self : processor) (rows cols h_spacing v_spacing : Z)
    (bg : bg_color) (margin : Z) (align : alignment) (canvas : image) :
  0 <= rows -> 0 <= cols -> 0 <= h_spacing -> 0 <= v_spacing ->
  create_combined_image self rows cols h_spacing v_spacing bg margin align
  = Some canvas ->
  ForallOrdPairs (apart h_spacing v_spacing) (pasted_on (content canvas)).
Proof.
  intros Hrows Hcols Hh Hv Hc.
  rewrite (create_combined_image_pasted self rows cols h_spacing v_spacing bg
             margin align canvas) by assumption.
  apply ForallOrdPairs_map, ForallOrdPairs_NoDup; [apply NoDup_assigned|].
  intros [i img] [j img'] Hi Hj Hne. cbn [fst snd].
  assert (Hij : i <> j).
  { intros ->. apply Hne. f_equal. eapply assigned_index_unique; eassumption. }
  destruct (assigned_cell _ _ _ _ _ Hrows Hcols Hi) as (Hcpos & Hci & Hri).
  destruct (assigned_cell _ _ _ _ _ Hrows Hcols Hj) as (_ & Hcj & Hrj).
  pose proof (placement_in_cell align (images self) rows cols h_spacing
                v_spacing margin i img Hi) as Pi.
  pose proof (placement_in_cell align (images self) rows cols h_spacing
                v_spacing margin j img' Hj) as Pj.
  cbv zeta in Pi, Pj.
  destruct (placement align (images self) rows cols h_spacing v_spacing margin
              i img) as [x y].
  destruct (placement align (images self) rows cols h_spacing v_spacing margin
              j img') as [x' y'].
  unfold apart, size_of. cbn [fst snd] in *.
  assert (Hcell : i mod cols <> j mod cols \/ i / cols <> j / cols).
  { destruct (Z.eq_dec (i mod cols) (j mod cols)) as [Em|]; [|now left].
    right. intros Ed. apply Hij.
    rewrite (Z.div_mod i cols), (Z.div_mod j cols) by lia. congruence. }
  destruct Hcell as [Hm | Hd].
  - destruct (Z.lt_ge_cases (i mod cols) (j mod cols)).
    + pose proof (cell_x_before (images self) rows cols h_spacing margin
                    (i mod cols) (j mod cols) Hh ltac:(lia)). lia.
    + pose proof (cell_x_before (images self) rows cols h_spacing margin
                    (j mod cols) (i mod cols) Hh ltac:(lia)). lia.
  - destruct (Z.lt_ge_cases (i / cols) (j / cols)).
    + pose proof (cell_y_before (images self) rows cols v_spacing margin
                    (i / cols) (j / cols) Hv ltac:(lia)). lia.
    + pose proof (cell_y_before (images self) rows cols v_spacing margin
                    (j / cols) (i / cols) Hv ltac:(lia)). lia.
Qed.

(** ** What labelling leaves alone *)

Lemma preserves_sbind {S A B : Type} (P : S -> Prop) (c : stateful S A)
    (k : A -> stateful S B) :
  preserves P c -> (forall a, preserves P (k a)) -> preserves P (sbind c k).
Proof.
  intros Hc Hk s Hs. unfold sbind. specialize (Hc s Hs).
  destruct (c s) as [[a|e] s']; cbn [snd] in *; [now apply Hk | assumption].
Qed.

Lemma preserves_lift {S A : Type} (P : S -> Prop) (c : result A) :
  preserves P (lift (S := S) c).
Proof. intros s Hs. exact Hs. Qed.

Lemma preserves_sret {S A : Type} (P : S -> Prop) (a : A) :
  preserves P (sret (S := S) a).
Proof. intros s Hs. exact Hs. Qed.

Lemma preserves_modify {S : Type} (P : S -> Prop) (f : S -> S) :
  (forall s, P s -> P (f s)) -> preserves P (modify f).
Proof. intros H s Hs. now apply H. Qed.

Lemma preserves_sfoldM {S A B : Type} (P : S -> Prop)
    (f : A -> B -> stateful S A) (l : list B) :
  (forall a b, preserves P (f a b)) -> forall a, preserves P (sfoldM f l a).
Proof.
  intros Hf. induction l as [|b l IH]; intros a; cbn [sfoldM].
  - apply preserves_sret.
  - apply preserves_sbind; [apply Hf | assumption].
Qed.

Lemma label_loop_preserves (P : image -> Prop) (imgs : list image)
    (rows cols : Z) (fmt : label_format) (pos : label_position) (f : font)
    (label_color : string) (label_margin h_spacing v_spacing margin : Z)
    (align : alignment) (col_widths row_heights : list Z) :
  (forall canvas x y label, P canvas ->
     P (Image.draw_text canvas x y label label_color)) ->
  preserves P
    (label_loop imgs rows cols fmt pos f label_color label_margin h_spacing
       v_spacing margin align col_widths row_heights).
Proof.
  intros Hdraw. unfold label_loop.
  apply preserves_sfoldM. intros y_offset r.
  apply preserves_sbind.
  - apply preserves_sfoldM. intros x_offset c.
    apply preserves_sbind.
    + destruct (r * cols + c <? len imgs); [|apply preserves_sret].
      apply preserves_sbind; [apply preserves_lift|]. intros label.
      apply preserves_sbind; [apply preserves_lift|]. intros img.
      apply preserves_sbind; [apply preserves_lift|]. intros xy.
      apply preserves_modify. intros canvas Hcanvas. now apply Hdraw.
    + intros _. apply preserves_sbind; [apply preserves_lift|].
      intros cw. apply preserves_sret.
  - intros _. apply preserves_sbind; [apply preserves_lift|].
    intros rh. apply preserves_sret.
Qed.

(** [add_labels] always gives back a canvas, and what holds of the
    canvas it starts from and survives [draw.text] holds of the one it
    gives back, whether the loop ends or raises. *)
Lemma add_labels_invariant (P : image -> Prop) (fonts : font_library)
    (self : processor) (canvas : image) (rows cols : Z) (fmt : label_format)
    (pos : label_position) (font_name : string) (font_size : Z)
    (label_color : string) (label_margin h_spacing v_spacing margin : Z)
    (align : alignment) :
  P (if negb (color_mode_eqb (mode canvas) RGBA)
     then Image.convert canvas RGBA else canvas) ->
  (forall c x y label, P c -> P (Image.draw_text c x y label label_color)) ->
  exists labelled,
    add_labels fonts self (Some canvas) rows cols fmt pos font_name font_size
      label_color label_margin h_spacing v_spacing margin align
    = Some labelled
    /\ P labelled.
Proof.
  intros Hstart Hdraw.
  unfold add_labels. eexists. split; [reflexivity|].
  revert Hstart.
  generalize (if negb (color_mode_eqb (mode canvas) RGBA)
              then Image.convert canvas RGBA else canvas).
  change (preserves P
            (row_heights <~ lift (row_heights_loop (images self) rows cols) ;;
             col_widths <~ lift (col_widths_loop (images self) rows cols) ;;
             label_loop (images self) rows cols fmt pos
               (resolve_font fonts font_name font_size) label_color
               label_margin h_spacing v_spacing margin align col_widths
               row_heights)).
  apply preserves_sbind; [apply preserves_lift|]. intros row_heights.
  apply preserves_sbind; [apply preserves_lift|]. intros col_widths.
  now apply label_loop_preserves.
Qed.

Lemma add_labels_size (fonts : font_library) (self : processor)
    (canvas : image) (rows cols : Z) (fmt : label_format)
    (pos : label_position) (font_name : string) (font_size : Z)
    (label_color : string) (label_margin h_spacing v_spacing margin : Z)
    (align : alignment) :
  exists labelled,
    add_labels fonts self (Some canvas) rows cols fmt pos font_name font_size
      label_color label_margin h_spacing v_spacing margin align
    = Some labelled
    /\ size_of labelled = size_of canvas
    /\ pasted_on (content labelled) = pasted_on (content canvas).
Proof.
  apply (add_labels_invariant
           (fun img => size_of img = size_of canvas
                       /\ pasted_on (content img) = pasted_on (content canvas))).
  - now destruct (negb (color_mode_eqb (mode canvas) RGBA)).
  - intros c x y label H. exact H.
Qed.






(** ** Shortest-edge scaling and the square crop *)



(** ** Centimetres to pixels *)

Lemma f37_8_is_double_of_ratio : double_of_ratio 378 10 f37_8.
Proof.
  destruct (int_truediv_positive 378 10) as (x & Hx & Hn & Hb);
    [split; reflexivity | split; reflexivity |].
  assert (E : x = f37_8) by (vm_compute in Hx; now injection Hx).
  rewrite <- E. split; assumption.
Qed.

(** X15. [get_spacing_in_pixels(s, 'cm')] is [37.8 * s] rounded down, or one
    less; one less only when [37.8 * s] is a whole number.  Any other
    unit leaves the number as it is. *)
Theorem cm_to_pixels (spacing : Z) :
  0 <= spacing < 2 ^ 39 ->
  exists px,
    get_spacing_in_pixels spacing "cm" = Ok px
    /\ spacing * 378 / 10 - 1 <= px <= spacing * 378 / 10
    /\ (spacing mod 5 <> 0 -> px = spacing * 378 / 10)
    /\ forall unit, String.eqb unit "cm" = false ->
         get_spacing_in_pixels spacing unit = Ok spacing.
Proof.
  intros Hs.
  assert (Hunit : forall unit, String.eqb unit "cm" = false ->
                    get_spacing_in_pixels spacing unit = Ok spacing).
  { intros unit Hu. unfold get_spacing_in_pixels. now rewrite Hu. }
  destruct (Z.eq_dec spacing 0) as [-> | Hnz].
  { exists 0. split; [reflexivity|]. split; [now vm_compute|].
    split; [reflexivity | assumption]. }
  destruct (times_ratio spacing 378 10 f37_8) as (q & px & Hq & Hpx & H0 & Hb);
    [split; [lia | reflexivity] | split; [lia | reflexivity] | lia | |
     apply f37_8_is_double_of_ratio |].
  { apply Z.lt_le_trans with (2 ^ 39 * 378); [lia | now vm_compute]. }
  exists px. split.
  { unfold get_spacing_in_pixels. cbn [String.eqb Ascii.eqb Bool.eqb].
    rewrite Hq. exact Hpx. }
  pose proof (Z.div_mod (spacing * 378) 10 ltac:(lia)) as Hdm.
  pose proof (Z.mod_pos_bound (spacing * 378) 10 ltac:(lia)) as Hmod.
  split; [lia|]. split; [|assumption].
  intros H5.
  pose proof (Z.div_mod spacing 5 ltac:(lia)) as Hdm5.
  pose proof (Z.mod_pos_bound spacing 5 ltac:(lia)) as Hmod5.
  assert (Hne : (spacing * 378) mod 10 <> 0).
  { intros E. rewrite E in Hdm. lia. }
  lia.
Qed.

(** ** The configuration dict *)

Lemma dict_set_keys (d : dict) (key : string) (v : value) :
  dict_contains d key = true -> map fst (dict_set d key v) = map fst d.
Proof.
  unfold dict_contains. induction d as [|[k x] rest IH]; cbn [dict_get];
    [discriminate|].
  cbn [dict_set]. destruct (String.eqb k key); [reflexivity|].
  intros H. cbn [map fst]. now rewrite IH.
Qed.

Lemma dict_get_set (d : dict) (key key' : string) (v : value) :
  dict_contains d key = true ->
  dict_get (dict_set d key v) key'
  = if String.eqb key key' then Some v else dict_get d key'.
Proof.
  unfold dict_contains. induction d as [|[k x] rest IH]; cbn [dict_get];
    [discriminate|].
  cbn [dict_set]. destruct (String.eqb_spec k key) as [-> | Hk].
  - intros _. cbn [dict_get]. now destruct (String.eqb key key').
  - intros H. cbn [dict_get]. rewrite IH by assumption.
    destruct (String.eqb_spec k key') as [-> | Hk'];
      [|reflexivity].
    destruct (String.eqb_spec key key'); [congruence | reflexivity].
Qed.

Lemma update_config_keys (kwargs config : dict) :
  map fst (update_config kwargs config) = map fst config.
Proof.
  unfold update_config. revert config.
  induction kwargs as [|[k v] rest IH]; intros config; cbn [fold_left];
    [reflexivity|].
  rewrite IH. cbn [fst snd].
  destruct (dict_contains config k) eqn:E; [now apply dict_set_keys|reflexivity].
Qed.

Lemma dict_get_not_in (d : dict) (key : string) :
  ~ In key (map fst d) -> dict_get d key = None.
Proof.
  induction d as [|[k v] rest IH]; cbn [dict_get map fst]; [reflexivity|].
  intros H. destruct (String.eqb_spec k key) as [-> | Hk].
  - exfalso. apply H. now left.
  - apply IH. intros Hin. apply H. now right.
Qed.

Lemma update_config_get (kwargs config : dict) (key : string) :
  NoDup (map fst kwargs) ->
  dict_get (update_config kwargs config) key
  = match dict_get config key, dict_get kwargs key with
    | Some _, Some v => Some v
    | old, _ => old
    end.
Proof.
  intros Hnd. unfold update_config. revert config.
  induction kwargs as [|[k v] rest IH]; intros config;
    cbn [fold_left dict_get].
  - now destruct (dict_get config key).
  - inversion Hnd as [|? ? Hnotin Hrest]; subst. cbn [fst snd].
    rewrite (IH Hrest).
    destruct (String.eqb_spec k key) as [-> | Hk].
    + rewrite (dict_get_not_in rest key Hnotin).
      destruct (dict_contains config key) eqn:E.
      * rewrite dict_get_set by assumption. rewrite String.eqb_refl.
        unfold dict_contains in E. now destruct (dict_get config key).
      * unfold dict_contains in E. now destruct (dict_get config key).
    + destruct (dict_contains config k) eqn:E; [|reflexivity].
      rewrite dict_get_set by assumption.
      destruct (String.eqb_spec k key); [congruence | reflexivity].
Qed.

(** X16. [update_config] changes the values of the keys it knows and nothing
    else: the keys and their order stay, an unknown key is dropped, a
    known key not named keeps its value. *)
Theorem update_config_lookup (kwargs config : dict) :
  NoDup (map fst kwargs) ->
  map fst (update_config kwargs config) = map fst config
  /\ forall key,
       dict_get (update_config kwargs config) key
       = match dict_get config key, dict_get kwargs key with
         | Some _, Some v => Some v
         | old, _ => old
         end.
Proof.
  intros Hnd. split; [apply update_config_keys|].
  intros key. now apply update_config_get.
Qed.

Lemma load_config_keys (fs : json_files) (file_path : string) (config : dict) :
  map fst (snd (load_config fs file_path config)) = map fst config.
Proof.
  unfold load_config.
  destruct (json_exists fs file_path); cbn [negb]; [|reflexivity].
  destruct (json_load fs file_path) as [[]|e]; cbn; try reflexivity.
  apply update_config_keys.
Qed.

(** X17. [load_config] is [update_config] with what the file holds; when it
    fails, for a missing or unreadable file or one that holds no JSON
    object, the configuration is left as it was. *)
Theorem load_config_updates (fs : json_files) (file_path : string)
    (config : dict) :
  (forall entries,
     json_exists fs file_path = true ->
     json_load fs file_path = Ok (VDict entries) ->
     load_config fs file_path config = (true, update_config entries config))
  /\ (fst (load_config fs file_path config) = false ->
      snd (load_config fs file_path config) = config)
  /\ (fst (load_config fs file_path config) = true ->
      json_exists fs file_path = true
      /\ exists entries, json_load fs file_path = Ok (VDict entries))
  /\ map fst (snd (load_config fs file_path config)) = map fst config.
Proof.
  split; [|split; [|split]]; [unfold load_config ..|].
  - intros entries Hex Hload. now rewrite Hex, Hload.
  - destruct (json_exists fs file_path); cbn [negb]; [|reflexivity].
    destruct (json_load fs file_path) as [[]|e]; cbn; try reflexivity.
    discriminate.
  - destruct (json_exists fs file_path); cbn [negb]; [|discriminate].
    destruct (json_load fs file_path) as [[]|e]; cbn; try discriminate.
    intros _. split; [reflexivity | now eexists].
  - apply load_config_keys.
Qed.

Lemma dict_get_map (f : value -> value) (d : dict) (key : string) :
  dict_get (map (fun kv => match kv with (k, x) => (k, f x) end) d) key
  = option_map f (dict_get d key).
Proof.
  induction d as [|[k v] rest IH]; cbn [map dict_get]; [reflexivity|].
  destruct (String.eqb k key); [reflexivity | assumption].
Qed.

(** X18. Saving and loading back: every value returns as JSON has it, a
    tuple as a list, everything else as it was. *)
Theorem save_then_load (fs : json_files) (file_path : string)
    (config : dict) :
  NoDup (map fst config) ->
  json_writable fs file_path = true ->
  exists fs',
    save_config file_path config fs = (true, fs')
    /\ fst (load_config fs' file_path config) = true
    /\ map fst (snd (load_config fs' file_path config)) = map fst config
    /\ forall key,
         dict_get (snd (load_config fs' file_path config)) key
         = option_map jsonify (dict_get config key).
Proof.
  intros Hnd Hw. unfold save_config. rewrite Hw. eexists.
  split; [reflexivity|].
  unfold load_config. cbn [json_exists json_load].
  rewrite String.eqb_refl. cbn [orb negb jsonify items bind try_except fst snd].
  split; [reflexivity|].
  set (entries := map (fun kv => match kv with (k, x) => (k, jsonify x) end)
                    config).
  assert (Hkeys : map fst entries = map fst config).
  { unfold entries. rewrite map_map. apply map_ext. now intros [k x]. }
  split; [apply update_config_keys|]. intros key.
  rewrite update_config_get by (now rewrite Hkeys).
  unfold entries. rewrite dict_get_map.
  now destruct (dict_get config key).
Qed.

Lemma reachable_keys (config : dict) :
  reachable config -> map fst config = map fst _get_default_config.
Proof.
  induction 1 as [|kwargs config _ IH|fs file_path config _ IH|config _ IH].
  - reflexivity.
  - now rewrite update_config_keys.
  - now rewrite load_config_keys.
  - reflexivity.
Qed.

Lemma dict_get_in_keys (d : dict) (key : string) :
  In key (map fst d) -> exists v, dict_get d key = Some v.
Proof.
  induction d as [|[k v] rest IH]; cbn [map fst dict_get]; [contradiction|].
  intros [-> | H].
  - rewrite String.eqb_refl. now exists v.
  - destruct (String.eqb k key); [now exists v | now apply IH].
Qed.

Lemma no_KeyError_abind {A B : Type} (c : attempt A) (k : A -> attempt B) :
  no_KeyError c -> (forall a, no_KeyError (k a)) -> no_KeyError (abind c k).
Proof.
  intros Hc Hk key. destruct c as [e|a]; cbn [abind]; [|apply Hk].
  intros E. injection E as ->. now apply (Hc key).
Qed.

Lemma no_KeyError_inr {A : Type} (a : A) : no_KeyError (inr a : attempt A).
Proof. intros key. discriminate. Qed.

Lemma no_KeyError_lt (v : value) (n : Z) : no_KeyError (lt v n).
Proof. intros key. destruct v; discriminate. Qed.

Lemma no_KeyError_gt (v : value) (n : Z) : no_KeyError (gt v n).
Proof. intros key. destruct v; discriminate. Qed.

Lemma no_KeyError_or_else (a b : attempt bool) :
  no_KeyError a -> no_KeyError b -> no_KeyError (or_else a b).
Proof.
  intros Ha Hb. unfold or_else. apply no_KeyError_abind; [assumption|].
  intros [|]; [apply no_KeyError_inr | assumption].
Qed.

(** X19. No method adds or removes a key, so [validate_config] always finds
    the keys it reads: it never raises [KeyError]. *)
Theorem validate_config_finds_its_keys (config : dict) (key : string) :
  reachable config ->
  map fst config = map fst _get_default_config
  /\ validate_config config <> inl (KeyError key).
Proof.
  intros Hr. pose proof (reachable_keys config Hr) as Hk.
  split; [exact Hk|].
  assert (Hget : forall k, In k (map fst _get_default_config) ->
            no_KeyError (subscript config k)).
  { intros k Hin. rewrite <- Hk in Hin.
    destruct (dict_get_in_keys config k Hin) as [v Hv].
    unfold subscript. rewrite Hv. apply no_KeyError_inr. }
  assert (Hlt : forall k n, In k (map fst _get_default_config) ->
            no_KeyError (v <-! subscript config k ;; lt v n)).
  { intros k n Hin. apply no_KeyError_abind; [now apply Hget|].
    intros v. apply no_KeyError_lt. }
  assert (Hgt : forall k n, In k (map fst _get_default_config) ->
            no_KeyError (v <-! subscript config k ;; gt v n)).
  { intros k n Hin. apply no_KeyError_abind; [now apply Hget|].
    intros v. apply no_KeyError_gt. }
  revert key. change (no_KeyError (validate_config config)).
  unfold validate_config.
  apply no_KeyError_abind;
    [apply no_KeyError_or_else; apply Hlt; cbn; tauto|]. intros c1.
  apply no_KeyError_abind; [apply Hlt; cbn; tauto|]. intros c2.
  apply no_KeyError_abind;
    [apply no_KeyError_or_else; apply Hlt; cbn; tauto|]. intros c3.
  apply no_KeyError_abind;
    [apply no_KeyError_or_else; [apply Hlt | apply Hgt]; cbn; tauto|].
  intros c4.
  apply no_KeyError_abind;
    [apply no_KeyError_or_else; [apply Hlt | apply Hgt]; cbn; tauto|].
  intros c5. apply no_KeyError_inr.
Qed.

(** X20. With integers at the keys it reads, [validate_config] raises
    nothing, reports at most five errors, and accepts exactly the
    configurations within its ranges.  *)
Theorem validate_config_ranges (config : dict)
    (rows cols image_size h_spacing v_spacing font_size dpi : Z) :
  dict_get config "rows" = Some (VInt rows) ->
  dict_get config "cols" = Some (VInt cols) ->
  dict_get config "image_size" = Some (VInt image_size) ->
  dict_get config "h_spacing" = Some (VInt h_spacing) ->
  dict_get config "v_spacing" = Some (VInt v_spacing) ->
  dict_get config "label_font_size" = Some (VInt font_size) ->
  dict_get config "dpi" = Some (VInt dpi) ->
  exists valid errors,
    validate_config config = inr (valid, errors)
    /\ (valid = true <-> errors = [])
    /\ (List.length errors <= 5)%nat
    /\ (valid = true <->
        1 <= rows /\ 1 <= cols /\ 100 <= image_size
        /\ 0 <= h_spacing /\ 0 <= v_spacing
        /\ 8 <= font_size <= 72 /\ 72 <= dpi <= 1200).
Proof.
  intros Hrows Hcols Hsize Hh Hv Hfont Hdpi.
  unfold validate_config, or_else, subscript.
  rewrite Hrows, Hcols, Hsize, Hh, Hv, Hfont, Hdpi. cbn [abind lt gt].
  destruct (Z.ltb_spec rows 1); destruct (Z.ltb_spec cols 1);
    destruct (Z.ltb_spec image_size 100);
    destruct (Z.ltb_spec h_spacing 0); destruct (Z.ltb_spec v_spacing 0);
    destruct (Z.ltb_spec font_size 8); destruct (Z.gtb_spec font_size 72);
    destruct (Z.ltb_spec dpi 72); destruct (Z.gtb_spec dpi 1200);
    cbn [abind app is_empty];
    eexists; eexists; (split; [reflexivity|]);
    cbn [List.length];
    (split; [split; (discriminate || reflexivity)|]);
    (split; [lia|]);
    (split; [try discriminate; intros _; lia | try reflexivity; lia]).
Qed.

(** X21. A value Python does not compare with an int, such as a string
    loaded from a file, makes [validate_config] raise [TypeError]
    where it complains about numbers out of range. *)
Theorem validate_config_after_load (fs : json_files) (file_path : string)
    (config : dict) (text : string) :
  reachable config ->
  json_exists fs file_path = true ->
  json_load fs file_path = Ok (VDict [("rows", VStr text)]) ->
  load_config fs file_path config
  = (true, update_config [("rows", VStr text)] config)
  /\ validate_config (snd (load_config fs file_path config)) = inl TypeError.
Proof.
  intros Hr Hex Hload.
  assert (Hrun : load_config fs file_path config
                 = (true, update_config [("rows", VStr text)] config))
    by (unfold load_config; now rewrite Hex, Hload).
  rewrite Hrun. split; [reflexivity|]. cbn [snd].
  pose proof (reachable_keys config Hr) as Hk.
  assert (Hget : dict_get (update_config [("rows", VStr text)] config) "rows"
                 = match dict_get config "rows" with
                   | Some _ => Some (VStr text)
                   | None => None
                   end).
  { rewrite update_config_get; [reflexivity|].
    cbn. constructor; [intros [] | constructor]. }
  destruct (dict_get_in_keys config "rows") as [old Hold];
    [rewrite Hk; cbn; tauto|].
  unfold validate_config, or_else, subscript.
  rewrite Hget, Hold. reflexivity.
Qed.

(** ** The preview fits its label *)

Lemma SFltb_normal (x y : spec_float) :
  normal x -> normal y ->
  (SFltb x y = true -> (B2R x < B2R y)%R)
  /\ (SFltb x y = false -> (B2R y <= B2R x)%R).
Proof.
  intros (p & e & -> & Hp & He) (q & e' & -> & Hq & He').
  unfold SFltb, SFcompare. cbn [B2R cond_Zopp].
  pose proof (normal_value_bounds p e Hp) as Bx.
  pose proof (normal_value_bounds q e' Hq) as By.
  destruct (Z.compare_spec e e') as [E | Hlt | Hgt].
  - subst e'.
    change (Pos.compare_cont Eq p q) with (Pos.compare p q).
    unfold F2R. pose proof (pow2_pos e) as HE.
    destruct (Pos.compare_spec p q) as [E | Hlt | Hgt].
    + subst q. split; [discriminate | lra].
    + split; [intros _ | discriminate].
      apply Rmult_lt_compat_r; [assumption | apply IZR_lt; lia].
    + split; [discriminate | intros _].
      apply Rmult_le_compat_r; [lra | apply IZR_le; lia].
  - pose proof (pow2_le (e + 53) (e' + 52) ltac:(lia)).
    split; [intros _; lra | discriminate].
  - pose proof (pow2_le (e' + 53) (e + 52) ltac:(lia)).
    split; [discriminate | intros _; lra].
Qed.

Lemma min_normal (x y : spec_float) :
  normal x -> normal y ->
  (PyFloat.min x y = x \/ PyFloat.min x y = y)
  /\ (B2R (PyFloat.min x y) <= B2R x)%R
  /\ (B2R (PyFloat.min x y) <= B2R y)%R.
Proof.
  intros Hx Hy. unfold PyFloat.min.
  destruct (SFltb_normal y x Hy Hx) as [Ht Hf].
  destruct (SFltb y x).
  - specialize (Ht eq_refl). split; [now right|]. lra.
  - specialize (Hf eq_refl). split; [now left|]. lra.
Qed.

(** A dimension [a] scaled by a factor that does not exceed the double
    of [c / a] comes out at most [c]. *)
Lemma scaled_below (a c : Z) (y r : spec_float) :
  1 <= a <= 16384 -> 1 <= c < 2 ^ 20 ->
  normal y -> (/ 32768 <= B2R y)%R -> (B2R y <= B2R r)%R ->
  (B2R r <= IZR c / IZR a * (1 + rel_err))%R ->
  exists q n,
    PyFloat.int_mul a y = Ok q /\ PyFloat.to_int q = Ok n /\ 0 <= n <= c.
Proof.
  intros Ha Hc Hy Hlow Hyr Hr.
  pose proof rel_err_value as Hu.
  assert (HA : (1 <= IZR a <= 16384)%R)
    by (split; apply IZR_le; lia).
  assert (HC : (1 <= IZR c < 1048576)%R)
    by (split; [apply IZR_le | apply IZR_lt]; lia).
  assert (Hinv : (0 < / IZR a)%R) by (apply Rinv_0_lt_compat; lra).
  assert (Hprod : (IZR a * B2R y <= IZR c * (1 + rel_err))%R).
  { apply Rle_trans with (IZR a * (IZR c / IZR a * (1 + rel_err)))%R.
    - apply Rmult_le_compat_l; lra.
    - right. field. lra. }
  destruct (scale_dimension a y) as (q & n & Hq & Hn & Hn0 & Hb);
    [split; [lia|]; apply Z.le_lt_trans with 16384; [lia | reflexivity]
    | assumption | |].
  { apply pow2_small_window. rewrite Hu in *. split; nra. }
  exists q, n. split; [assumption|]. split; [assumption|].
  split; [assumption|].
  assert (H1 : (IZR n < IZR (c + 1))%R).
  { rewrite plus_IZR.
    apply Rle_lt_trans
      with (IZR c * (1 + rel_err) * ((1 + rel_err) * (1 + rel_err)))%R.
    - apply Rle_trans
        with (IZR a * B2R y * ((1 + rel_err) * (1 + rel_err)))%R; [lra|].
      apply Rmult_le_compat_r; [rewrite Hu; lra | assumption].
    - rewrite Hu. nra. }
  apply lt_IZR in H1. lia.
Qed.

(** X22. The image shown in the preview label never exceeds the label, and
    has no alpha channel. *)
Theorem preview_fits (g : settings) (combined shown : image) :
  1 <= fst (preview_label_size g) < 2 ^ 20 ->
  1 <= snd (preview_label_size g) < 2 ^ 20 ->
  1 <= width combined <= 16384 -> 1 <= height combined <= 16384 ->
  show_preview g (Some combined) = Ok shown ->
  width shown <= fst (preview_label_size g)
  /\ height shown <= snd (preview_label_size g)
  /\ mode shown <> RGBA.
Proof.
  intros Hpw Hph Hw Hh. unfold show_preview.
  destruct (preview_label_size g) as [pw ph]. cbn [fst snd] in *.
  assert (Hfinal : forall img : image,
            width img <= pw -> height img <= ph ->
            Ok (if color_mode_eqb (mode img) RGBA
                then Image.convert img RGB else img) = Ok shown ->
            width shown <= pw /\ height shown <= ph /\ mode shown <> RGBA).
  { intros img H1 H2 [= <-].
    destruct (mode img) eqn:Em; cbn [color_mode_eqb]; cbn; rewrite ?Em;
      repeat split; try assumption; discriminate. }
  destruct ((width combined >? pw) || (height combined >? ph)) eqn:Ebig.
  - assert (Hbig : 16384 < 2 ^ 1000) by reflexivity.
    assert (Hbig' : 2 ^ 20 < 2 ^ 1000) by reflexivity.
    destruct (int_truediv_positive pw (width combined) ltac:(lia) ltac:(lia))
      as (rw & Hrw & Hnw & Hbw).
    destruct (int_truediv_positive ph (height combined) ltac:(lia) ltac:(lia))
      as (rh & Hrh & Hnh & Hbh).
    rewrite Hrw, Hrh. cbn [bind].
    destruct (min_normal rw rh Hnw Hnh) as (Hwhich & Hle_w & Hle_h).
    set (ratio := PyFloat.min rw rh) in *.
    assert (Hnr : normal ratio) by (destruct Hwhich as [-> | ->]; assumption).
    pose proof rel_err_value as Hu.
    assert (Hlow : (/ 32768 <= B2R ratio)%R).
    { assert (Hq : forall c a : Z, 1 <= c -> 1 <= a <= 16384 ->
                     (/ 32768 <= IZR c / IZR a * (1 - rel_err))%R).
      { intros c a Hc Ha.
        assert (1 <= IZR c)%R by (apply IZR_le; lia).
        assert (1 <= IZR a <= 16384)%R by (split; apply IZR_le; lia).
        assert (/ 16384 <= / IZR a)%R by (apply Rinv_le_contravar; lra).
        unfold Rdiv. rewrite Hu. nra. }
      destruct Hwhich as [-> | ->].
      - apply Rle_trans with (1 := Hq pw (width combined) ltac:(lia) Hw). lra.
      - apply Rle_trans with (1 := Hq ph (height combined) ltac:(lia) Hh). lra. }
    destruct (scaled_below (width combined) pw ratio rw Hw Hpw Hnr Hlow Hle_w
                (proj2 Hbw)) as (qw & new_width & Hqw & Hnew_w & Hbw').
    destruct (scaled_below (height combined) ph ratio rh Hh Hph Hnr Hlow Hle_h
                (proj2 Hbh)) as (qh & new_height & Hqh & Hnew_h & Hbh').
    rewrite Hqw. cbn [bind]. rewrite Hnew_w. cbn [bind].
    rewrite Hqh. cbn [bind]. rewrite Hnew_h. cbn [bind].
    unfold Image.resize.
    destruct ((new_width =? width combined) && (new_height =? height combined))
      eqn:Esame.
    + cbn [bind]. apply andb_prop in Esame. destruct Esame as [E1 E2].
      apply Z.eqb_eq in E1, E2. apply Hfinal; lia.
    + destruct ((new_width <? 1) || (new_height <? 1)); [discriminate|].
      cbn [bind]. apply Hfinal; cbn [width height]; lia.
  - cbn [bind]. apply orb_false_elim in Ebig. destruct Ebig as [E1 E2].
    apply Hfinal; lia.
Qed.

(** ** BatchProcessor *)

Lemma process_folder_failure (w : os_world) (config : batch_config)
    (output_dir folder folder_name : string) :
  fst (process_folder w config output_dir folder folder_name) = false ->
  snd (process_folder w config output_dir folder folder_name) = [].
Proof.
  unfold process_folder.
  destruct (listdir w folder) as [names|e]; cbn [bind try_except fst snd];
    [|reflexivity].
  destruct (is_empty _); cbn [try_except fst snd]; [reflexivity|].
  destruct (load_images _ _ _) as [success processor].
  destruct success; cbn [negb try_except fst snd]; [|reflexivity].
  destruct (if String.eqb (config_spacing_unit config) "cm" then _ else _)
    as [[h v]|e]; cbn [bind try_except fst snd]; [|reflexivity].
  destruct (save_image _ _ _ _ _); cbn [try_except fst snd];
    [discriminate | reflexivity].
Qed.

(** X23. A folder is written as one file or not at all: on success exactly
    the composed canvas, under the folder's name in the output
    directory; on failure nothing. *)
Theorem process_folder_one_file (w : os_world) (config : batch_config)
    (output_dir folder folder_name : string) :
  let outcome := process_folder w config output_dir folder folder_name in
  (fst outcome = true ->
   exists canvas,
     snd outcome
     = [(path_join w output_dir
           (String.append folder_name
              (String.append "_combined."
                 (format_lower (config_output_format config)))),
         canvas)])
  /\ (fst outcome = false -> snd outcome = []).
Proof.
  cbv zeta. unfold process_folder.
  destruct (listdir w folder) as [names|e]; cbn [bind try_except fst snd];
    [|split; [discriminate | reflexivity]].
  destruct (is_empty _); cbn [try_except fst snd];
    [split; [discriminate | reflexivity]|].
  destruct (load_images _ _ _) as [success processor].
  destruct success; cbn [negb try_except fst snd];
    [|split; [discriminate | reflexivity]].
  destruct (if String.eqb (config_spacing_unit config) "cm" then _ else _)
    as [[h v]|e]; cbn [bind try_except fst snd];
    [|split; [discriminate | reflexivity]].
  destruct (add_labels _ _ _ _ _ _ _ _ _ _ _ _ _ _ _) as [canvas|];
    cbn [save_image].
  - destruct (_ && _); cbn [try_except fst snd];
      [split; [intros _; now exists canvas | discriminate]
      | split; [discriminate | reflexivity]].
  - cbn [try_except fst snd]. split; [discriminate | reflexivity].
Qed.

(** X24. A folder without image files, or with one that does not load, is
    not written. *)
Theorem process_folder_needs_every_file (w : os_world)
    (config : batch_config) (output_dir folder folder_name : string)
    (names : list string) :
  listdir w folder = Ok names ->
  filter is_image_file names = []
  \/ (exists file, In file names /\ is_image_file file = true
        /\ fails_to_load (files w) (path_join w folder file)) ->
  process_folder w config output_dir folder folder_name = (false, []).
Proof.
  intros Hdir Hbad. unfold process_folder. rewrite Hdir. cbn [bind].
  destruct Hbad as [Hnone | (file & Hin & Himg & Hfail)].
  - rewrite Hnone. reflexivity.
  - set (image_files := map (path_join w folder) (filter is_image_file names)).
    assert (Hfile : In (path_join w folder file) image_files).
    { apply in_map. apply filter_In. now split. }
    destruct (is_empty image_files); [reflexivity|].
    pose proof (load_images_flag (files w) image_files new_processor) as Hok.
    destruct (load_images (files w) new_processor image_files)
      as [success processor] eqn:El.
    cbn [fst snd] in Hok.
    destruct success; [|reflexivity]. exfalso.
    pose proof (proj1 Hok eq_refl _ Hfile) as Hstored.
    replace processor
      with (snd (load_images (files w) new_processor image_files)) in Hstored
      by (now rewrite El).
    apply load_images_only_loadable in Hstored.
    destruct Hstored as [[] | (_ & Hex & img & Himg')].
    destruct Hfail as [Hf | [e He]]; congruence.
Qed.

Lemma In_assigned_image (imgs : list image) (rows cols i : Z) (img : image) :
  In (i, img) (assigned imgs rows cols) -> In img imgs.
Proof.
  intros H. apply In_assigned in H. destruct H as [_ H].
  now apply nth_error_In in H.
Qed.

(** X25. The batch composes the stored thumbnails, not the files: with
    ['original'] as resize mode no pasted image exceeds 1024 px. *)
Theorem batch_composes_thumbnails (w : os_world) (config : batch_config)
    (output_dir folder folder_name : string) (path : string)
    (canvas : image) :
  config_resize_mode config = original ->
  0 <= config_rows config -> 0 <= config_cols config ->
  process_folder w config output_dir folder folder_name
  = (true, [(path, canvas)]) ->
  Forall (fun p : pixels * (Z * Z) * (Z * Z) =>
            Z.max (fst (snd (fst p))) (snd (snd (fst p))) <= 1024)
    (pasted_on (content canvas)).
Proof.
  intros Hmode Hrows Hcols. unfold process_folder.
  destruct (listdir w folder) as [names|e]; cbn [bind try_except];
    [|discriminate].
  set (image_files := map (path_join w folder) (filter is_image_file names)).
  destruct (is_empty image_files); [discriminate|].
  pose proof (load_images_bounded (files w) image_files new_processor
                (Forall_nil bounded)) as Hbounded.
  destruct (load_images (files w) new_processor image_files)
    as [success processor].
  cbn [snd] in Hbounded.
  destruct success; cbn [negb]; [|discriminate].
  rewrite Hmode.
  replace (map (fun img => resize_image img original (config_image_size config)
                             (config_aspect_ratio config) false)
             (images processor))
    with (images processor)
    by (symmetry; rewrite <- (map_id (images processor)) at 2;
        apply map_ext; reflexivity).
  destruct (if String.eqb (config_spacing_unit config) "cm" then _ else _)
    as [[h v]|e]; cbn [bind try_except]; [|discriminate].
  set (session := mk_processor (images processor) (image_paths processor)).
  destruct (create_combined_image session (config_rows config)
              (config_cols config) h v (config_bg_color config)
              (config_canvas_margin config) (config_align config))
    as [combined|] eqn:Ec; [|cbn [add_labels save_image]; discriminate].
  destruct (add_labels_size (fonts (files w)) session combined
              (config_rows config) (config_cols config)
              (config_label_format config) (config_label_position config)
              (config_label_font config) (config_label_font_size config)
              (config_label_color config) (config_label_margin config) h v
              (config_canvas_margin config) (config_align config))
    as (labelled & -> & _ & Hpasted).
  destruct (save_image _ _ _ _ _); [|discriminate].
  intros [= _ <-]. rewrite Hpasted.
  rewrite (create_combined_image_pasted session _ _ _ _ _ _ _ combined Hrows
             Hcols Ec).
  apply Forall_forall. intros p Hp. apply in_map_iff in Hp.
  destruct Hp as ([i img] & <- & Hin). cbn [fst snd size_of].
  apply In_assigned_image in Hin. cbn [images session] in Hin.
  rewrite Forall_forall in Hbounded. exact (Hbounded img Hin).
Qed.

Lemma run_from_all (w : os_world) (config : batch_config)
    (output_dir : string) (total : Z) (folders : list string) :
  forall k,
    Forall (fun folder =>
              fst (process_folder w config output_dir folder
                     (basename w folder)) = true) folders ->
    finished (run_from w config output_dir total folders k) = true
    /\ folders_processed (run_from w config output_dir total folders k)
       = k + len folders
    /\ files_written (run_from w config output_dir total folders k)
       = flat_map (fun folder =>
                     snd (process_folder w config output_dir folder
                            (basename w folder))) folders.
Proof.
  induction folders as [|folder rest IH]; intros k Hok; cbn [run_from].
  - cbn. repeat split; unfold len; cbn; lia.
  - inversion Hok as [|? ? Hfolder Hrest]; subst.
    destruct (process_folder w config output_dir folder (basename w folder))
      as [success written] eqn:Ep.
    cbn [fst] in Hfolder. subst success. cbn [negb].
    destruct (IH (k + 1) Hrest) as (Hf & Hp & Hw).
    cbn [finished folders_processed files_written flat_map].
    rewrite Ep. cbn [snd]. rewrite Hf, Hp, Hw.
    repeat split. unfold len. cbn [List.length]. lia.
Qed.

Lemma run_from_failing (w : os_world) (config : batch_config)
    (output_dir : string) (total : Z) (before : list string)
    (failing : string) (after : list string) :
  Forall (fun folder =>
            fst (process_folder w config output_dir folder
                   (basename w folder)) = true) before ->
  fst (process_folder w config output_dir failing (basename w failing))
  = false ->
  forall k,
    let r := run_from w config output_dir total (before ++ failing :: after) k in
    finished r = false
    /\ folders_processed r = k + len before
    /\ files_written r
       = flat_map (fun folder =>
                     snd (process_folder w config output_dir folder
                            (basename w folder))) before
    /\ map snd (progress_updated r) = map (basename w) (before ++ [failing]).
Proof.
  intros Hbefore Hfail.
  induction Hbefore as [|folder rest Hfolder Hrest IH]; intros k;
    cbn [app run_from].
  - destruct (process_folder w config output_dir failing (basename w failing))
      as [success written] eqn:Ep.
    cbn [fst] in Hfail. subst success. cbn [negb].
    cbn [finished folders_processed files_written progress_updated flat_map
         map snd].
    pose proof (process_folder_failure w config output_dir failing
                  (basename w failing)) as Hnone.
    rewrite Ep in Hnone. cbn [fst snd] in Hnone.
    rewrite (Hnone eq_refl). unfold len. cbn. repeat split. lia.
  - destruct (process_folder w config output_dir folder (basename w folder))
      as [success written] eqn:Ep.
    cbn [fst] in Hfolder. subst success. cbn [negb].
    destruct (IH (k + 1)) as (Hf & Hp & Hw & Hs).
    cbn [finished folders_processed files_written progress_updated flat_map
         map snd].
    rewrite Ep. cbn [snd]. rewrite Hf, Hp, Hw, Hs.
    repeat split. unfold len. cbn [List.length]. lia.
Qed.

(** X26. [run] stops at the first folder that fails: with every folder
    succeeding it reports success and has written each folder's file,
    in order; otherwise the files written are those of the folders
    before the failing one, which is the last one announced, and no
    later folder is touched. *)
Theorem run_stops_at_first_failure (w : os_world) (config : batch_config)
    (output_dir : string) (folders : list string) :
  let outcome := fun folder =>
    process_folder w config output_dir folder (basename w folder) in
  (Forall (fun folder => fst (outcome folder) = true) folders ->
   finished (run w config output_dir folders) = true
   /\ folders_processed (run w config output_dir folders) = len folders
   /\ files_written (run w config output_dir folders)
      = flat_map (fun folder => snd (outcome folder)) folders)
  /\ (forall before failing after,
        folders = before ++ failing :: after ->
        Forall (fun folder => fst (outcome folder) = true) before ->
        fst (outcome failing) = false ->
        finished (run w config output_dir folders) = false
        /\ folders_processed (run w config output_dir folders) = len before
        /\ files_written (run w config output_dir folders)
           = flat_map (fun folder => snd (outcome folder)) before
        /\ map snd (progress_updated (run w config output_dir folders))
           = map (basename w) (before ++ [failing])).
Proof.
  cbv zeta. unfold run. split.
  - intros Hok.
    destruct (run_from_all w config output_dir (len folders) folders 0 Hok)
      as (Hf & Hp & Hw).
    repeat split; [assumption | lia | assumption].
  - intros before failing after -> Hbefore Hfail.
    destruct (run_from_failing w config output_dir
                (len (before ++ failing :: after)) before failing after
                Hbefore Hfail 0) as (Hf & Hp & Hw & Hs).
    repeat split; [assumption | lia | assumption | assumption].
Qed.

(** ** What the export touches *)

(** X27. [output_image] leaves the session, the preview and the preview
    label as they are; it writes one file, at the path chosen, or
    none. *)
Theorem output_image_only_writes (w : world) (g : settings)
    (file_path : string) (self : main_window) :
  in_widget_ranges g = true ->
  let after := output_image w g file_path self in
  image_processor after = image_processor self
  /\ current_preview after = current_preview self
  /\ preview_pixmap after = preview_pixmap self
  /\ (written after = written self
      \/ exists canvas, written after = written self ++ [(file_path, canvas)])
  /\ (current_preview self = None \/ file_path = EmptyString ->
      after = self).
Proof.
  intros Hg after.
  assert (Hskip : current_preview self = None \/ file_path = EmptyString ->
                  after = self).
  { unfold after, output_image. intros [H | H].
    - now rewrite H.
    - rewrite H. now destruct (current_preview self). }
  assert (Hshape : forall s, s = after ->
            s = self \/ exists canvas, s = add_written file_path canvas self).
  { intros s. unfold after, output_image.
    destruct (current_preview self) as [preview|]; [|now left].
    destruct (String.eqb file_path EmptyString); [now left|].
    unfold sbind at 1.
    destruct (mapM _ (image_paths (image_processor self)))
      as [resized_images|e]; cbn [snd]; [|now left].
    unfold sbind at 1.
    rewrite compose_substituted_restores by assumption.
    destruct (save_image w _ file_path (spin_dpi g) (combo_output_format g));
      [|now left].
    destruct (render w g _) as [canvas|]; [|now left].
    intros ->. right. now exists canvas. }
  destruct (Hshape after eq_refl) as [E | [canvas E]]; clear Hshape;
    revert Hskip; rewrite E; intros Hskip.
  - refine (conj eq_refl (conj eq_refl (conj eq_refl (conj _ _)))).
    + now left.
    + reflexivity.
  - refine (conj eq_refl (conj eq_refl (conj eq_refl (conj _ _)))).
    + right. now exists canvas.
    + exact Hskip.
Qed.

(** ** The export has the size of the preview *)

Lemma same_size_dims (a b : image) :
  same_size a b -> width a = width b /\ height a = height b.
Proof. unfold same_size, size_of. intros [= -> ->]. now split. Qed.

Lemma resize_same_size (a b : image) (size : Z * Z) (f g : resampling) :
  same_size a b ->
  same_size_outcome (Image.resize a size f) (Image.resize b size g).
Proof.
  intros H. destruct (same_size_dims a b H) as [Hw Hh].
  unfold Image.resize. destruct size as [w h]. rewrite Hw, Hh.
  destruct ((w =? width b) && (h =? height b)); [exact H|].
  destruct ((w <? 1) || (h <? 1)); [exact I | reflexivity].
Qed.

Lemma crop_same_size (a b : image) (box : Z * Z * Z * Z) :
  same_size_outcome (Image.crop a box) (Image.crop b box).
Proof.
  unfold Image.crop. destruct box as [[[x0 y0] x1] y1].
  destruct ((x1 <? x0) || (y1 <? y0)); [exact I | reflexivity].
Qed.

Lemma sbind_same_size_run {A B : Type} (R : A -> A -> Prop)
    (R' : B -> B -> Prop) (c c' : stateful image A)
    (k k' : A -> stateful image B) (s s' : image) :
  same_size_run R (c s) (c' s') ->
  (forall x y t t', R x y -> same_size t t' ->
     same_size_run R' (k x t) (k' y t')) ->
  same_size_run R' (sbind c k s) (sbind c' k' s').
Proof.
  unfold same_size_run, sbind. intros [Hs Hr] Hk.
  destruct (c s) as [[x|e] t], (c' s') as [[y|e'] t']; cbn [fst snd] in *;
    try contradiction.
  - now apply Hk.
  - now split.
Qed.

Lemma lift_same_size_run {A : Type} (c : result A) (s s' : image) :
  same_size s s' -> same_size_run eq (lift c s) (lift c s').
Proof.
  intros H. split; [exact H|]. unfold lift. cbn [fst]. now destruct c.
Qed.

Lemma assign_same_size_run (f g : image -> result image) (s s' : image) :
  same_size s s' -> same_size_outcome (f s) (g s') ->
  same_size_run (fun _ _ => True) (assign f s) (assign g s').
Proof.
  intros Hs H. unfold assign, same_size_run.
  destruct (f s), (g s'); cbn in *; try contradiction; auto.
Qed.

Lemma reads_same_size_run (f g : image -> result image) (s s' : image) :
  same_size s s' -> same_size_outcome (f s) (g s') ->
  same_size_run same_size (reads f s) (reads g s').
Proof.
  intros Hs H. unfold reads, same_size_run. cbn [fst snd]. split; [exact Hs|].
  destruct (f s), (g s'); cbn in *; try contradiction; auto.
Qed.

Lemma gets_same_size_run (s s' : image) :
  same_size s s' ->
  same_size_run same_size (gets (fun img => img) s) (gets (fun img => img) s').
Proof. intros H. now split. Qed.

Lemma resize_image_body_same_size (m : resize_mode) (size : Z)
    (aspect_ratio : option (Z * Z)) (fast fast' : bool) (img img' : image) :
  same_size img img' ->
  same_size_run same_size
    (resize_image_body m size aspect_ratio fast img)
    (resize_image_body m size aspect_ratio fast' img').
Proof.
  intros Himg. unfold resize_image_body.
  destruct (is_original m); [now apply gets_same_size_run|].
  destruct aspect_ratio as [[ratio_w ratio_h]|].
  - eapply sbind_same_size_run; [apply lift_same_size_run; exact Himg|].
    intros target_ratio ? t t' <- Ht.
    apply sbind_same_size_run with (R := eq).
    { destruct (same_size_dims t t' Ht) as [Hw Hh].
      unfold reads, same_size_run. cbn [fst snd].
      rewrite Hw, Hh. split; [exact Ht|].
      now destruct (PyFloat.int_truediv (width t') (height t')). }
    intros current_ratio ? u u' <- Hu.
    eapply sbind_same_size_run; [apply lift_same_size_run; exact Hu|].
    intros new_size ? v v' <- Hv.
    eapply sbind_same_size_run;
      [apply assign_same_size_run; [exact Hv | now apply resize_same_size]|].
    intros _ _ x y _ Hxy.
    apply sbind_same_size_run with (R := fun _ _ => True);
      [|intros; now apply gets_same_size_run].
    destruct (PyFloat.ne current_ratio target_ratio);
      [|split; [exact Hxy | exact I]].
    destruct (same_size_dims x y Hxy) as [Hw Hh].
    destruct (PyFloat.gt current_ratio target_ratio).
    + apply assign_same_size_run; [exact Hxy|]. rewrite Hw, Hh.
      destruct (PyFloat.int_mul (height y) target_ratio) as [q|e];
        [|exact I].
      cbn [bind]. destruct (PyFloat.to_int q) as [crop_w|e]; [|exact I].
      cbn [bind]. apply crop_same_size.
    + apply assign_same_size_run; [exact Hxy|]. rewrite Hw, Hh.
      destruct (PyFloat.int_div (width y) target_ratio) as [q|e];
        [|exact I].
      cbn [bind]. destruct (PyFloat.to_int q) as [crop_h|e]; [|exact I].
      cbn [bind]. apply crop_same_size.
  - destruct (same_size_dims img img' Himg) as [Hw Hh].
    destruct m; try (now apply gets_same_size_run).
    + apply reads_same_size_run; [exact Himg|]. rewrite Hw, Hh.
      repeat match goal with
             | |- same_size_outcome (bind ?c _) (bind ?c _) =>
                 destruct c; [cbn [bind]|exact I]
             end.
      now apply resize_same_size.
    + apply reads_same_size_run; [exact Himg|]. rewrite Hw, Hh.
      repeat match goal with
             | |- same_size_outcome (bind ?c _) (bind ?c _) =>
                 destruct c; [cbn [bind]|exact I]
             end.
      now apply resize_same_size.
    + apply reads_same_size_run; [exact Himg|]. rewrite Hw, Hh.
      repeat match goal with
             | |- same_size_outcome (bind ?c _) (bind ?c _) =>
                 destruct c; [cbn [bind]|exact I]
             end.
      now apply resize_same_size.
    + eapply sbind_same_size_run.
      * apply assign_same_size_run; [exact Himg|]. rewrite Hw, Hh.
        apply crop_same_size.
      * intros _ _ x y _ Hxy.
        apply reads_same_size_run; [exact Hxy | now apply resize_same_size].
Qed.

(** The size [resize_image] returns depends on the size it is given
    only, not on the pixels, the mode or the filter. *)
Lemma resize_image_same_size (img img' : image) (m : resize_mode) (size : Z)
    (aspect_ratio : option (Z * Z)) (fast fast' : bool) :
  same_size img img' ->
  same_size (resize_image img m size aspect_ratio fast)
    (resize_image img' m size aspect_ratio fast').
Proof.
  intros H. unfold resize_image.
  destruct (resize_image_body_same_size m size aspect_ratio fast fast' img img'
              H) as [Hs Hr].
  destruct (resize_image_body m size aspect_ratio fast img) as [[x|e] t],
           (resize_image_body m size aspect_ratio fast' img') as [[y|e'] t'];
    cbn [fst snd] in *; try contradiction; assumption.
Qed.

Lemma measured_alike (measure : image -> Z) (keep : Z -> bool)
    (indices : list Z) :
  forall imgs imgs',
    map measure imgs = map measure imgs' ->
    map (fun p => measure (snd p))
      (filter (fun p => keep (fst p)) (combine indices imgs))
    = map (fun p => measure (snd p))
        (filter (fun p => keep (fst p)) (combine indices imgs')).
Proof.
  induction indices as [|i indices IH]; intros [|a imgs] [|b imgs'] H;
    try discriminate; try reflexivity.
  cbn [combine filter fst]. injection H as Hab H.
  destruct (keep i); cbn [map snd]; [f_equal; [assumption|]|]; now apply IH.
Qed.

Lemma sizes_widths (imgs imgs' : list image) :
  map size_of imgs = map size_of imgs' ->
  map width imgs = map width imgs' /\ map height imgs = map height imgs'.
Proof.
  intros H. split.
  - apply (f_equal (map fst)) in H. rewrite !map_map in H. exact H.
  - apply (f_equal (map snd)) in H. rewrite !map_map in H. exact H.
Qed.

Lemma totals_of_sizes (imgs imgs' : list image) (rows cols : Z) :
  map size_of imgs = map size_of imgs' ->
  (forall h_spacing margin,
     total_width imgs rows cols h_spacing margin
     = total_width imgs' rows cols h_spacing margin)
  /\ (forall v_spacing margin,
        total_height imgs rows cols v_spacing margin
        = total_height imgs' rows cols v_spacing margin).
Proof.
  intros H. destruct (sizes_widths imgs imgs' H) as [Hw Hh].
  split; intros spacing margin; unfold total_width, total_height;
    do 2 f_equal; f_equal; apply map_ext; intros k.
  - unfold col_width, assigned. f_equal.
    apply (measured_alike width (fun i => i mod cols =? k)). exact Hw.
  - unfold row_height, assigned. f_equal.
    apply (measured_alike height (fun i => i / cols =? k)). exact Hh.
Qed.

(** The size of the composed canvas depends on the sizes of the images
    only. *)
Lemma composed_size_of_sizes (p p' : processor) (rows cols h_spacing
    v_spacing : Z) (bg : bg_color) (margin : Z) (align : alignment) :
  0 <= rows -> 0 <= cols ->
  map size_of (images p) = map size_of (images p') ->
  option_map size_of
    (create_combined_image p rows cols h_spacing v_spacing bg margin align)
  = option_map size_of
      (create_combined_image p' rows cols h_spacing v_spacing bg margin align).
Proof.
  intros Hrows Hcols H. unfold create_combined_image.
  rewrite !create_combined_image_body_run by assumption.
  destruct (totals_of_sizes (images p) (images p') rows cols H) as [Hw Hh].
  rewrite (Hw h_spacing margin), (Hh v_spacing margin).
  assert (He : is_empty (images p) = is_empty (images p')).
  { destruct (images p), (images p'); try discriminate; reflexivity. }
  rewrite He. destruct (is_empty (images p')); [reflexivity|].
  destruct (limit_canvas _ _) as [size|e]; [|reflexivity].
  cbn [bind]. destruct (new_canvas bg size) as [combined|e]; [|reflexivity].
  cbn [bind try_except option_map]. now rewrite !paste_all_size.
Qed.

Lemma render_size (w : world) (g : settings) (p : processor) :
  option_map size_of (render w g p)
  = option_map size_of
      (create_combined_image p (spin_rows g) (spin_cols g)
         (fst (spacing_in_pixels g)) (snd (spacing_in_pixels g))
         (combo_bg_color g) (spin_canvas_margin g) (radio_align g)).
Proof.
  unfold render. destruct (spacing_in_pixels g) as [h v]. cbn [fst snd].
  destruct (create_combined_image p (spin_rows g) (spin_cols g) h v
              (combo_bg_color g) (spin_canvas_margin g) (radio_align g))
    as [combined|]; [|reflexivity].
  destruct (add_labels_size (fonts w) p combined (spin_rows g)
              (spin_cols g) (combo_label_format g) (combo_label_pos g)
              (combo_font g) (spin_font_size g) (combo_label_color g)
              (spin_label_margin g) h v (spin_canvas_margin g)
              (radio_align g)) as (labelled & -> & Hsize & _).
  cbn [option_map]. now rewrite Hsize.
Qed.

Lemma mapM_Forall2 {A B : Type} (f : A -> result B) (l : list A)
    (r : list B) :
  mapM f l = Ok r -> Forall2 (fun a b => f a = Ok b) l r.
Proof.
  revert r. induction l as [|a l IH]; intros r; cbn [mapM].
  - intros [= <-]. constructor.
  - destruct (f a) as [b|] eqn:E; [|discriminate]. cbn [bind].
    destruct (mapM f l) as [bs|]; [|discriminate]. cbn [bind].
    intros [= <-]. constructor; [assumption | now apply IH].
Qed.

(** X28. When every stored image has the size of its source (no thumbnail
    was needed), the file written by [output_image] has the size of the
    preview of the same settings. *)
Theorem export_has_preview_size (w : world) (g : settings)
    (file_path : string) (self : main_window) (canvas : image) :
  in_widget_ranges g = true ->
  Forall2 (sized_as_source w) (images (image_processor self))
    (image_paths (image_processor self)) ->
  written (output_image w g file_path self)
  = written self ++ [(file_path, canvas)] ->
  exists preview,
    current_preview (update_preview w g self) = Some preview
    /\ size_of preview = size_of canvas.
Proof.
  intros Hg Hsrc Hwritten.
  assert (Hin := Hg). unfold in_widget_ranges, between in Hin.
  repeat (apply andb_prop in Hin; destruct Hin as [Hin ?]).
  assert (Hrows : 0 <= spin_rows g) by lia.
  assert (Hcols : 0 <= spin_cols g) by lia.
  (* what was exported *)
  assert (Hexp : exists exported,
            Forall2 (fun path img =>
                       exists opened,
                         open_image w path = Ok opened
                         /\ img = resize_image
                                    (try_except (exif_transpose w opened)
                                       (fun _ => opened))
                                    (combo_resize g) (spin_size g)
                                    (combo_aspect g) false)
              (image_paths (image_processor self)) exported
            /\ render w g (mk_processor exported
                             (image_paths (image_processor self)))
               = Some canvas).
  { revert Hwritten. unfold output_image.
    assert (Hno : written self = written self ++ [(file_path, canvas)] ->
                  False).
    { intros E. apply (f_equal (@List.length _)) in E.
      rewrite length_app in E. cbn in E. lia. }
    destruct (current_preview self); [|intros E; now destruct Hno].
    destruct (String.eqb file_path EmptyString);
      [intros E; now destruct Hno|].
    unfold sbind at 1.
    destruct (mapM _ (image_paths (image_processor self)))
      as [exported|e] eqn:Em; cbn [snd]; [|intros E; now destruct Hno].
    unfold sbind at 1.
    rewrite compose_substituted_restores by assumption.
    destruct (save_image w _ file_path (spin_dpi g) (combo_output_format g));
      [|intros E; now destruct Hno].
    destruct (render w g _) as [img|] eqn:Er; [|intros E; now destruct Hno].
    cbn [modify snd add_written written]. intros E.
    apply app_inv_head in E. injection E as ->.
    exists exported. split; [|exact Er].
    apply mapM_Forall2 in Em.
    eapply Forall2_impl; [|exact Em]. cbn beta. intros path img.
    destruct (open_image w path) as [opened|]; [|discriminate].
    cbn [bind]. intros [= <-]. now exists opened. }
  destruct Hexp as (exported & Hexported & Hrender).
  set (previewed := map (fun img => resize_image img (combo_resize g)
                                      (spin_size g) (combo_aspect g) true)
                      (images (image_processor self))).
  assert (Hsizes : map size_of previewed = map size_of exported).
  { unfold previewed. clear Hrender Hwritten.
    revert exported Hexported.
    induction Hsrc as [|img path imgs paths (opened & Ho & Hs) _ IH];
      intros exported Hexported; inversion Hexported as [|? e ? es He Hes];
      subst; [reflexivity|].
    cbn [map]. f_equal; [|now apply IH].
    destruct He as (opened' & Ho' & ->).
    rewrite Ho in Ho'. injection Ho' as <-.
    now apply resize_image_same_size. }
  assert (Hne : images (image_processor self) <> []).
  { intros E. rewrite E in Hsrc.
    destruct (image_paths (image_processor self)) as [|q qs];
      [|inversion Hsrc].
    inversion Hexported; subst.
    unfold render in Hrender. destruct (spacing_in_pixels g).
    discriminate. }
  rewrite (update_preview_current w g self Hg Hne). fold previewed.
  pose proof (render_size w g
                (mk_processor previewed (image_paths (image_processor self))))
    as Hp.
  pose proof (render_size w g
                (mk_processor exported (image_paths (image_processor self))))
    as He.
  rewrite (composed_size_of_sizes
             (mk_processor previewed (image_paths (image_processor self)))
             (mk_processor exported (image_paths (image_processor self))))
    in Hp by assumption.
  rewrite <- He, Hrender in Hp. cbn [option_map] in Hp.
  destruct (render w g (mk_processor previewed _)) as [preview|];
    [|discriminate].
  exists preview. split; [reflexivity|]. cbn [option_map] in Hp. congruence.
Qed.

(** A source that is no EPS file and fits in 1024 px is stored at its
    own size. *)
Lemma load_one_sized_as_source (w : world) (path : string) (img : image) :
  ext_is_eps path = false ->
  load_one w path = Ok img ->
  (forall opened, open_image w path = Ok opened ->
     Z.max (width (try_except (exif_transpose w opened) (fun _ => opened)))
       (height (try_except (exif_transpose w opened) (fun _ => opened)))
     <= max_size) ->
  sized_as_source w img path.
Proof.
  intros Heps. unfold load_one, sized_as_source. rewrite Heps.
  destruct (open_image w path) as [opened|e]; [|discriminate].
  cbn [bind]. intros Hload Hsmall. specialize (Hsmall opened eq_refl).
  exists opened. split; [reflexivity|].
  set (turned := try_except (exif_transpose w opened) (fun _ => opened)) in *.
  assert (Hsame : forall decoded : image,
            decoded = (if is_RGB_or_RGBA (mode turned) then turned
                       else Image.convert turned RGB) ->
            size_of decoded = size_of turned).
  { intros decoded ->. now destruct (is_RGB_or_RGBA (mode turned)). }
  set (decoded := if is_RGB_or_RGBA (mode turned) then turned
                  else Image.convert turned RGB) in *.
  specialize (Hsame decoded eq_refl).
  assert (Hdims : width decoded = width turned /\ height decoded = height turned)
    by (unfold size_of in Hsame; now injection Hsame).
  destruct (Z.gtb_spec (Z.max (width decoded) (height decoded)) max_size);
    [lia|].
  injection Hload as <-. exact Hsame.
Qed.

(** ** The claims at concrete inputs *)

Lemma canvas_size_invariant_witness :
  (1 <= 2 /\ 0 <= 20 /\ 0 <= 10
   /\ 10 * 2 + (400 + 400) + (2 - 1) * 20 <= 16384)
  /\ exists canvas,
       create_combined_image four_panels 2 2 20 20 white 10 align_center
       = Some canvas
       /\ width canvas = 840 /\ height canvas = 740.
Proof.
  split.
  - repeat split; discriminate.
  - destruct (canvas_size_invariant four_panels 2 2 20 20 white 10
                align_center ltac:(lia) ltac:(lia) ltac:(lia) ltac:(lia)
                ltac:(lia) ltac:(vm_compute; discriminate)
                ltac:(vm_compute; discriminate)) as [Hsize Hex].
    destruct (Hex ltac:(discriminate)) as [canvas Hc].
    exists canvas. split; [exact Hc|]. exact (Hsize canvas Hc).
Defined.



Lemma excess_images_dropped_witness :
  (1 <= 2 /\ 2 * 2 < len (images five_panels))
  /\ create_combined_image five_panels 2 2 20 20 white 10 align_center
     = create_combined_image four_panels 2 2 20 20 white 10 align_center.
Proof.
  split.
  - split; vm_compute; reflexivity || discriminate.
  - apply (proj1 (excess_images_dropped five_panels 2 2 20 20 white 10
                    align_center ltac:(lia) ltac:(lia)
                    ltac:(vm_compute; reflexivity))).
Defined.












(** ** The further properties at concrete inputs *)

Lemma load_images_no_duplicates_witness :
  NoDup (image_paths new_processor)
  /\ image_paths (snd (load_images sample_world new_processor
                         ["big.png"; "big.png"])) = ["big.png"]
  /\ NoDup (image_paths (snd (load_images sample_world new_processor
                                ["big.png"; "big.png"]))).
Proof.
  split; [constructor|]. split; [reflexivity|].
  apply (load_images_no_duplicates sample_world ["big.png"; "big.png"]
           new_processor).
  constructor.
Defined.

Lemma load_one_mode_witness :
  ext_is_eps "big.png" = false
  /\ exists img,
       load_one sample_world "big.png" = Ok img
       /\ (mode img = RGB \/ mode img = RGBA).
Proof.
  split; [reflexivity|]. eexists. split; [vm_compute; reflexivity|].
  apply (load_one_mode sample_world "big.png" _ eq_refl).
  vm_compute. reflexivity.
Defined.

Lemma reorder_images_keeps_pairs_witness :
  exists self',
    reorder_images [1; -2] two_panels = (Ok tt, self')
    /\ mapM (getitem (combine (images two_panels) (image_paths two_panels)))
         [1; -2]
       = Ok (combine (images self') (image_paths self'))
    /\ len (images self') = len (images two_panels)
    /\ len (image_paths self') = len (images two_panels).
Proof.
  apply (reorder_images_keeps_pairs [1; -2] two_panels);
    [reflexivity | reflexivity |].
  repeat constructor; vm_compute; discriminate.
Defined.

Lemma reorder_images_out_of_range_witness :
  reorder_images [0; 2] two_panels = (Raise IndexError, two_panels).
Proof.
  apply (reorder_images_out_of_range [0; 2] two_panels); [reflexivity|].
  apply Exists_cons_tl, Exists_cons_hd. right. vm_compute. discriminate.
Defined.

Lemma reorder_images_permutes_witness :
  exists self',
    reorder_images [1; 0] two_panels = (Ok tt, self')
    /\ Permutation (combine (images self') (image_paths self'))
         (combine (images two_panels) (image_paths two_panels)).
Proof.
  apply (reorder_images_permutes [1; 0] two_panels); [reflexivity|].
  apply perm_swap.
Defined.

Lemma pasted_inside_margins_witness :
  exists canvas,
    create_combined_image four_panels 2 2 20 20 white 10 align_center
    = Some canvas
    /\ Forall (inside_margins (size_of canvas) 10) (pasted_on (content canvas)).
Proof.
  eexists. split; [vm_compute; reflexivity|].
  apply (pasted_inside_margins four_panels 2 2 20 20 white 10 align_center);
    try lia; try (vm_compute; discriminate).
  vm_compute. reflexivity.
Defined.

Lemma pasted_apart_witness :
  exists canvas,
    create_combined_image four_panels 2 2 20 20 white 10 align_right
    = Some canvas
    /\ ForallOrdPairs (apart 20 20) (pasted_on (content canvas)).
Proof.
  eexists. split; [vm_compute; reflexivity|].
  apply (pasted_apart four_panels 2 2 20 20 white 10 align_right);
    try lia.
  vm_compute. reflexivity.
Defined.




Lemma cm_to_pixels_witness :
  get_spacing_in_pixels 25 "cm" = Ok 944
  /\ 25 * 378 / 10 = 945
  /\ get_spacing_in_pixels 2 "cm" = Ok 75.
Proof.
  destruct (cm_to_pixels 25 ltac:(split; [discriminate | reflexivity]))
    as (px & Hpx & _).
  destruct (cm_to_pixels 2 ltac:(split; [discriminate | reflexivity]))
    as (px' & Hpx' & _ & Hexact & _).
  split; [vm_compute; reflexivity|]. split; [reflexivity|].
  rewrite Hpx'. f_equal. apply Hexact. discriminate.
Defined.

Lemma preview_fits_witness :
  exists shown,
    show_preview sample_settings (Some (picture "canvas" 840 740)) = Ok shown
    /\ size_of shown = (400, 352)
    /\ width shown <= 400 /\ height shown <= 400 /\ mode shown <> RGBA.
Proof.
  eexists. split; [vm_compute; reflexivity|]. split; [reflexivity|].
  apply (preview_fits sample_settings (picture "canvas" 840 740));
    try (split; [discriminate | reflexivity]);
    try (split; discriminate);
    try (vm_compute; reflexivity).
Defined.

Lemma process_folder_needs_every_file_witness :
  process_folder photo_disk sample_batch_config "out" "scans" "scans"
  = (false, []).
Proof.
  apply (process_folder_needs_every_file photo_disk sample_batch_config "out"
           "scans" "scans" ["lost.PNG"] eq_refl).
  right. exists "lost.PNG". split; [now left|]. split; [reflexivity|].
  left. reflexivity.
Defined.

Lemma batch_composes_thumbnails_witness :
  exists canvas,
    process_folder photo_disk sample_batch_config "out" "photos" "photos"
    = (true, [("out/photos_combined.png", canvas)])
    /\ map (fun p : pixels * (Z * Z) * (Z * Z) => snd (fst p))
         (pasted_on (content canvas)) = [(1024, 768)]
    /\ Forall (fun p : pixels * (Z * Z) * (Z * Z) =>
                 Z.max (fst (snd (fst p))) (snd (snd (fst p))) <= 1024)
         (pasted_on (content canvas)).
Proof.
  eexists. split; [vm_compute; reflexivity|]. split; [reflexivity|].
  apply (batch_composes_thumbnails photo_disk sample_batch_config "out"
           "photos" "photos" "out/photos_combined.png" _ eq_refl
           ltac:(discriminate) ltac:(discriminate)).
  vm_compute. reflexivity.
Defined.

Lemma update_config_lookup_witness :
  dict_get (update_config [("rows", VInt 3); ("colour", VStr "red")]
              _get_default_config) "rows" = Some (VInt 3)
  /\ dict_get (update_config [("rows", VInt 3); ("colour", VStr "red")]
                 _get_default_config) "colour" = None
  /\ dict_get (update_config [("rows", VInt 3); ("colour", VStr "red")]
                 _get_default_config) "cols" = Some (VInt 2).
Proof.
  destruct (update_config_lookup [("rows", VInt 3); ("colour", VStr "red")]
              _get_default_config) as [_ Hget].
  { repeat constructor; cbn; intuition discriminate. }
  rewrite !Hget. repeat split.
Defined.

Lemma save_then_load_witness :
  exists fs',
    save_config "config.json" [("aspect_ratio", VTuple [VInt 4; VInt 3])]
      no_json_files = (true, fs')
    /\ dict_get (snd (load_config fs' "config.json"
                        [("aspect_ratio", VTuple [VInt 4; VInt 3])]))
         "aspect_ratio"
       = Some (VList [VInt 4; VInt 3]).
Proof.
  destruct (save_then_load no_json_files "config.json"
              [("aspect_ratio", VTuple [VInt 4; VInt 3])])
    as (fs' & Hsave & _ & _ & Hget).
  { repeat constructor. intros []. }
  { reflexivity. }
  exists fs'. split; [exact Hsave|]. rewrite Hget. reflexivity.
Defined.

Lemma validate_config_finds_its_keys_witness :
  validate_config (update_config [("rows", VInt 0)] _get_default_config)
  <> inl (KeyError "rows").
Proof.
  apply (validate_config_finds_its_keys
           (update_config [("rows", VInt 0)] _get_default_config) "rows").
  apply reach_update, reach_default.
Defined.

Lemma validate_config_ranges_witness :
  exists valid errors,
    validate_config _get_default_config = inr (valid, errors)
    /\ (valid = true <-> errors = [])
    /\ (List.length errors <= 5)%nat
    /\ (valid = true <->
        1 <= 2 /\ 1 <= 2 /\ 100 <= 800 /\ 0 <= 20 /\ 0 <= 20
        /\ 8 <= 12 <= 72 /\ 72 <= 300 <= 1200).
Proof.
  apply (validate_config_ranges _get_default_config 2 2 800 20 20 12 300);
    reflexivity.
Defined.

Lemma validate_config_after_load_witness :
  load_config rows_as_text "config.json" _get_default_config
  = (true, update_config [("rows", VStr "2")] _get_default_config)
  /\ validate_config
       (snd (load_config rows_as_text "config.json" _get_default_config))
     = inl TypeError.
Proof.
  apply (validate_config_after_load rows_as_text "config.json"
           _get_default_config "2" reach_default eq_refl eq_refl).
Defined.

Lemma output_image_only_writes_witness :
  in_widget_ranges sample_settings = true
  /\ exists canvas,
       written (output_image sample_world sample_settings "out.png"
                  (update_preview sample_world sample_settings loaded_window))
       = [("out.png", canvas)].
Proof.
  split; [reflexivity|].
  destruct (output_image_only_writes sample_world sample_settings "out.png"
              (update_preview sample_world sample_settings loaded_window)
              eq_refl) as (_ & _ & _ & [Hnone | [canvas Hone]] & _).
  - vm_compute in Hnone. discriminate.
  - exists canvas. exact Hone.
Defined.

Lemma export_has_preview_size_witness :
  exists canvas preview,
    written (output_image sketch_files sketch_settings "out.png" sketch_window)
    = written sketch_window ++ [("out.png", canvas)]
    /\ current_preview
         (update_preview sketch_files sketch_settings sketch_window)
       = Some preview
    /\ size_of preview = size_of canvas.
Proof.
  assert (Hw : exists canvas,
            written (output_image sketch_files sketch_settings "out.png"
                       sketch_window)
            = written sketch_window ++ [("out.png", canvas)])
    by (eexists; vm_compute; reflexivity).
  destruct Hw as [canvas Hw].
  destruct (export_has_preview_size sketch_files sketch_settings "out.png"
              sketch_window canvas) as (preview & Hp & Hs).
  - reflexivity.
  - vm_compute. constructor; [|constructor].
    eexists. split; reflexivity.
  - exact Hw.
  - exists canvas, preview. repeat split; assumption.
Defined.
